(** * paraCompare: parameter tokens, record comparison and renumbering

    A shallow embedding of the core of [src/index.tsx]: the token
    extractor ([extractParametersFromRecord]), the record comparator and
    batch runner ([compareAllRecords]), the substitution resolver
    ([detectAndFixCircularReplacements]), the save validation
    ([handleSave]) and the apply step ([replaceParameters]); then the
    effect that opens the edit dialog, [handleReplacementChange],
    [hasConsistentParameterCount] and the selection of the fields
    ([handleFieldSelectionChange], [selectAllFields], [deselectAllFields],
    [initializeFieldOptions]).

    Conventions of the embedding.
    - A JavaScript string is a [string]: its code units are the 8-bit
      characters of Rocq (code units above 255 are outside the model).
    - A JavaScript [number] is a value of type [number] below: the exact
      mathematical value of the literal it was read from.  Rounding to
      binary64 is not modelled, so the embedding agrees with the engine on
      every integer of magnitude at most 2^53 and on every decimal literal
      that binary64 prints back unchanged.
    - A token value (the result of [parseInt] on a run of digits) is an [N].
    - Loops that the source bounds by a list are structural recursions;
      [while] loops and the recursion of [hasCycle] take a fuel argument and
      answer [None] when it runs out.  The scans of a text by a regular
      expression recurse on a fuel that is the length of the text.
    - The host is the record of what its calls answer; an exception is a
      [Throw] carrying the message of the error.

    The definitions come first, component by component, each followed by
    the vocabulary in which its properties are stated; the lemmas and the
    theorems follow. *)

From Stdlib Require Import Ascii.
From stdpp Require Import base numbers strings list gmap sorting pretty.

#[local] Set Warnings "-clear-no-such-hyp".

Local Open Scope Z_scope.

(** ** ECMAScript numbers and their conversions *)

Module JS.

(** A number value.  [Frac m e] is [m / 10^e] with [m] not a multiple of
    ten, so that equal values have equal representations; [-0] and [+0]
    are both [Int 0] (they are equal for [===], for [Map] and [Set] keys and
    for [toString]). *)
Inductive number : Type :=
  | NaN
  | Infinity (negative : bool)
  | Int (z : Z)
  | Frac (m : Z) (e : positive).

#[global] Instance number_eq_dec : EqDecision number.
Proof. solve_decision. Defined.

Definition number_code (x : number) : option (bool + (Z + Z * positive)) :=
  match x with
  | NaN => None
  | Infinity b => Some (inl b)
  | Int z => Some (inr (inl z))
  | Frac m e => Some (inr (inr (m, e)))
  end.

Definition number_decode (c : option (bool + (Z + Z * positive))) : number :=
  match c with
  | None => NaN
  | Some (inl b) => Infinity b
  | Some (inr (inl z)) => Int z
  | Some (inr (inr (m, e))) => Frac m e
  end.

#[global] Instance number_countable : Countable number.
Proof.
  apply (inj_countable' number_code number_decode).
  by intros [].
Defined.

Definition ofN (n : N) : number := Int (Z.of_N n).

#[global] Instance ofN_inj : Inj (=) (=) ofN.
Proof. intros a b [=]. lia. Qed.

(** [isNaN(x)] on a number. *)
Definition isNaN (x : number) : bool :=
  match x with NaN => true | _ => false end.

(** [x !== y] on numbers: [NaN] differs from everything, itself included. *)
Definition strict_neq (x y : number) : bool :=
  match x, y with
  | NaN, _ | _, NaN => true
  | _, _ => bool_decide (x ≠ y)
  end.
#[global] Arguments strict_neq : simpl never.

(** *** Characters *)

Definition code (c : ascii) : N := N_of_ascii c.

(** [StrWhiteSpaceChar] restricted to code units below 256: TAB, LF, VT,
    FF, CR, SP and NBSP. *)
Definition isWhiteSpace (c : ascii) : bool :=
  let n := code c in
  ((9 <=? n) && (n <=? 13) || (n =? 32) || (n =? 160))%N.

Definition isDigit (c : ascii) : bool :=
  let n := code c in ((48 <=? n) && (n <=? 57))%N.

(** The value of [c] as a digit in [radix] (at most 16), if it is one. *)
Definition digitValue (radix : N) (c : ascii) : option N :=
  let n := code c in
  let v :=
    if ((48 <=? n) && (n <=? 57))%N then Some (n - 48)%N
    else if ((97 <=? n) && (n <=? 102))%N then Some (n - 87)%N
    else if ((65 <=? n) && (n <=? 70))%N then Some (n - 55)%N
    else None in
  match v with
  | Some d => if (d <? radix)%N then Some d else None
  | None => None
  end.

(** The value of a run of digits, most significant first; [None] when
    some character is not a digit of the radix. *)
Fixpoint digitsValue (radix : N) (acc : N) (s : string) : option N :=
  match s with
  | EmptyString => Some acc
  | String c s' =>
      match digitValue radix c with
      | Some d => digitsValue radix (acc * radix + d)%N s'
      | None => None
      end
  end.

(** Longest prefix of characters satisfying [p], and the rest. *)
Fixpoint span (p : ascii -> bool) (s : string) : string * string :=
  match s with
  | EmptyString => (EmptyString, EmptyString)
  | String c s' =>
      if p c then let '(a, b) := span p s' in (String c a, b)
      else (EmptyString, s)
  end.

Fixpoint trimStart (s : string) : string :=
  match s with
  | EmptyString => EmptyString
  | String c s' => if isWhiteSpace c then trimStart s' else s
  end.

Fixpoint trimEnd (s : string) : string :=
  match s with
  | EmptyString => EmptyString
  | String c s' =>
      let t := trimEnd s' in
      if isWhiteSpace c && bool_decide (t = EmptyString) then EmptyString
      else String c t
  end.

(** *** [Number(s)]: StringToNumber *)

(** [m * 10^(-k)] as a number, in normal form. *)
Fixpoint mkFrac (m : Z) (k : nat) : number :=
  match k with
  | O => Int m
  | S k' =>
      if m mod 10 =? 0 then mkFrac (m / 10) k'
      else Frac m (Pos.of_succ_nat k')
  end.

(** [m * 10^e] as a number. *)
Definition mkFinite (m e : Z) : number :=
  if 0 <=? e then Int (m * 10 ^ e) else mkFrac m (Z.to_nat (- e)).

(** An optional sign: the factor it stands for and the rest of the input. *)
Definition signOf (s : string) : Z * string :=
  match s with
  | String "+"%char s' => (1, s')
  | String "-"%char s' => (-1, s')
  | _ => (1, s)
  end.

(** [ExponentPart_opt] at the end of a literal: the exponent, or [None] when
    the rest of the input is not an exponent part. *)
Definition exponentPart (s : string) : option Z :=
  match s with
  | EmptyString => Some 0
  | String c s' =>
      if bool_decide (c = "e"%char) || bool_decide (c = "E"%char) then
        let '(sg, ds) := signOf s' in
        match ds with
        | EmptyString => None
        | _ => match digitsValue 10 0 ds with
               | Some x => Some (sg * Z.of_N x)
               | None => None
               end
        end
      else None
  end.

(** [StrUnsignedDecimalLiteral] other than [Infinity]: mantissa and decimal
    exponent. *)
Definition unsignedDecimal (s : string) : option (Z * Z) :=
  let '(ip, r1) := span isDigit s in
  let '(fp, r2) :=
    match r1 with
    | String "."%char r => span isDigit r
    | _ => (EmptyString, r1)
    end in
  if bool_decide (ip = EmptyString) && bool_decide (fp = EmptyString) then None
  else
    match digitsValue 10 0 (ip +:+ fp), exponentPart r2 with
    | Some m, Some x => Some (Z.of_N m, x - Z.of_nat (String.length fp))
    | _, _ => None
    end.

Definition strDecimalLiteral (s : string) : number :=
  let '(sg, u) := signOf s in
  if bool_decide (u = "Infinity") then Infinity (bool_decide (sg = -1))
  else match unsignedDecimal u with
       | Some (m, e) => mkFinite (sg * m) e
       | None => NaN
       end.

(** [NonDecimalIntegerLiteral]: [0x], [0o] and [0b] literals (no sign). *)
Definition nonDecimalRadix (s : string) : option (N * string) :=
  match s with
  | String "0"%char (String c ds) =>
      if bool_decide (c = "x"%char) || bool_decide (c = "X"%char) then Some (16%N, ds)
      else if bool_decide (c = "o"%char) || bool_decide (c = "O"%char) then Some (8%N, ds)
      else if bool_decide (c = "b"%char) || bool_decide (c = "B"%char) then Some (2%N, ds)
      else None
  | _ => None
  end.

(** [Number(s)] for a string [s]: the exact value of the literal.  The
    engine rounds it to binary64, so the two agree on the integers of
    magnitude at most [2^53] and on the decimal literals that binary64
    holds; larger or longer literals are outside the embedding. *)
Definition Number (s : string) : number :=
  let t := trimEnd (trimStart s) in
  match t with
  | EmptyString => Int 0
  | _ =>
      match nonDecimalRadix t with
      | Some (radix, ds) =>
          match ds with
          | EmptyString => NaN
          | _ => match digitsValue radix 0 ds with
                 | Some v => Int (Z.of_N v)
                 | None => NaN
                 end
          end
      | None => strDecimalLiteral t
      end
  end.

(** *** [Number.prototype.toString] (radix ten)

    The digits printed are those of the exact value; the engine prints the
    shortest digits that read back as the same binary64.  The two agree on
    the integers of magnitude at most [2^53]. *)

Fixpoint zeros (n : nat) : string :=
  match n with O => EmptyString | S n' => String "0"%char (zeros n') end.

Fixpoint sliceTo (n : nat) (s : string) : string :=
  match n, s with
  | S n', String c s' => String c (sliceTo n' s')
  | _, _ => EmptyString
  end.

Fixpoint sliceFrom (n : nat) (s : string) : string :=
  match n, s with
  | S n', String c s' => sliceFrom n' s'
  | _, _ => s
  end.

(** Remove the trailing zeros of a run of digits. *)
Fixpoint stripZeros (s : string) : string :=
  match s with
  | EmptyString => EmptyString
  | String c s' =>
      let t := stripZeros s' in
      if bool_decide (c = "0"%char) && bool_decide (t = EmptyString) then EmptyString
      else String c t
  end.

(** The digits [s] (without trailing zeros) of a positive value
    [0.s * 10^n], printed as the standard prescribes. *)
Definition printDigits (s : string) (n : Z) : string :=
  let k := Z.of_nat (String.length s) in
  if (k <=? n) && (n <=? 21) then s +:+ zeros (Z.to_nat (n - k))
  else if (0 <? n) && (n <=? 21) then
    sliceTo (Z.to_nat n) s +:+ "." +:+ sliceFrom (Z.to_nat n) s
  else if (-6 <? n) && (n <=? 0) then
    "0." +:+ zeros (Z.to_nat (- n)) +:+ s
  else
    let x := n - 1 in
    let ex := (if 0 <=? x then "+" else "-") +:+ pretty (Z.abs x) in
    match s with
    | String d EmptyString => String d ("e" +:+ ex)
    | _ => sliceTo 1 s +:+ "." +:+ sliceFrom 1 s +:+ "e" +:+ ex
    end.

Definition toString (x : number) : string :=
  match x with
  | NaN => "NaN"
  | Infinity b => if b then "-Infinity" else "Infinity"
  | Int z =>
      if z =? 0 then "0"
      else
        let d := pretty (Z.abs z) in
        (if z <? 0 then "-" else "") +:+
        printDigits (stripZeros d) (Z.of_nat (String.length d))
  | Frac m e =>
      let d := pretty (Z.abs m) in
      (if m <? 0 then "-" else "") +:+
      printDigits d (Z.of_nat (String.length d) - Z.pos e)
  end.

End JS.

Import JS.

(** ** The substitution resolver: [detectAndFixCircularReplacements] *)

(** [Record<number, string>]: the replacement typed for each token of a
    parameter group.  The keys are the token values of the group (the effect
    that initialises the state creates one property per token), and the list
    is in the order in which [Object.entries] enumerates integer keys:
    ascending, without repetition. *)
Definition group := list (N * string).

(** [Record<string, Record<number, string>>], in [Object.entries] order. *)
Definition groups := list (string * group).

(** [Map<number, number>] in insertion order.  Every key that the source
    inserts is [Number(original)] for a property name [original], that is a
    token value. *)
Definition tokenMap := list (N * number).

(** The token value a number stands for, if any. *)
Definition toKey (x : number) : option N :=
  match x with
  | Int z => if 0 <=? z then Some (Z.to_N z) else None
  | _ => None
  end.

Fixpoint lookupKey (k : N) (m : tokenMap) : option number :=
  match m with
  | [] => None
  | (k', v) :: m' => if bool_decide (k' = k) then Some v else lookupKey k m'
  end.

(** [m.get(x)] *)
Definition mapGet (m : tokenMap) (x : number) : option number :=
  match toKey x with
  | Some k => lookupKey k m
  | None => None
  end.

(** [m.set(k, v)]: an existing key keeps its position. *)
Fixpoint mapSet (k : N) (v : number) (m : tokenMap) : tokenMap :=
  match m with
  | [] => [(k, v)]
  | (k', v') :: m' =>
      if bool_decide (k' = k) then (k, v) :: m' else (k', v') :: mapSet k v m'
  end.

(** [replaced !== '' && !isNaN(Number(replaced))] *)
Definition validNumber (replaced : string) : bool :=
  negb (bool_decide (replaced = "")) && negb (isNaN (Number replaced)).

(** The two maps of the source are filled by the same loop over
    [Object.entries(paramReplacements)], with different conditions. *)
Definition buildMap (keep : N -> string -> bool) (g : group) : tokenMap :=
  foldl (fun m '(original, replaced) =>
           if keep original replaced then mapSet original (Number replaced) m
           else m) [] g.

(** [replacementMap], lines 90-96. *)
Definition buildReplacementMap : group -> tokenMap :=
  buildMap (fun _ replaced => validNumber replaced).

(** [tempReplacements], lines 129-138. *)
Definition buildTempReplacements : group -> tokenMap :=
  buildMap (fun original replaced =>
              validNumber replaced && strict_neq (ofN original) (Number replaced)).

(** The two sets shared by all calls of [hasCycle] for one group. *)
Record dfs := Dfs { visited : gset number; stack : gset number }.

(** [hasCycle(start)], with the state of [visited] and [stack] after the
    call.  A call that answers [true] leaves the stack as it is. *)
Fixpoint hasCycle (fuel : nat) (m : tokenMap) (start : number) (st : dfs)
  : option (bool * dfs) :=
  match fuel with
  | O => None
  | S fuel' =>
      if bool_decide (start ∈ stack st) then Some (true, st)
      else if bool_decide (start ∈ visited st) then Some (false, st)
      else
        let st1 := Dfs (visited st ∪ {[start]}) (stack st ∪ {[start]}) in
        let leave (s : dfs) := Dfs (visited s) (stack s ∖ {[start]}) in
        match mapGet m start with
        | Some next =>
            if strict_neq next start then
              match hasCycle fuel' m next st1 with
              | None => None
              | Some (true, st2) => Some (true, st2)
              | Some (false, st2) => Some (false, leave st2)
              end
            else Some (false, leave st1)
        | None => Some (false, leave st1)
        end
  end.

(** The loop of lines 119-124 over [replacementMap.entries()]: whether it
    sets [hasCircular]. *)
Fixpoint detectLoop (fuel : nat) (m : tokenMap) (entries : tokenMap) (st : dfs)
  : option bool :=
  match entries with
  | [] => Some false
  | (original, replaced) :: rest =>
      if strict_neq (ofN original) replaced then
        match hasCycle fuel m (ofN original) st with
        | None => None
        | Some (true, _) => Some true
        | Some (false, st') => detectLoop fuel m rest st'
        end
      else detectLoop fuel m rest st
  end.

(** Cycle detection for one group, from fresh [visited] and [stack]. *)
Definition detectCircular (fuel : nat) (g : group) : option bool :=
  let m := buildReplacementMap g in
  detectLoop fuel m m (Dfs ∅ ∅).

(** The [while] loop of lines 150-153: it extends [chain] from [current].
    [tempReplacements.has(current)] holds when [current] is a token value
    [k] that is a key of the map; [chain] and [processed] therefore only
    ever hold token values.  [processed] is not touched inside the loop. *)
Fixpoint extendChain (fuel : nat) (temp : tokenMap) (processed : gset N)
    (chain : list N) (current : number) : option (list N) :=
  match fuel with
  | O => None
  | S fuel' =>
      match toKey current with
      | Some k =>
          match lookupKey k temp with
          | Some next =>
              if bool_decide (k ∈ processed) then Some chain
              else extendChain fuel' temp processed (chain ++ [k]) next
          | None => Some chain
          end
      | None => Some chain
      end
  end.

(** The loop of lines 144-159 over [tempReplacements.entries()]. *)
Fixpoint buildChains (fuel : nat) (temp : tokenMap) (entries : tokenMap)
    (processed : gset N) (chains : list (list N)) : option (list (list N)) :=
  match entries with
  | [] => Some chains
  | (original, replaced) :: rest =>
      if bool_decide (original ∈ processed) then
        buildChains fuel temp rest processed chains
      else
        match extendChain fuel temp processed [original] replaced with
        | None => None
        | Some chain =>
            buildChains fuel temp rest (processed ∪ list_to_set chain)
              (chains ++ [chain])
        end
  end.

(** The canonical string of a token value, as a property name, in
    [toString()] and in [JSON.stringify]: its decimal digits. *)
Definition tokenString (n : N) : string := pretty n.

(** [o[k] = v] on a [Record<number, V>] whose keys are token values: an
    existing property is overwritten in place, a new one takes its place in
    ascending order. *)
Fixpoint insertNumeric {V} (k : N) (v : V) (o : list (N * V)) : list (N * V) :=
  match o with
  | [] => [(k, v)]
  | (k', v') :: o' =>
      if (k <? k')%N then (k, v) :: o else (k', v') :: insertNumeric k v o'
  end.

Definition numSet {V} (k : N) (v : V) (o : list (N * V)) : list (N * V) :=
  if bool_decide (k ∈ o.*1) then
    (fun '(k', v') => if bool_decide (k' = k) then (k', v) else (k', v')) <$> o
  else insertNumeric k v o.

(** [chain.slice(0, -1)] *)
Definition allButLast {A} (l : list A) : list A := take (length l - 1) l.

(** Lines 162-170 for one chain. *)
Definition fixChain (g : group) (chain : list N) : group :=
  if bool_decide (1 < length chain)%nat then
    match last chain with
    | Some finalValue =>
        foldl (fun g' value => numSet value (tokenString finalValue) g')
          g (allButLast chain)
    | None => g
    end
  else g.

(** The body of the [forEach] over the groups (lines 88-172): from the value
    of [hasCircular] before it to the value after it and the group's object
    as the body leaves it. *)
Definition detectAndFixGroup (fuel : nat) (hasCircular : bool) (g : group)
  : option (bool * group) :=
  match detectCircular fuel g with
  | None => None
  | Some found =>
      let hasCircular := found || hasCircular in
      if hasCircular then
        let temp := buildTempReplacements g in
        match buildChains fuel temp temp ∅ [] with
        | None => None
        | Some chains => Some (hasCircular, foldl fixChain g chains)
        end
      else Some (hasCircular, g)
  end.

Fixpoint detectAndFixGroups (fuel : nat) (hasCircular : bool) (r : groups)
  : option (bool * groups) :=
  match r with
  | [] => Some (hasCircular, [])
  | (paramKey, g) :: r' =>
      match detectAndFixGroup fuel hasCircular g with
      | None => None
      | Some (hasCircular', g') =>
          match detectAndFixGroups fuel hasCircular' r' with
          | None => None
          | Some (b, fixed) => Some (b, (paramKey, g') :: fixed)
          end
      end
  end.

(** [detectAndFixCircularReplacements(replacements)]: the pair
    [{ hasCircular, fixedReplacements }], or [None] when the fuel does not
    suffice.  [fixedReplacements] is a shallow copy, so the objects of the
    groups are the caller's own: after the call [replacements] reads as
    [fixedReplacements] does. *)
Definition detectAndFixCircularReplacements (fuel : nat) (replacements : groups)
  : option (bool * groups) :=
  detectAndFixGroups fuel false replacements.

(** Specification of the cycle of the claim, read off the group: [x] is sent
    to [y] when the property [x] holds a valid number whose value is [y]; an
    edge also needs [x] and [y] to differ. *)
Definition sends (g : group) (x y : number) : Prop :=
  ∃ k s, (k, s) ∈ g ∧ x = ofN k ∧ validNumber s = true ∧ y = Number s.

Definition edge (g : group) (x y : number) : Prop := sends g x y ∧ x ≠ y.

(** A chain [a → b → ... → a]; as no edge joins a value to itself it runs
    over at least two values. *)
Definition cyclic (g : group) : Prop := ∃ a, tc (edge g) a a.

(** With distinct property names no [set] overwrites an entry, and the map
    lists the entries that are kept, in the order of the object. *)
Definition keptEntry (keep : N -> string -> bool) (e : N * string)
  : option (N * number) :=
  if keep e.1 e.2 then Some (e.1, Number e.2) else None.

(** The same graph on a map. *)
Definition edgeM (m : tokenMap) (x y : number) : Prop :=
  mapGet m x = Some y ∧ y ≠ x.

Definition cyclicM (m : tokenMap) : Prop := ∃ a, tc (edgeM m) a a.

Definition keySet (m : tokenMap) : gset number := list_to_set (ofN <$> m.*1).

(** One turn of the [while] loop of line 150 follows the map from a value;
    a value is doomed when the map leads from it to a value that lies on a
    closed chain. *)
Definition stepM (m : tokenMap) (x y : number) : Prop := mapGet m x = Some y.

Definition doomed (m : tokenMap) (x : number) : Prop :=
  ∃ c, rtc (stepM m) x c ∧ tc (stepM m) c c.

(** ** Strings: the two regular expressions and [replace] *)

(** [s = p ++ rest] *)
Fixpoint stripPrefix (p s : string) : option string :=
  match p, s with
  | EmptyString, _ => Some s
  | String a p', String b s' =>
      if bool_decide (a = b) then stripPrefix p' s' else None
  | String _ _, EmptyString => None
  end.

(** One attempt of [/\{(\d+)\}/] at the start of [s]: the digits between the
    braces and what follows the closing brace. *)
Definition matchToken (s : string) : option (string * string) :=
  match s with
  | String "{"%char s1 =>
      match span isDigit s1 with
      | (String d ds, String "}"%char rest) => Some (String d ds, rest)
      | _ => None
      end
  | _ => None
  end.

(** The successive matches of [/\{(\d+)\}/g]: the search resumes after each
    match, one character further when there is none. *)
Fixpoint matchTokensFrom (fuel : nat) (s : string) : list string :=
  match fuel, s with
  | S fuel', String c s' =>
      match matchToken s with
      | Some (ds, rest) => ("{" +:+ ds +:+ "}") :: matchTokensFrom fuel' rest
      | None => matchTokensFrom fuel' s'
      end
  | _, _ => []
  end.

(** [text.match(/\{(\d+)\}/g)]; the empty list stands for [null]. *)
Definition matchTokens (text : string) : list string :=
  matchTokensFrom (String.length text) text.

(** [match.replace(/[{}]/g, '')] *)
Fixpoint removeBraces (s : string) : string :=
  match s with
  | EmptyString => EmptyString
  | String c s' =>
      if bool_decide (c = "{"%char) || bool_decide (c = "}"%char)
      then removeBraces s' else String c (removeBraces s')
  end.

(** [parseInt(s)] on the strings it is given here, runs of decimal digits:
    the value of the leading digits, as an exact integer.  The engine
    returns the binary64 nearest to it, which is that integer for every run
    whose value is at most [2^53]; the properties of the extractor are
    stated for such runs. *)
Definition parseInt (s : string) : N :=
  default 0%N (digitsValue 10 0 (span isDigit s).1).

(** [text.replace(new RegExp(pat, 'g'), rep)] for a pattern [pat] that
    matches itself and nothing else, and a replacement without [$].  As for
    the other scanners, the fuel is the length of the text, which a scan
    cannot exhaust. *)
Fixpoint replaceAllFrom (fuel : nat) (pat rep s : string) : string :=
  match fuel, s with
  | S fuel', String c s' =>
      match stripPrefix pat s with
      | Some rest => rep +:+ replaceAllFrom fuel' pat rep rest
      | None => String c (replaceAllFrom fuel' pat rep s')
      end
  | _, _ => s
  end.

Definition replaceAll (pat rep text : string) : string :=
  replaceAllFrom (String.length text) pat rep text.

(** A text seen as the regular expression [/\{(\d+)\}/g] cuts it: tokens,
    and the characters between them. *)
Inductive piece : Type :=
  | Tok (digits : string)
  | Chr (c : ascii).

Fixpoint piecesFrom (fuel : nat) (s : string) : list piece :=
  match fuel, s with
  | S fuel', String c s' =>
      match matchToken s with
      | Some (ds, rest) => Tok ds :: piecesFrom fuel' rest
      | None => Chr c :: piecesFrom fuel' s'
      end
  | _, _ => []
  end.

Definition pieces (text : string) : list piece :=
  piecesFrom (String.length text) text.

(** A run of decimal digits. *)
Fixpoint allDigits (s : string) : bool :=
  match s with
  | EmptyString => true
  | String c s' => isDigit c && allDigits s'
  end.

(** The token [{ds}] occurs in the text. *)
Definition occursToken (text ds : string) : Prop :=
  ds ≠ "" ∧ allDigits ds = true ∧
  ∃ before after, text = before +:+ "{" +:+ ds +:+ "}" +:+ after.

(** The value of a run of digits. *)
Definition digitsToN (ds : string) : N := default 0%N (digitsValue 10 0 ds).

(** The token values of a text, in the order of the text. *)
Definition tokenValues (text : string) : list N :=
  omap (fun p => match p with Tok ds => Some (digitsToN ds) | Chr _ => None end)
       (pieces text).

(** The text of a piece. *)
Definition pieceText (p : piece) : string :=
  match p with
  | Tok ds => "{" +:+ ds +:+ "}"
  | Chr c => String c EmptyString
  end.

(** The text in which every token [{o}] stands replaced by [rep]: the other
    tokens and the characters between the tokens are kept. *)
Definition renderWith (o rep : string) (p : piece) : string :=
  match p with
  | Tok ds => if bool_decide (ds = o) then rep else pieceText p
  | Chr c => pieceText p
  end.

Fixpoint concatStrings (l : list string) : string :=
  match l with
  | [] => EmptyString
  | s :: l' => s +:+ concatStrings l'
  end.

Definition substituteToken (o rep text : string) : string :=
  concatStrings (renderWith o rep <$> pieces text).

(** The text starts with a closing brace. *)
Definition closes (s : string) : bool :=
  match s with
  | String "}"%char _ => true
  | _ => false
  end.

(** Renaming the tokens of a list of pieces. *)
Definition renameToken (o n : string) (p : piece) : piece :=
  match p with
  | Tok ds => if bool_decide (ds = o) then Tok n else p
  | Chr _ => p
  end.

(** ** Sorting *)

(** [Array.prototype.sort] with the comparator [(a, b) => key(a) - key(b)]:
    ascending and stable. *)
Fixpoint insertBy {A} (key : A -> N) (x : A) (l : list A) : list A :=
  match l with
  | [] => [x]
  | y :: l' => if (key x <=? key y)%N then x :: l else y :: insertBy key x l'
  end.

Definition sortBy {A} (key : A -> N) (l : list A) : list A :=
  foldr (insertBy key) [] l.

(** The order in which the comparator leaves its elements. *)
Definition keyLe {A} (key : A -> N) (x y : A) : Prop := (key x <= key y)%N.

(** [[...l].sort((a, b) => a - b)] *)
Definition sortNumbers : list N -> list N := sortBy id.

(** ** Records, cells and the token extractor *)

(** An element of a cell's array: [{ type: 'text', text }] with a string
    [text], or anything else. *)
Inductive segment : Type :=
  | TextSegment (text : string)
  | OtherSegment.

(** A cell value: an array of segments, or anything else ([null], a number,
    an object). *)
Inductive cellValue : Type :=
  | CellArray (items : list segment)
  | CellOther.

Record IField := { field_id : string }.

Record FieldMeta := { meta_id : string; meta_name : string }.

Record IRecord := { recordId : string; fields : gmap string cellValue }.

Record ParameterInfo := {
  fieldName : string;
  fieldId : string;
  parameters : list N;
  order : N
}.

(** [Array.isArray(v) && v.length > 0 && v[0].type === 'text' &&
    typeof v[0].text === 'string']: the text of the first segment. *)
Definition cellText (v : option cellValue) : option string :=
  match v with
  | Some (CellArray (TextSegment text :: _)) => Some text
  | _ => None
  end.

Definition MAX_SAFE_INTEGER : N := 9007199254740991.

(** [fieldMetaList.find(f => f.id === id)] with its index in the list. *)
Fixpoint findMeta (id : string) (metas : list FieldMeta) (i : N)
  : option (N * FieldMeta) :=
  match metas with
  | [] => None
  | f :: metas' =>
      if bool_decide (meta_id f = id) then Some (i, f)
      else findMeta id metas' (i + 1)%N
  end.

(** The numbers of a text, lines 527-531; [None] when there is no match. *)
Definition extractNumbers (text : string) : option (list N) :=
  match matchTokens text with
  | [] => None
  | matches => Some (sortNumbers ((fun m => parseInt (removeBraces m)) <$> matches))
  end.

(** The body of the loop over [fields], lines 522-544. *)
Definition extractField (record : IRecord) (metas : list FieldMeta)
    (field : IField) : option ParameterInfo :=
  match cellText (fields record !! field_id field) with
  | Some text =>
      match extractNumbers text with
      | Some numbers =>
          let fieldMeta := findMeta (field_id field) metas 0 in
          Some {| fieldName := match fieldMeta with
                               | Some (_, f) => meta_name f
                               | None => field_id field
                               end;
                  fieldId := field_id field;
                  parameters := numbers;
                  order := match fieldMeta with
                           | Some (i, _) => i
                           | None => MAX_SAFE_INTEGER
                           end |}
      | None => None
      end
  | None => None
  end.

Definition extractParametersFromRecord (record : IRecord)
    (fieldList : list IField) (metas : list FieldMeta) : list ParameterInfo :=
  sortBy order (omap (extractField record metas) fieldList).

(** ** The record comparator and the batch runner: [compareAllRecords] *)

Fixpoint joinStrings (sep : string) (l : list string) : string :=
  match l with
  | [] => EmptyString
  | [s] => s
  | s :: l' => s +:+ sep +:+ joinStrings sep l'
  end.

(** [JSON.stringify] of an array of token values. *)
Definition JSON_stringify (l : list N) : string :=
  "[" +:+ joinStrings "," (tokenString <$> l) +:+ "]".

(** The test of line 619 on the two sorted copies. *)
Definition differs (baseParams currentParams : list N) : bool :=
  negb (String.eqb (JSON_stringify (sortNumbers baseParams))
                   (JSON_stringify (sortNumbers currentParams))).

(** An entry of the local array [differences]. *)
Record Difference := {
  diff_fieldName : string;
  expected : list N;
  actual : list N
}.

(** [selectedFields.includes(id)] *)
Definition includes (selectedFields : list string) (id : string) : bool :=
  bool_decide (id ∈ selectedFields).

(** The loop of lines 607-626 for one field past the first. *)
Definition discrepancy (selectedFields : list string) (baseParams : list N)
    (p : ParameterInfo) : option Difference :=
  if includes selectedFields (fieldId p) && differs baseParams (parameters p)
  then Some {| diff_fieldName := fieldName p;
               expected := baseParams;
               actual := parameters p |}
  else None.

Definition findDifferences (selectedFields : list string)
    (params : list ParameterInfo) : list Difference :=
  match params with
  | [] => []
  | base :: others => omap (discrepancy selectedFields (parameters base)) others
  end.

(** The name shown for a record: the text of its index cell, or the
    template string built from its id. *)
Inductive recordName : Type :=
  | IndexText (text : string)
  | RecordNumber (recordId : string).

Record RecordComparison := {
  cmp_recordId : string;
  cmp_recordName : recordName;
  differences : list (string * list N)
}.

Inductive result (A : Type) : Type :=
  | Ok (a : A)
  | Throw (error : string).
Arguments Ok {A} a.
Arguments Throw {A} error.

(** The message of the [TypeError] raised by [indexFieldMeta.id] when the
    view has no field. *)
Definition typeErrorNoIndexField : string :=
  "Cannot read properties of undefined (reading 'id')".

(** Lines 632-641: the name of the record, read in the index column. *)
Definition recordNameOf (indexFieldMeta : FieldMeta) (record : IRecord) : recordName :=
  match cellText (fields record !! meta_id indexFieldMeta) with
  | Some (String c text) => IndexText (String c text)
  | _ => RecordNumber (recordId record)
  end.

(** Lines 644-649: the token lists of all the selected fields. *)
Definition allFieldParams (selectedFields : list string)
    (params : list ParameterInfo) : list (string * list N) :=
  (fun p => (fieldName p, parameters p)) <$>
  filter (fun p => includes selectedFields (fieldId p) = true) params.

(** The body of the loop over the records, lines 595-656: the entry pushed
    on [comparisons], if any. *)
Definition compareRecord (selectedFields : list string)
    (fieldList : list IField) (metas : list FieldMeta) (record : IRecord)
  : result (option RecordComparison) :=
  let params := extractParametersFromRecord record fieldList metas in
  if (length params <? 2)%nat then Ok None
  else
    let diffs := findDifferences selectedFields params in
    if (0 <? length diffs)%nat then
      match metas with
      | [] => Throw typeErrorNoIndexField
      | indexFieldMeta :: _ =>
          Ok (Some {| cmp_recordId := recordId record;
                      cmp_recordName := recordNameOf indexFieldMeta record;
                      differences := allFieldParams selectedFields params |})
      end
    else Ok None.

(** A record is inconsistent when some selected field past the first has
    tokens that are not those of the first field, up to their order. *)
Definition inconsistent (selectedFields : list string)
    (params : list ParameterInfo) : Prop :=
  ∃ base others p, params = base :: others ∧ p ∈ others ∧
    fieldId p ∈ selectedFields ∧ ¬ parameters p ≡ₚ parameters base.

(** What [setFloatingMessage] is given. *)
Inductive message : Type :=
  | MsgStart
  | MsgFetching (totalRecords : nat)
  | MsgFetched (total : nat)
  | MsgNoRecords
  | MsgProgress (processedRecords total : nat)
  | MsgDone (inconsistent : nat)
  | MsgError (error : string).

(** The loop of lines 589-657, with the messages it emits. *)
Fixpoint compareRecords (selectedFields : list string)
    (fieldList : list IField) (metas : list FieldMeta) (total : nat)
    (records : list IRecord) (processedRecords : nat)
    (comparisons : list RecordComparison) (log : list message)
  : result (list RecordComparison) * list message :=
  match records with
  | [] => (Ok comparisons, log)
  | record :: rest =>
      let processedRecords := S processedRecords in
      let log :=
        if (processedRecords mod 10 =? 0)%nat
        then log ++ [MsgProgress processedRecords total] else log in
      match compareRecord selectedFields fieldList metas record with
      | Throw e => (Throw e, log)
      | Ok None =>
          compareRecords selectedFields fieldList metas total rest
            processedRecords comparisons log
      | Ok (Some c) =>
          compareRecords selectedFields fieldList metas total rest
            processedRecords (comparisons ++ [c]) log
      end
  end.

(** The host: what each call of the SDK answers. *)
Record Page := { records : list IRecord; pageToken : option string }.

Record Host := {
  getActiveTable : result unit;
  getActiveView : result unit;
  getFieldList : result (list IField);
  getFieldMetaList : result (list FieldMeta);
  getRecords : option string -> result Page
}.

(** A page token is followed when it is a non-empty string. *)
Definition truthy (token : option string) : bool :=
  match token with
  | Some (String _ _) => true
  | _ => false
  end.

(** The [do ... while (pageToken)] loop of lines 565-576. *)
Fixpoint fetchRecords (fuel : nat) (host : Host) (token : option string)
    (allRecords : list IRecord) (log : list message)
  : option (result (list IRecord) * list message) :=
  match fuel with
  | O => None
  | S fuel' =>
      match getRecords host token with
      | Throw e => Some (Throw e, log)
      | Ok response =>
          let allRecords := allRecords ++ records response in
          let log := log ++ [MsgFetching (length allRecords)] in
          if truthy (pageToken response)
          then fetchRecords fuel' host (pageToken response) allRecords log
          else Some (Ok allRecords, log)
      end
  end.

(** The state of [App] that the runner reads and writes. *)
Record AppState := {
  comparisons : list RecordComparison;
  isComparing : bool;
  selectedFields : list string;
  floatingMessages : list message
}.

(** The [try] block of [compareAllRecords]: the array given to
    [setComparisons] ([None] for the early [return] on an empty table), or
    the exception, with the messages emitted on the way. *)
Definition compareAllRecordsBody (fuel : nat) (host : Host)
    (selected : list string) (log : list message)
  : option (result (option (list RecordComparison)) * list message) :=
  let log := log ++ [MsgStart] in
  match getActiveTable host with
  | Throw e => Some (Throw e, log)
  | Ok _ =>
  match getActiveView host with
  | Throw e => Some (Throw e, log)
  | Ok _ =>
  match getFieldList host with
  | Throw e => Some (Throw e, log)
  | Ok fieldList =>
  match getFieldMetaList host with
  | Throw e => Some (Throw e, log)
  | Ok metas =>
  match fetchRecords fuel host None [] log with
  | None => None
  | Some (Throw e, log) => Some (Throw e, log)
  | Some (Ok allRecords, log) =>
      let log := log ++ [MsgFetched (length allRecords)] in
      match allRecords with
      | [] => Some (Ok None, log ++ [MsgNoRecords])
      | _ =>
          match compareRecords selected fieldList metas (length allRecords)
                  allRecords 0 [] log with
          | (Throw e, log) => Some (Throw e, log)
          | (Ok found, log) => Some (Ok (Some found), log)
          end
      end
  end end end end end.

(** [compareAllRecords()]: the state of [App] once the promise settles. *)
Definition compareAllRecords (fuel : nat) (host : Host) (st : AppState)
  : option AppState :=
  match compareAllRecordsBody fuel host (selectedFields st) (floatingMessages st) with
  | None => None
  | Some (Ok (Some found), log) =>
      Some {| comparisons := found;
              isComparing := false;
              selectedFields := selectedFields st;
              floatingMessages := log ++ [MsgDone (length found)] |}
  | Some (Ok None, log) =>
      Some {| comparisons := comparisons st;
              isComparing := false;
              selectedFields := selectedFields st;
              floatingMessages := log |}
  | Some (Throw e, log) =>
      Some {| comparisons := comparisons st;
              isComparing := false;
              selectedFields := selectedFields st;
              floatingMessages := log ++ [MsgError e] |}
  end.

(** The first failure of a host call in a run: which call, and its error.
    The pages are fetched from the token that the previous page gave. *)
Inductive pagesFail (host : Host) : option string -> string -> Prop :=
  | page_fails token e :
      getRecords host token = Throw e -> pagesFail host token e
  | page_next token response e :
      getRecords host token = Ok response ->
      truthy (pageToken response) = true ->
      pagesFail host (pageToken response) e ->
      pagesFail host token e.

Inductive hostFails (host : Host) : string -> Prop :=
  | fails_table e : getActiveTable host = Throw e -> hostFails host e
  | fails_view u e :
      getActiveTable host = Ok u -> getActiveView host = Throw e ->
      hostFails host e
  | fails_fieldList u v e :
      getActiveTable host = Ok u -> getActiveView host = Ok v ->
      getFieldList host = Throw e -> hostFails host e
  | fails_metaList u v fl e :
      getActiveTable host = Ok u -> getActiveView host = Ok v ->
      getFieldList host = Ok fl -> getFieldMetaList host = Throw e ->
      hostFails host e
  | fails_records u v fl ml e :
      getActiveTable host = Ok u -> getActiveView host = Ok v ->
      getFieldList host = Ok fl -> getFieldMetaList host = Ok ml ->
      pagesFail host None e -> hostFails host e.

(** ** The edit dialog: validation, save and the apply step *)

(** A string that is the canonical form of an array index: such property
    names come first, in ascending order, when an object is enumerated. *)
Definition arrayIndex (s : string) : option N :=
  match digitsValue 10 0 s with
  | Some n =>
      if bool_decide (tokenString n = s) && (n <? 4294967295)%N then Some n
      else None
  | None => None
  end.

Fixpoint insertIndex {V} (n : N) (k : string) (v : V) (o : list (string * V))
  : list (string * V) :=
  match o with
  | [] => [(k, v)]
  | (k', v') :: o' =>
      match arrayIndex k' with
      | Some n' =>
          if (n <? n')%N then (k, v) :: o else (k', v') :: insertIndex n k v o'
      | None => (k, v) :: o
      end
  end.

(** [o[k] = v] on an object, as [Object.entries] will list it. *)
Definition propSet {V} (k : string) (v : V) (o : list (string * V))
  : list (string * V) :=
  if bool_decide (k ∈ o.*1) then
    (fun '(k', v') => if bool_decide (k' = k) then (k', v) else (k', v')) <$> o
  else
    match arrayIndex k with
    | Some n => insertIndex n k v o
    | None => o ++ [(k, v)]
    end.

(** What [setErrorMessage] is given. *)
Inductive notice : Type :=
  | NoNotice
  | CycleFixed
  | InvalidValue.

(** The state of [ParameterEditModal]. *)
Record ModalState := {
  modal_recordId : string;
  parameterGroups : list (string * list string);
  groupReplacements : groups;
  errorMessage : notice;
  autoFixed : bool
}.

(** The effect of lines 178-192, run once. *)
Definition validateReplacements (fuel : nat) (st : ModalState)
  : option ModalState :=
  match detectAndFixCircularReplacements fuel (groupReplacements st) with
  | None => None
  | Some (true, fixedReplacements) =>
      Some {| modal_recordId := modal_recordId st;
              parameterGroups := parameterGroups st;
              groupReplacements := fixedReplacements;
              errorMessage := CycleFixed;
              autoFixed := true |}
  | Some (false, _) =>
      Some {| modal_recordId := modal_recordId st;
              parameterGroups := parameterGroups st;
              groupReplacements := groupReplacements st;
              errorMessage := NoNotice;
              autoFixed := false |}
  end.

(** [newValue === '' || isNaN(Number(newValue))] *)
Definition invalidValue (newValue : string) : bool :=
  bool_decide (newValue = "") || isNaN (Number newValue).

(** The two nested loops of lines 210-220: [isValid] after them. *)
Definition allValid (r : groups) : bool :=
  forallb (fun '(_, paramReplacements) =>
             forallb (fun '(_, newValue) => negb (invalidValue newValue))
                     paramReplacements) r.

(** [Record<number, number>], in [Object.entries] order. *)
Definition numericGroup := list (N * number).

(** Lines 233-236. *)
Definition numericReplacements (g : group) : numericGroup :=
  foldl (fun o '(key, value) => numSet key (Number value) o) [] g.

Fixpoint lookupGroup (paramKey : string) (r : groups) : option group :=
  match r with
  | [] => None
  | (k, g) :: r' => if bool_decide (k = paramKey) then Some g else lookupGroup paramKey r'
  end.

(** Lines 230-239; [None] stands for the [TypeError] of
    [Object.entries(undefined)] when a group has no replacements. *)
Fixpoint fieldReplacementsOf (r : groups) (pg : list (string * list string))
    (acc : list (string * numericGroup)) : option (list (string * numericGroup)) :=
  match pg with
  | [] => Some acc
  | (paramKey, fieldNames) :: pg' =>
      match fieldNames, lookupGroup paramKey r with
      | [], _ => fieldReplacementsOf r pg' acc
      | _, None => None
      | _, Some g =>
          fieldReplacementsOf r pg'
            (foldl (fun a fieldName => propSet fieldName (numericReplacements g) a)
                   acc fieldNames)
      end
  end.

(** What a click on the save button does. *)
Inductive saveResult : Type :=
  | SaveRejected (errorMsg : notice)
  | SaveCall (recordId : string) (fieldReplacements : list (string * numericGroup))
  | SaveTypeError.

Definition handleSave (st : ModalState) : saveResult :=
  if allValid (groupReplacements st) then
    match fieldReplacementsOf (groupReplacements st) (parameterGroups st) [] with
    | Some fieldReplacements => SaveCall (modal_recordId st) fieldReplacements
    | None => SaveTypeError
    end
  else SaveRejected InvalidValue.

(** The loop of lines 833-839 on the text of one cell. *)
Definition applyReplacements (paramReplacements : numericGroup) (text : string)
  : string :=
  foldl (fun newText '(originalParam, newParam) =>
           if strict_neq (ofN originalParam) newParam then
             replaceAll ("{" +:+ tokenString originalParam +:+ "}")
                        ("{" +:+ toString newParam +:+ "}") newText
           else newText) text paramReplacements.

(** The table behind the host, for the write path. *)
Record Table := {
  tableFields : list IField;
  tableMetas : list FieldMeta;
  tableRecords : list IRecord
}.

Definition tableHost (t : Table) : Host :=
  {| getActiveTable := Ok tt;
     getActiveView := Ok tt;
     getFieldList := Ok (tableFields t);
     getFieldMetaList := Ok (tableMetas t);
     getRecords := fun _ => Ok {| records := tableRecords t; pageToken := None |} |}.

Definition recordNotFound : string := "record not found".

Fixpoint getRecordById (rs : list IRecord) (id : string) : result IRecord :=
  match rs with
  | [] => Throw recordNotFound
  | r :: rs' => if bool_decide (recordId r = id) then Ok r else getRecordById rs' id
  end.

Fixpoint findMetaByName (name : string) (metas : list FieldMeta) : option FieldMeta :=
  match metas with
  | [] => None
  | f :: metas' =>
      if bool_decide (meta_name f = name) then Some f else findMetaByName name metas'
  end.

(** The body of the loop of lines 819-845. *)
Definition updateField (metas : list FieldMeta) (record : IRecord)
    (fieldsToUpdate : list (string * cellValue))
    (entry : string * numericGroup) : list (string * cellValue) :=
  match findMetaByName entry.1 metas with
  | None => fieldsToUpdate
  | Some fieldMeta =>
      match cellText (fields record !! meta_id fieldMeta) with
      | Some text =>
          propSet (meta_id fieldMeta)
                  (CellArray [TextSegment (applyReplacements entry.2 text)])
                  fieldsToUpdate
      | None => fieldsToUpdate
      end
  end.

Definition fieldsToUpdateOf (metas : list FieldMeta) (record : IRecord)
    (replacements : list (string * numericGroup)) : list (string * cellValue) :=
  foldl (updateField metas record) [] replacements.

(** [table.setRecord(recordId, { fields })] *)
Definition setRecord (t : Table) (id : string)
    (fieldsToUpdate : list (string * cellValue)) : Table :=
  {| tableFields := tableFields t;
     tableMetas := tableMetas t;
     tableRecords :=
       (fun r =>
          if bool_decide (recordId r = id) then
            {| recordId := recordId r;
               fields := foldl (fun f '(k, v) => <[k := v]> f) (fields r) fieldsToUpdate |}
          else r) <$> tableRecords t |}.

Inductive toast : Type :=
  | ToastReplaced
  | ToastReplaceFailed (error : string).

(** [replaceParameters(recordId, replacements)] on a host that answers from
    the table [t]: the table, the state of [App] and the toast after it. *)
Definition replaceParameters (fuel : nat) (t : Table) (st : AppState)
    (id : string) (replacements : list (string * numericGroup))
  : option (Table * AppState * option toast) :=
  match getRecordById (tableRecords t) id with
  | Throw e => Some (t, st, Some (ToastReplaceFailed e))
  | Ok record =>
      match fieldsToUpdateOf (tableMetas t) record replacements with
      | [] => Some (t, st, None)
      | fieldsToUpdate =>
          let t' := setRecord t id fieldsToUpdate in
          match compareAllRecords fuel (tableHost t') st with
          | None => None
          | Some st' => Some (t', st', Some ToastReplaced)
          end
      end
  end.

(** A click on the save button of the dialog, down to the table. *)
Definition saveClick (fuel : nat) (t : Table) (app : AppState) (st : ModalState)
  : option (Table * AppState * ModalState) :=
  match handleSave st with
  | SaveRejected errorMsg =>
      Some (t, app, {| modal_recordId := modal_recordId st;
                       parameterGroups := parameterGroups st;
                       groupReplacements := groupReplacements st;
                       errorMessage := errorMsg;
                       autoFixed := autoFixed st |})
  | SaveCall id fieldReplacements =>
      match replaceParameters fuel t app id fieldReplacements with
      | None => None
      | Some (t', app', _) => Some (t', app', st)
      end
  | SaveTypeError => Some (t, app, st)
  end.

(** ** A small table for the examples *)

Definition exampleMetas : list FieldMeta :=
  [ {| meta_id := "f0"; meta_name := "Index" |};
    {| meta_id := "fA"; meta_name := "A" |};
    {| meta_id := "fB"; meta_name := "B" |} ].

Definition exampleFields : list IField :=
  [ {| field_id := "fB" |}; {| field_id := "fA" |}; {| field_id := "f0" |} ].

Definition exampleRecord (id index a b : string) : IRecord :=
  {| recordId := id;
     fields := {[ "f0" := CellArray [TextSegment index];
                  "fA" := CellArray [TextSegment a];
                  "fB" := CellArray [TextSegment b] ]} |}.

Definition exampleTable : Table :=
  {| tableFields := exampleFields;
     tableMetas := exampleMetas;
     tableRecords := [ exampleRecord "r1" "row 1" "{1}{2}" "{1}{3}" ] |}.

Definition exampleApp : AppState :=
  {| comparisons := [];
     isComparing := false;
     selectedFields := ["fA"; "fB"];
     floatingMessages := [] |}.

(** The dialog opened on record [r1], after a space was typed in the box of
    token 3. *)
Definition blankModal : ModalState :=
  {| modal_recordId := "r1";
     parameterGroups := [("1,2", ["A"]); ("1,3", ["B"])];
     groupReplacements :=
       [("1,2", [(1%N, "1"); (2%N, "2")]); ("1,3", [(1%N, "1"); (3%N, " ")])];
     errorMessage := NoNotice;
     autoFixed := false |}.

(** The mapping [{1: 2, 2: 1}] of one group. *)
Definition twoCycle : groups := [("1,2", [(1%N, "2"); (2%N, "1")])].

(** A host whose second page of records fails. *)
Definition failingHost : Host :=
  {| getActiveTable := Ok tt;
     getActiveView := Ok tt;
     getFieldList := Ok exampleFields;
     getFieldMetaList := Ok exampleMetas;
     getRecords := fun token =>
       match token with
       | None => Ok {| records := [ exampleRecord "r1" "row 1" "{1}{2}" "{1}{3}" ];
                       pageToken := Some "page2" |}
       | Some _ => Throw "rate limit"
       end |}.

(** ** Token values that a number holds exactly *)

(** Every token of the text has a value of at most [2^53 - 1]: for these,
    [parseInt], [Number], [toString] and [JSON.stringify] are exact, and the
    embedding computes what the engine computes. *)
Definition safeText (text : string) : Prop :=
  ∀ ds, occursToken text ds → (digitsToN ds ≤ MAX_SAFE_INTEGER)%N.

(** ** The fields of a record that bear tokens, and the order of the view *)

(** The cell of the field [id] is an array whose first element is a text
    segment with the text [text]. *)
Definition textCell (record : IRecord) (id text : string) : Prop :=
  ∃ rest, fields record !! id = Some (CellArray (TextSegment text :: rest)).

(** The field bears tokens: its cell is a text cell in which a token occurs. *)
Definition bearsTokens (record : IRecord) (field : IField) (text : string) : Prop :=
  textCell record (field_id field) text ∧ ∃ ds, occursToken text ds.

(** The place of a field in the view: the first entry of the view's list
    with the id of the field, and its position. *)
Definition viewPlace (metas : list FieldMeta) (id : string) : option (nat * FieldMeta) :=
  list_find (fun meta => meta_id meta = id) metas.

(** The rank of a field: its position in the view; a field that the view
    does not list comes after all those it lists. *)
Definition viewOrder (metas : list FieldMeta) (id : string) : N :=
  match viewPlace metas id with
  | Some (i, _) => N.of_nat i
  | None => MAX_SAFE_INTEGER
  end.

(** The name under which a field is reported: the name the view gives it,
    its id when the view does not list it. *)
Definition viewName (metas : list FieldMeta) (id : string) : string :=
  match viewPlace metas id with
  | Some (_, meta) => meta_name meta
  | None => id
  end.

(** The baseline of a record: among the fields that bear tokens, the one of
    least rank in the view, the first of them in the field list when several
    have that rank.  [before] and [after] are the fields listed before and
    after it. *)
Definition baseline (metas : list FieldMeta) (record : IRecord)
    (fieldList before : list IField) (base : IField) (after : list IField)
    (text : string) : Prop :=
  fieldList = before ++ base :: after ∧
  bearsTokens record base text ∧
  (∀ g t, g ∈ before → bearsTokens record g t →
     (viewOrder metas (field_id base) < viewOrder metas (field_id g))%N) ∧
  (∀ g t, g ∈ after → bearsTokens record g t →
     (viewOrder metas (field_id base) ≤ viewOrder metas (field_id g))%N).

(** The record is inconsistent: a selected field other than the baseline
    bears tokens that are not those of the baseline, up to their order. *)
Definition inconsistentRecord (selectedFields : list string)
    (fieldList : list IField) (metas : list FieldMeta) (record : IRecord) : Prop :=
  ∃ before base after baseText field text,
    baseline metas record fieldList before base after baseText ∧
    field ∈ before ++ after ∧
    bearsTokens record field text ∧
    field_id field ∈ selectedFields ∧
    ¬ tokenValues text ≡ₚ tokenValues baseText.

(** The entry [c] is the entry of [record]: it lists, under the name of the
    field, the tokens in ascending order of every selected field of the
    record that bears tokens, and nothing else. *)
Definition entryOf (selectedFields : list string) (fieldList : list IField)
    (metas : list FieldMeta) (record : IRecord) (c : RecordComparison) : Prop :=
  cmp_recordId c = recordId record ∧
  ∀ name numbers, (name, numbers) ∈ differences c ↔
    ∃ field text, field ∈ fieldList ∧ bearsTokens record field text ∧
      field_id field ∈ selectedFields ∧
      name = viewName metas (field_id field) ∧
      Sorted N.le numbers ∧ numbers ≡ₚ tokenValues text.

(** ** Renaming the tokens of a text *)

(** A [Record<number, number>] whose values are token values, as a list of
    pairs in the order of [Object.entries]. *)
Definition tokenMapping (m : list (N * N)) : numericGroup :=
  (fun e : N * N => (e.1, ofN e.2)) <$> m.

(** The keys and the new values are at most [2^53 - 1]. *)
Definition safeMapping (m : list (N * N)) : Prop :=
  Forall (fun e : N * N =>
            (e.1 ≤ MAX_SAFE_INTEGER)%N ∧ (e.2 ≤ MAX_SAFE_INTEGER)%N) m.

(** The entries one after the other: what becomes of a piece of the text
    when each entry that changes its token renames it in turn. *)
Definition renameSeq (m : list (N * N)) (p : piece) : piece :=
  foldl (fun q (e : N * N) =>
           if bool_decide (e.1 ≠ e.2)
           then renameToken (tokenString e.1) (tokenString e.2) q else q) p m.

(** The entries all at once: a token takes the new value of the first entry
    that changes it, every other piece stays. *)
Fixpoint newName (m : list (N * N)) (ds : string) : string :=
  match m with
  | [] => ds
  | (o, n) :: m' =>
      if bool_decide (o ≠ n) && bool_decide (ds = tokenString o)
      then tokenString n else newName m' ds
  end.

Definition renameAll (m : list (N * N)) (p : piece) : piece :=
  match p with
  | Tok ds => Tok (newName m ds)
  | Chr _ => p
  end.

(** The mapping is resolved: no new value of an entry that changes its
    token is the key of an entry that changes its token and comes later. *)
Fixpoint noChain (m : list (N * N)) : Prop :=
  match m with
  | [] => True
  | (o, n) :: m' =>
      (o ≠ n → ∀ o' n', (o', n') ∈ m' → o' ≠ n' → n ≠ o') ∧ noChain m'
  end.

(** ** The dialog: grouping of the fields and typing of a replacement *)

(** [s.split(',')] *)
Fixpoint splitComma (s : string) : list string :=
  match s with
  | EmptyString => [EmptyString]
  | String c s' =>
      if bool_decide (c = ","%char) then EmptyString :: splitComma s'
      else match splitComma s' with
           | h :: t => String c h :: t
           | [] => [String c EmptyString]
           end
  end.

(** [diff.parameters.sort((a, b) => a - b).join(',')], line 59. *)
Definition paramKeyOf (parameters : list N) : string :=
  joinStrings "," (tokenString <$> sortNumbers parameters).

(** Lines 61-65: [groups[paramKey].push(diff.fieldName)], on a group that is
    created empty when the key is new. *)
(** [o[k]] on an object; [None] stands for [undefined]. *)
Fixpoint lookupProp {V} (k : string) (o : list (string * V)) : option V :=
  match o with
  | [] => None
  | (k', v) :: o' => if bool_decide (k' = k) then Some v else lookupProp k o'
  end.

Definition pushField (gs : list (string * list string))
    (diff : string * list N) : list (string * list string) :=
  let paramKey := paramKeyOf diff.2 in
  propSet paramKey (default [] (lookupProp paramKey gs) ++ [diff.1]) gs.

(** Lines 55-66: the fields of the record, grouped by their sorted tokens. *)
Definition groupFields (record : RecordComparison) : list (string * list string) :=
  foldl pushField [] (differences record).

(** Lines 73-77: the object of one group.  Every [param] is [Number] of a
    piece of the key.  The keys of [groups] are built by line 59 from token
    values, so every [param] is a token value [k]: it names the property
    [k], whose value is [param.toString()]. *)
Definition initialGroup (paramKey : string) : group :=
  foldl (fun o param =>
           match toKey param with
           | Some k => numSet k (toString param) o
           | None => o
           end) [] (Number <$> splitComma paramKey).

(** Lines 71-78. *)
Definition initialReplacements (gs : list (string * list string)) : groups :=
  foldl (fun r e => propSet e.1 (initialGroup e.1) r) [] gs.

(** The effect of lines 53-80 on a dialog opened for [record]. *)
Definition openModal (record : RecordComparison) : ModalState :=
  let gs := groupFields record in
  {| modal_recordId := cmp_recordId record;
     parameterGroups := gs;
     groupReplacements := initialReplacements gs;
     errorMessage := NoNotice;
     autoFixed := false |}.

(** [handleReplacementChange(paramKey, originalParam, newValue)], lines
    194-202, on [groupReplacements]. *)
Definition handleReplacementChange (paramKey : string) (originalParam : N)
    (newValue : string) (groupReplacements : groups) : groups :=
  propSet paramKey
          (numSet originalParam newValue
                  (default [] (lookupGroup paramKey groupReplacements)))
          groupReplacements.

(** [hasConsistentParameterCount(record)], lines 798-803 (and 246-251). *)
Definition hasConsistentParameterCount (record : RecordComparison) : bool :=
  if (length (differences record) <=? 1)%nat then true
  else
    match differences record with
    | [] => true
    | first :: _ =>
        forallb (fun diff : string * list N =>
                   (length diff.2 =? length first.2)%nat)
                (differences record)
    end.

(** ** The selection of the fields to compare *)

Record FieldOption := {
  option_id : string;
  option_name : string;
  option_selected : bool
}.

(** The two pieces of state that the selection handlers keep in step. *)
Record Selection := {
  fieldOptions : list FieldOption;
  sel_selectedFields : list string
}.

Definition setSelected (b : bool) (opt : FieldOption) : FieldOption :=
  {| option_id := option_id opt;
     option_name := option_name opt;
     option_selected := b |}.

(** [handleFieldSelectionChange(fieldId)], lines 723-737. *)
Definition handleFieldSelectionChange (fieldId : string) (s : Selection) : Selection :=
  {| fieldOptions :=
       (fun opt => if bool_decide (option_id opt = fieldId)
                   then setSelected (negb (option_selected opt)) opt
                   else opt) <$> fieldOptions s;
     sel_selectedFields :=
       if includes (sel_selectedFields s) fieldId
       then filter (fun id => id ≠ fieldId) (sel_selectedFields s)
       else sel_selectedFields s ++ [fieldId] |}.

(** [selectAllFields()], lines 743-747. *)
Definition selectAllFields (s : Selection) : Selection :=
  {| fieldOptions := setSelected true <$> fieldOptions s;
     sel_selectedFields := option_id <$> fieldOptions s |}.

(** [deselectAllFields()], lines 749-752. *)
Definition deselectAllFields (s : Selection) : Selection :=
  {| fieldOptions := setSelected false <$> fieldOptions s;
     sel_selectedFields := [] |}.

(** [initializeFieldOptions()], lines 755-779: the index column (the first
    field of the view) and the hidden fields are left out, the others are
    all selected; a failure of the host is logged and changes nothing. *)
Definition initializeFieldOptions (host : Host)
    (getVisibleFieldIdList : result (list string)) (s : Selection) : Selection :=
  match getActiveTable host, getActiveView host,
        getFieldMetaList host, getVisibleFieldIdList with
  | Ok _, Ok _, Ok fieldMetaList, Ok visibleFields =>
      let options :=
        (fun meta => {| option_id := meta_id meta;
                        option_name := meta_name meta;
                        option_selected := true |}) <$>
        filter (fun meta => includes visibleFields (meta_id meta) = true)
               (drop 1 fieldMetaList) in
      {| fieldOptions := options; sel_selectedFields := option_id <$> options |}
  | _, _, _, _ => s
  end.

(** The options and the selection agree: a field is selected exactly when
    its option is ticked, and only fields with an option are selected. *)
Definition selectionConsistent (s : Selection) : Prop :=
  (∀ opt, opt ∈ fieldOptions s →
     (option_selected opt = true ↔ option_id opt ∈ sel_selectedFields s)) ∧
  (∀ id, id ∈ sel_selectedFields s → ∃ opt, opt ∈ fieldOptions s ∧ option_id opt = id).

(** ** The pages of a fetch *)

(** The pages that the host hands out from a token on, up to the first page
    without a token to follow. *)
Inductive pagesChain (host : Host) : option string -> list (list IRecord) -> Prop :=
  | chain_last token page :
      getRecords host token = Ok page ->
      truthy (pageToken page) = false ->
      pagesChain host token [records page]
  | chain_next token page rest :
      getRecords host token = Ok page ->
      truthy (pageToken page) = true ->
      pagesChain host (pageToken page) rest ->
      pagesChain host token (records page :: rest).

(** The dialog with the message and the auto-fix flag cleared. *)
Definition settled (st : ModalState) : ModalState :=
  {| modal_recordId := modal_recordId st;
     parameterGroups := parameterGroups st;
     groupReplacements := groupReplacements st;
     errorMessage := NoNotice;
     autoFixed := false |}.

(** The write on a property that exists: the entry keeps its place. *)
Definition overwrite {K V} `{EqDecision K} (k : K) (v : V) (o : list (K * V))
  : list (K * V) :=
  (fun '(k', v') => if bool_decide (k' = k) then (k', v) else (k', v')) <$> o.

(** What the extractor records for a field that bears tokens. *)
Definition fieldInfo (metas : list FieldMeta) (field : IField) (text : string)
  : ParameterInfo :=
  {| fieldName := viewName metas (field_id field);
     fieldId := field_id field;
     parameters := sortNumbers (tokenValues text);
     order := viewOrder metas (field_id field) |}.

(** A host whose pages never end: every page names a next one. *)
Definition endlessHost : Host :=
  {| getActiveTable := Ok tt;
     getActiveView := Ok tt;
     getFieldList := Ok exampleFields;
     getFieldMetaList := Ok exampleMetas;
     getRecords := fun _ =>
       Ok {| records := [ exampleRecord "r1" "row 1" "{1}{2}" "{1}{3}" ];
             pageToken := Some "next" |} |}.

(** The table of the examples, without its records. *)
Definition emptyTable : Table :=
  {| tableFields := exampleFields; tableMetas := exampleMetas; tableRecords := [] |}.

(** A selection with one field ticked and one not. *)
Definition exampleSelection : Selection :=
  {| fieldOptions :=
       [ {| option_id := "fA"; option_name := "A"; option_selected := true |};
         {| option_id := "fB"; option_name := "B"; option_selected := false |} ];
     sel_selectedFields := ["fA"] |}.

(** The names that the grouping of lines 57-66 lists under a key: those of
    the entries whose sorted tokens make that key, in the order of the
    entries. *)
Definition namesUnder (paramKey : string) (diffs : list (string * list N))
  : list string :=
  (fun d : string * list N => d.1) <$>
  filter (fun d : string * list N => paramKeyOf d.2 = paramKey) diffs.

(** A reported record of the examples. *)
Definition exampleComparison : RecordComparison :=
  {| cmp_recordId := "r1";
     cmp_recordName := IndexText "row 1";
     differences := [("A", [1; 2]%N); ("B", [1; 3]%N); ("C", [2; 1]%N)] |}.
Example Number_examples :
  Number "" = Int 0 /\ Number " " = Int 0 /\ Number "abc" = NaN /\
  Number "12" = Int 12 /\ Number " 7 " = Int 7 /\ Number "1.5" = Frac 15 1 /\
  Number "2.50" = Frac 25 1 /\ Number "-3" = Int (-3) /\ Number "1e3" = Int 1000 /\
  Number "0x1F" = Int 31 /\ Number "Infinity" = Infinity false /\
  Number "1.0" = Int 1 /\ Number "." = NaN /\ Number "1e" = NaN /\
  Number ".5" = Frac 5 1 /\ Number "5." = Int 5 /\ Number "1 2" = NaN /\
  Number "+-1" = NaN /\ Number "0x" = NaN /\ Number "12e-1" = Frac 12 1 /\
  Number "120e-1" = Int 12 /\ Number "-0x10" = NaN /\ Number "00012" = Int 12.
Proof. vm_compute. repeat split. Qed.

Example toString_examples :
  toString (Int 0) = "0" /\ toString (Int 12) = "12" /\ toString (Int (-3)) = "-3" /\
  toString (Frac 15 1) = "1.5" /\ toString (Frac (-5) 3) = "-0.005" /\
  toString (Int (10 ^ 21)) = "1e+21" /\ toString (Int (12 * 10 ^ 21)) = "1.2e+22" /\
  toString (Frac 1 7) = "1e-7" /\ toString (Frac 15 8) = "1.5e-7" /\
  toString (Int 100) = "100" /\ toString (Frac 12345 2) = "123.45" /\
  toString NaN = "NaN" /\ toString (Infinity true) = "-Infinity".
Proof. vm_compute. repeat split. Qed.

Example detect_no_cycle :
  detectAndFixCircularReplacements 10 [("1,2", [(1%N, "2"); (2%N, "2")])]
  = Some (false, [("1,2", [(1%N, "2"); (2%N, "2")])]).
Proof. vm_compute. reflexivity. Qed.

Example detect_two_cycle :
  detectCircular 10 [(1%N, "2"); (2%N, "1")] = Some true.
Proof. vm_compute. reflexivity. Qed.

Example fix_two_cycle_out_of_fuel :
  detectAndFixCircularReplacements 500 [("1,2", [(1%N, "2"); (2%N, "1")])] = None.
Proof. vm_compute. reflexivity. Qed.

Example fix_after_flag :
  detectAndFixGroup 10 true [(1%N, "2"); (2%N, "3"); (3%N, "4"); (4%N, "4")]
  = Some (true, [(1%N, "3"); (2%N, "3"); (3%N, "4"); (4%N, "4")]).
Proof. vm_compute. reflexivity. Qed.

(** ** Cycle detection is exact *)

Section detection.

Lemma toKey_Some x k : toKey x = Some k ↔ x = ofN k.
Proof.
  unfold toKey, ofN. destruct x as [| |z|]; try (split; [done|intros [=]]).
  destruct (Z.leb_spec 0 z); split.
  - intros [= <-]. f_equal. lia.
  - intros [= ->]. f_equal. lia.
  - done.
  - intros [= ->]. lia.
Qed.

Lemma toKey_ofN k : toKey (ofN k) = Some k.
Proof. by apply toKey_Some. Qed.

Lemma mapGet_Some m x y :
  mapGet m x = Some y ↔ ∃ k, x = ofN k ∧ lookupKey k m = Some y.
Proof.
  unfold mapGet. split.
  - destruct (toKey x) as [k|] eqn:E; [|done].
    apply toKey_Some in E. eauto.
  - intros (k & -> & H). by rewrite toKey_ofN.
Qed.

Lemma strict_neq_ofN_l k y : strict_neq (ofN k) y = true ↔ ofN k ≠ y.
Proof.
  unfold strict_neq, ofN. destruct y; try (rewrite bool_decide_eq_true; tauto).
  split; done.
Qed.

Lemma strict_neq_ofN_r k y : strict_neq y (ofN k) = true ↔ y ≠ ofN k.
Proof.
  unfold strict_neq, ofN. destruct y; try (rewrite bool_decide_eq_true; tauto).
  split; done.
Qed.

Lemma edgeM_functional m x y z : edgeM m x y → edgeM m x z → y = z.
Proof. intros [H1 _] [H2 _]. congruence. Qed.

Lemma sn_no_cycle m x : sn (edgeM m) x → ¬ tc (edgeM m) x x.
Proof.
  induction 1 as [x _ IH]. intros Hc.
  inversion Hc as [? ? H|? y ? H Hy]; subst.
  - by destruct H.
  - apply (IH y H). eapply tc_r; [exact Hy|exact H].
Qed.

Lemma hasCycle_spec m fuel : ∀ start st b st',
  (∀ x, x ∈ stack st → tc (edgeM m) x start) →
  (∀ x, x ∈ visited st → x ∉ stack st → sn (edgeM m) x) →
  hasCycle fuel m start st = Some (b, st') →
  if b then ∃ a, tc (edgeM m) a a
  else stack st' = stack st ∧ start ∈ visited st' ∧ (start ∉ stack st) ∧
       visited st ⊆ visited st' ∧
       (∀ x, x ∈ visited st' → x ∉ stack st' → sn (edgeM m) x).
Proof.
  induction fuel as [|fuel IH]; intros start st b st' Hpath Hdone; [done|].
  simpl. case_bool_decide as Hstack.
  { intros [= <- <-]. exists start. by apply Hpath. }
  case_bool_decide as Hvis.
  { intros [= <- <-]. auto. }
  assert (Hleave : (stack st ∪ {[start]}) ∖ {[start]} = stack st) by set_solver.
  assert (Hnone : (∀ y, ¬ edgeM m start y) → ∀ x,
             x ∈ visited st ∪ {[start]} → x ∉ stack st → sn (edgeM m) x).
  { intros Hno x Hx Hns. apply elem_of_union in Hx as [Hx|Hx]; [by apply Hdone|].
    apply elem_of_singleton in Hx as ->.
    constructor. intros y Hy. by destruct (Hno y). }
  assert (Hpath' : ∀ next, edgeM m start next →
             ∀ x, x ∈ stack st ∪ {[start]} → tc (edgeM m) x next).
  { intros next Hedge x Hx. apply elem_of_union in Hx as [Hx|Hx].
    - eapply tc_r; [by apply Hpath|done].
    - apply elem_of_singleton in Hx as ->. by apply tc_once. }
  assert (Hdone' : ∀ x, x ∈ visited st ∪ {[start]} → x ∉ stack st ∪ {[start]} →
             sn (edgeM m) x).
  { intros x Hx Hns. apply Hdone; set_solver. }
  destruct (mapGet m start) as [next|] eqn:Hget; cycle 1.
  { intros [= <- <-]. simpl. rewrite Hleave. split_and!; [done|set_solver|done|set_solver|].
    apply Hnone. intros y [Hy _]. congruence. }
  destruct (strict_neq next start) eqn:Hneq; cycle 1.
  { intros [= <- <-]. simpl. rewrite Hleave. split_and!; [done|set_solver|done|set_solver|].
    apply Hnone. intros y [Hy Hne]. rewrite Hget in Hy. injection Hy as ->.
    apply mapGet_Some in Hget as (k & -> & _).
    apply strict_neq_ofN_r in Hne. congruence. }
  assert (Hedge : edgeM m start next).
  { split; [done|]. apply mapGet_Some in Hget as (k & -> & _).
    by apply strict_neq_ofN_r. }
  destruct (hasCycle fuel m next _) as [[[] st2]|] eqn:Hrec; [| |done].
  - intros [= <- <-]. by eapply (IH _ _ true) in Hrec; [|apply Hpath'|apply Hdone'].
  - intros [= <- <-].
    eapply (IH _ _ false) in Hrec; [|by apply Hpath'|apply Hdone'].
    simpl in Hrec. destruct Hrec as (Hst & Hin & Hnotin & Hsub & Hsn). simpl.
    rewrite Hst, Hleave. split_and!; [done|set_solver|done|set_solver|].
    intros x Hx Hns. destruct (decide (x = start)) as [->|Hne].
    + constructor. intros y Hy.
      rewrite <-(edgeM_functional _ _ _ _ Hedge Hy).
      apply Hsn; [done|]. by rewrite Hst.
    + apply Hsn; [done|]. rewrite Hst. set_solver.
Qed.


Lemma lookupKey_elem_of k y m : lookupKey k m = Some y → (k, y) ∈ m.
Proof.
  induction m as [|[k' v] m IH]; simpl; [done|].
  case_bool_decide as E.
  - intros [= ->]. subst. left.
  - intros H. right. auto.
Qed.

Lemma lookupKey_None k m : lookupKey k m = None ↔ k ∉ m.*1.
Proof.
  induction m as [|[k' v] m IH]; simpl.
  - split; [intros _; apply not_elem_of_nil|done].
  - rewrite not_elem_of_cons. case_bool_decide; [|naive_solver].
    split; [done|]. intros []. congruence.
Qed.

Lemma elem_of_lookupKey k y m : NoDup m.*1 → (k, y) ∈ m → lookupKey k m = Some y.
Proof.
  induction m as [|[k' v] m IH]; simpl; intros Hnd Hin.
  - by apply elem_of_nil in Hin.
  - apply NoDup_cons in Hnd as [Hk' Hnd].
    apply elem_of_cons in Hin as [[= <- <-]|Hin].
    + by rewrite bool_decide_eq_true_2.
    + rewrite bool_decide_eq_false_2; [auto|].
      intros ->. apply Hk'. apply list_elem_of_fmap. by exists (k, y).
Qed.

Lemma mapGet_keySet m x y : mapGet m x = Some y → x ∈ keySet m.
Proof.
  intros (k & -> & H)%mapGet_Some. apply lookupKey_elem_of in H.
  apply elem_of_list_to_set, list_elem_of_fmap_2, list_elem_of_fmap.
  by exists (k, y).
Qed.

Lemma size_list_to_set_le (l : list number) :
  (size (list_to_set (C:=gset number) l) ≤ length l)%nat.
Proof.
  induction l as [|x l IH].
  - by rewrite list_to_set_nil, size_empty.
  - rewrite list_to_set_cons, size_union_alt, size_singleton. simpl.
    assert (Hsub : list_to_set l ∖ {[x]} ⊆ list_to_set (C:=gset number) l)
      by set_solver.
    apply subseteq_size in Hsub. lia.
Qed.

Lemma size_keySet m : (size (keySet m) ≤ length m)%nat.
Proof.
  unfold keySet. etrans; [apply size_list_to_set_le|].
  by rewrite !length_fmap.
Qed.

(** The recursion of [hasCycle] is at most as deep as there are keys that
    were not visited yet. *)
Lemma hasCycle_terminates m fuel : ∀ start st,
  (size (keySet m ∖ visited st) < fuel)%nat →
  is_Some (hasCycle fuel m start st).
Proof.
  induction fuel as [|fuel IH]; intros start st Hfuel; [lia|].
  simpl. case_bool_decide; [done|]. case_bool_decide as Hvis; [done|].
  destruct (mapGet m start) as [next|] eqn:Hget; [|done].
  destruct (strict_neq next start); [|done].
  edestruct (IH next) as [[[] st2] ->]; [|done..].
  simpl. apply mapGet_keySet in Hget.
  assert (Hsub : keySet m ∖ (visited st ∪ {[start]}) ⊂ keySet m ∖ visited st)
    by set_solver.
  apply subset_size in Hsub. lia.
Qed.

Lemma detectLoop_sound m fuel : ∀ entries st b,
  stack st = ∅ →
  (∀ x, x ∈ visited st → sn (edgeM m) x) →
  detectLoop fuel m entries st = Some b →
  if b then cyclicM m
  else ∀ k v, (k, v) ∈ entries → ofN k ≠ v → sn (edgeM m) (ofN k).
Proof.
  induction entries as [|[k v] entries IH]; intros st b Hstack Hsn; simpl.
  { intros [= <-] k v Hin. by apply elem_of_nil in Hin. }
  assert (Hskip : ∀ st', stack st' = ∅ →
            (∀ x, x ∈ visited st' → sn (edgeM m) x) →
            (ofN k ≠ v → sn (edgeM m) (ofN k)) →
            detectLoop fuel m entries st' = Some b →
            if b then cyclicM m
            else ∀ k' v', (k', v') ∈ (k, v) :: entries → ofN k' ≠ v' →
                   sn (edgeM m) (ofN k')).
  { intros st' Hs' Hsn' Hk Hrun. apply IH in Hrun; [|done..].
    destruct b; [done|]. intros k' v' Hin Hne.
    apply elem_of_cons in Hin as [[= -> ->]|Hin]; eauto. }
  destruct (strict_neq (ofN k) v) eqn:Hneq; cycle 1.
  { apply Hskip; [done..|]. intros Hne. apply strict_neq_ofN_l in Hne. congruence. }
  destruct (hasCycle fuel m (ofN k) st) as [[[] st']|] eqn:Hrun; [| |done].
  - intros [= <-]. apply hasCycle_spec in Hrun; [done| |auto].
    rewrite Hstack. set_solver.
  - apply hasCycle_spec in Hrun; [|rewrite Hstack; set_solver|auto].
    destruct Hrun as (Hst & Hin & _ & _ & Hsn').
    apply Hskip; [congruence| |].
    + intros x Hx. apply Hsn'; [done|]. rewrite Hst, Hstack. set_solver.
    + intros _. apply Hsn'; [done|]. rewrite Hst, Hstack. set_solver.
Qed.

Lemma detectLoop_terminates m fuel : ∀ entries st,
  (length m < fuel)%nat → is_Some (detectLoop fuel m entries st).
Proof.
  intros entries st Hfuel. revert st.
  induction entries as [|[k v] entries IH]; intros st; simpl; [done|].
  destruct (strict_neq (ofN k) v); [|done].
  destruct (hasCycle_terminates m fuel (ofN k) st) as [[[] st'] ->]; [|done..].
  pose proof (size_keySet m).
  assert (Hsub : keySet m ∖ visited st ⊆ keySet m) by set_solver.
  apply subseteq_size in Hsub. lia.
Qed.

(** A cycle is a value from which a chain leads back to it; a value with no
    edge is on none. *)
Lemma detectLoop_false_acyclic m fuel :
  detectLoop fuel m m (Dfs ∅ ∅) = Some false → ¬ cyclicM m.
Proof.
  intros Hrun [a Ha]. apply detectLoop_sound in Hrun; [|done|set_solver].
  assert (∃ y, edgeM m a y) as [y Hy].
  { inversion Ha; eauto. }
  destruct Hy as [(k & -> & Hk)%mapGet_Some Hne].
  apply lookupKey_elem_of in Hk.
  by eapply sn_no_cycle; [eapply Hrun|].
Qed.

Lemma mapSet_fresh k v m : k ∉ m.*1 → mapSet k v m = m ++ [(k, v)].
Proof.
  induction m as [|[k' v'] m IH]; simpl; [done|].
  rewrite not_elem_of_cons. intros [Hne Hk].
  rewrite bool_decide_eq_false_2 by done. by rewrite IH.
Qed.

Lemma omap_keptEntry_keys keep (g : group) k :
  k ∈ (omap (keptEntry keep) g).*1 → k ∈ g.*1.
Proof.
  intros ([k' v] & -> & Hin)%list_elem_of_fmap.
  apply list_elem_of_omap in Hin as ([k0 s] & Hin & Hk).
  unfold keptEntry in Hk. simpl in Hk. destruct (keep k0 s); [|done].
  injection Hk as -> _. apply list_elem_of_fmap. by exists (k', s).
Qed.

Lemma omap_keptEntry_cons keep k s (g : group) :
  omap (keptEntry keep) ((k, s) :: g)
  = if keep k s then (k, Number s) :: omap (keptEntry keep) g
    else omap (keptEntry keep) g.
Proof. unfold keptEntry at 1. csimpl. unfold keptEntry at 1. simpl. by destruct (keep k s). Qed.

Lemma buildMap_omap keep g :
  NoDup g.*1 → buildMap keep g = omap (keptEntry keep) g.
Proof.
  unfold buildMap.
  enough (∀ acc, (∀ k, k ∈ acc.*1 → k ∉ g.*1) → NoDup g.*1 →
            foldl (λ m '(original, replaced),
                     if keep original replaced
                     then mapSet original (Number replaced) m else m) acc g
            = acc ++ omap (keptEntry keep) g) as Hgen.
  { intros Hnd. apply (Hgen []); [|done]. intros k Hk. by apply elem_of_nil in Hk. }
  induction g as [|[k s] g IH]; intros acc Hacc Hnd.
  { by rewrite app_nil_r. }
  rewrite fmap_cons in Hnd. apply NoDup_cons in Hnd as [Hk Hnd].
  rewrite omap_keptEntry_cons. cbn [foldl].
  assert (Hacc' : ∀ k', k' ∈ acc.*1 → k' ≠ k ∧ k' ∉ g.*1).
  { intros k' Hin. apply Hacc in Hin. rewrite fmap_cons in Hin.
    by apply not_elem_of_cons in Hin. }
  destruct (keep k s).
  - rewrite mapSet_fresh.
    + rewrite IH; [by rewrite <-app_assoc| |done].
      intros k'. rewrite fmap_app, elem_of_app.
      intros [Hin|Hin]; [by apply Hacc'|].
      by apply list_elem_of_singleton in Hin as ->.
    + intros Hin. by apply Hacc' in Hin as [? _].
  - apply IH; [|done]. intros k' Hin. by apply Hacc'.
Qed.

Lemma NoDup_omap_keptEntry keep (g : group) :
  NoDup g.*1 → NoDup (omap (keptEntry keep) g).*1.
Proof.
  induction g as [|[k s] g IH]; [done|].
  rewrite fmap_cons, omap_keptEntry_cons. intros [Hk Hnd]%NoDup_cons.
  destruct (keep k s); [|auto].
  rewrite fmap_cons. apply NoDup_cons. split; [|auto].
  intros Hin. by apply omap_keptEntry_keys in Hin.
Qed.

Lemma lookupKey_buildMap keep g k y :
  NoDup g.*1 →
  lookupKey k (buildMap keep g) = Some y ↔
  ∃ s, (k, s) ∈ g ∧ keep k s = true ∧ y = Number s.
Proof.
  intros Hnd. rewrite buildMap_omap by done. split.
  - intros ([k' s] & Hin & Hk)%lookupKey_elem_of%list_elem_of_omap.
    unfold keptEntry in Hk. simpl in Hk.
    destruct (keep k' s) eqn:Hkeep; [|done]. injection Hk as -> <-. eauto.
  - intros (s & Hin & Hkeep & ->).
    apply elem_of_lookupKey; [by apply NoDup_omap_keptEntry|].
    apply list_elem_of_omap. exists (k, s). split; [done|].
    unfold keptEntry. simpl. by rewrite Hkeep.
Qed.

Lemma edgeM_replacementMap g x y :
  NoDup g.*1 → edgeM (buildReplacementMap g) x y ↔ edge g x y.
Proof.
  intros Hnd. unfold edgeM, edge, sends, buildReplacementMap.
  rewrite mapGet_Some. split.
  - intros [(k & -> & (s & ? & ? & ->)%lookupKey_buildMap) Hne]; [|done].
    split; [|done]. eauto 10.
  - intros [(k & s & Hin & -> & Hv & ->) Hne]. split; [|done].
    exists k. split; [done|]. apply lookupKey_buildMap; eauto.
Qed.

Lemma tc_iff {A} (R1 R2 : relation A) x y :
  (∀ a b, R1 a b ↔ R2 a b) → tc R1 x y ↔ tc R2 x y.
Proof.
  intros HR. split; induction 1 as [? ? H|? ? ? H _ IH];
    apply HR in H; eauto using tc_once, tc_l.
Qed.

Lemma cyclicM_replacementMap g :
  NoDup g.*1 → cyclicM (buildReplacementMap g) ↔ cyclic g.
Proof.
  intros Hnd. unfold cyclicM, cyclic.
  by setoid_rewrite (tc_iff _ _ _ _ (λ a b, edgeM_replacementMap g a b Hnd)).
Qed.

Lemma length_buildMap keep g : NoDup g.*1 → (length (buildMap keep g) ≤ length g)%nat.
Proof.
  intros Hnd. rewrite buildMap_omap by done. clear Hnd.
  induction g as [|[k s] g IH]; [done|].
  rewrite omap_keptEntry_cons. destruct (keep k s); simpl; lia.
Qed.

Lemma detectLoop_complete m fuel :
  (length m < fuel)%nat →
  ∃ b, detectLoop fuel m m (Dfs ∅ ∅) = Some b ∧ (b = true ↔ cyclicM m).
Proof.
  intros Hfuel.
  destruct (detectLoop_terminates m fuel m (Dfs ∅ ∅) Hfuel) as [b Hrun].
  exists b. split; [done|]. destruct b.
  - apply detectLoop_sound in Hrun; [done..|set_solver].
  - apply detectLoop_false_acyclic in Hrun. split; [done|]. by intros ?.
Qed.

Lemma detectCircular_decides (g : group) (fuel : nat) :
  NoDup g.*1 → (length g < fuel)%nat →
  ∃ b, detectCircular fuel g = Some b ∧ (b = true ↔ cyclic g).
Proof.
  intros Hnd Hfuel. unfold detectCircular.
  destruct (detectLoop_complete (buildReplacementMap g) fuel) as (b & Hrun & Hb).
  { pose proof (length_buildMap (λ _ r, validNumber r) g Hnd).
    unfold buildReplacementMap. lia. }
  exists b. split; [done|]. by rewrite Hb, cyclicM_replacementMap.
Qed.


End detection.

(** ** The chain-building loop does not end on a cycle *)

Section chains.

Variable temp : tokenMap.

Lemma doomed_step x : doomed temp x → ∃ y, mapGet temp x = Some y ∧ doomed temp y.
Proof.
  intros (c & Hxc & Hc). apply rtc_inv in Hxc as [->|(y & Hxy & Hyc)].
  - inversion Hc as [? ? H|? y ? H Hy]; subst.
    + exists c. split; [done|]. by exists c.
    + exists y. split; [done|]. exists c. split; [by apply tc_rtc|done].
  - exists y. split; [done|]. by exists c.
Qed.

Lemma doomed_back x y : rtc (stepM temp) x y → doomed temp y → doomed temp x.
Proof. intros Hxy (c & Hyc & Hc). exists c. split; [by etrans|done]. Qed.

Lemma extendChain_diverges processed fuel : ∀ chain current,
  (∀ k, k ∈ processed → ¬ doomed temp (ofN k)) →
  doomed temp current →
  extendChain fuel temp processed chain current = None.
Proof.
  induction fuel as [|fuel IH]; intros chain current Hproc Hd; [done|].
  simpl. destruct (doomed_step _ Hd) as (y & Hget & Hy).
  pose proof Hget as (k & -> & Hk)%mapGet_Some.
  rewrite toKey_ofN, Hk.
  rewrite bool_decide_eq_false_2; [by apply IH|].
  intros Hin. by apply Hproc in Hin.
Qed.

Lemma extendChain_members processed fuel : ∀ chain current chain' k,
  extendChain fuel temp processed chain current = Some chain' →
  k ∈ chain' → k ∈ chain ∨ rtc (stepM temp) current (ofN k).
Proof.
  induction fuel as [|fuel IH]; intros chain current chain' k; [done|].
  simpl. destruct (toKey current) as [k0|] eqn:Hkey; [|intros [= <-]; auto].
  apply toKey_Some in Hkey as ->.
  destruct (lookupKey k0 temp) as [next|] eqn:Hk0; [|intros [= <-]; auto].
  case_bool_decide; [intros [= <-]; auto|].
  intros Hrun Hin. destruct (IH _ _ _ k Hrun Hin) as [Hk|Hk].
  - apply elem_of_app in Hk as [Hk|Hk]; [auto|].
    apply list_elem_of_singleton in Hk as ->. by right.
  - right. eapply rtc_l; [|done]. unfold stepM. by rewrite mapGet_Some; eauto.
Qed.

Lemma buildChains_diverges fuel : ∀ entries processed chains,
  (∀ k v, (k, v) ∈ entries → lookupKey k temp = Some v) →
  (∀ k, k ∈ processed → ¬ doomed temp (ofN k)) →
  (∃ k v, (k, v) ∈ entries ∧ doomed temp (ofN k)) →
  buildChains fuel temp entries processed chains = None.
Proof.
  induction entries as [|[original replaced] entries IH];
    intros processed chains Hent Hproc (k & v & Hin & Hd).
  { by apply elem_of_nil in Hin. }
  assert (Hstep : stepM temp (ofN original) replaced).
  { unfold stepM. rewrite mapGet_Some. exists original. split; [done|].
    apply Hent. left. }
  assert (Hent' : ∀ k v, (k, v) ∈ entries → lookupKey k temp = Some v).
  { intros k' v' Hin'. apply Hent. by right. }
  simpl. case_bool_decide as Hp.
  { apply IH; [done..|]. apply elem_of_cons in Hin as [[= -> ->]|Hin]; [|eauto].
    by apply Hproc in Hp. }
  destruct (extendChain _ _ _ _ _) as [chain|] eqn:Hrun; [|done].
  assert (Hnd : ¬ doomed temp (ofN original)).
  { intros Hd'. destruct (doomed_step _ Hd') as (y & Hy & Hdy).
    rewrite Hstep in Hy. injection Hy as <-.
    by rewrite extendChain_diverges in Hrun. }
  apply IH; [done| |].
  - intros k' [Hk'|Hk']%elem_of_union; [by apply Hproc|].
    apply elem_of_list_to_set in Hk'.
    eapply extendChain_members in Hrun as [Hk0|Hk0]; [| |done].
    + by apply list_elem_of_singleton in Hk0 as ->.
    + intros Hd'. apply Hnd. eapply doomed_back; [|done]. by eapply rtc_l.
  - apply elem_of_cons in Hin as [[= -> ->]|Hin]; [done|eauto].
Qed.

End chains.

Lemma edgeM_tempReplacements g x y :
  NoDup g.*1 → stepM (buildTempReplacements g) x y ↔ edge g x y.
Proof.
  intros Hnd. unfold stepM, edge, sends, buildTempReplacements.
  rewrite mapGet_Some. split.
  - intros (k & -> & (s & ? & Hk & ->)%lookupKey_buildMap); [|done].
    apply andb_true_iff in Hk as [Hv Hne%strict_neq_ofN_l]. eauto 10.
  - intros [(k & s & Hin & -> & Hv & ->) Hne].
    exists k. split; [done|]. apply lookupKey_buildMap; [done|].
    exists s. split_and!; [done| |done].
    apply andb_true_iff. split; [done|]. by apply strict_neq_ofN_l.
Qed.

Lemma cyclic_doomed_entry g :
  NoDup g.*1 → cyclic g →
  ∃ k v, (k, v) ∈ buildTempReplacements g ∧ doomed (buildTempReplacements g) (ofN k).
Proof.
  intros Hnd [a Ha].
  apply (tc_iff _ (stepM (buildTempReplacements g))) in Ha; cycle 1.
  { intros x y. symmetry. by apply edgeM_tempReplacements. }
  assert (∃ y, stepM (buildTempReplacements g) a y) as [y Hy].
  { inversion Ha; eauto. }
  apply mapGet_Some in Hy as (k & -> & Hk). apply lookupKey_elem_of in Hk.
  exists k, y. split; [done|]. by exists (ofN k).
Qed.

Lemma detectCircular_sound g fuel :
  NoDup g.*1 → detectCircular fuel g = Some true → cyclic g.
Proof.
  intros Hnd Hrun. apply cyclicM_replacementMap; [done|].
  by apply detectLoop_sound in Hrun; [|done|set_solver].
Qed.

Lemma detectCircular_cyclic g fuel b :
  NoDup g.*1 → cyclic g → detectCircular fuel g = Some b → b = true.
Proof.
  intros Hnd Hc Hrun. destruct b; [done|].
  apply detectLoop_false_acyclic in Hrun. by apply cyclicM_replacementMap in Hc.
Qed.

(** On a group with a cycle the body of the loop over the groups never comes
    to its end, whatever the fuel: the detection finds the cycle, and the
    [while] loop that builds the chain of a value leading to the cycle goes
    round it for ever, because [processed] is only filled once a chain is
    complete. *)
Lemma detectAndFixGroup_diverges g fuel hasCircular :
  NoDup g.*1 → cyclic g → detectAndFixGroup fuel hasCircular g = None.
Proof.
  intros Hnd Hc. unfold detectAndFixGroup.
  destruct (detectCircular fuel g) as [b|] eqn:Hrun; [|done].
  rewrite (detectCircular_cyclic _ _ _ Hnd Hc Hrun). simpl.
  rewrite buildChains_diverges; [done| |set_solver|by apply cyclic_doomed_entry].
  intros k v Hin. apply elem_of_lookupKey; [|done].
  unfold buildTempReplacements. rewrite buildMap_omap by done.
  by apply NoDup_omap_keptEntry.
Qed.

Lemma detectAndFixGroups_diverges fuel : ∀ r hasCircular,
  (∀ key g, (key, g) ∈ r → NoDup g.*1) →
  (∃ key g, (key, g) ∈ r ∧ cyclic g) →
  detectAndFixGroups fuel hasCircular r = None.
Proof.
  induction r as [|[key g] r IH]; intros flag Hnd (key' & g' & Hin & Hc).
  { by apply elem_of_nil in Hin. }
  simpl. destruct (detectAndFixGroup fuel flag g) as [[flag' g1]|] eqn:Hrun; [|done].
  rewrite IH; [done| |].
  - intros key0 g0 Hin0. eapply Hnd. by right.
  - apply elem_of_cons in Hin as [[= -> ->]|Hin]; [|eauto].
    rewrite detectAndFixGroup_diverges in Hrun; [done| |done].
    eapply Hnd. left.
Qed.

(** Without a cycle the resolver returns the mapping as it received it. *)
Lemma detectAndFixGroups_acyclic fuel : ∀ r,
  (∀ key g, (key, g) ∈ r → NoDup g.*1 ∧ (length g < fuel)%nat ∧ ¬ cyclic g) →
  detectAndFixGroups fuel false r = Some (false, r).
Proof.
  induction r as [|[key g] r IH]; intros Hr; [done|].
  simpl. destruct (Hr key g) as (Hnd & Hfuel & Hc); [left|].
  unfold detectAndFixGroup.
  destruct (detectCircular_decides g fuel Hnd Hfuel) as (b & -> & Hb).
  destruct b; [by destruct Hc; apply Hb|]. simpl.
  rewrite IH; [done|]. intros key0 g0 Hin0. apply (Hr key0). by right.
Qed.

(** Whenever the resolver returns, it has found no cycle and returns the
    mapping as it received it: the branch that rewrites a group is entered
    only on a cycle, where it does not end. *)
Lemma detectAndFixGroups_returns fuel : ∀ r b r',
  (∀ key g, (key, g) ∈ r → NoDup g.*1) →
  detectAndFixGroups fuel false r = Some (b, r') → b = false ∧ r' = r.
Proof.
  induction r as [|[key g] r IH]; intros b r' Hnd; simpl.
  { by intros [= <- <-]. }
  assert (Hg : NoDup g.*1) by (eapply Hnd; left).
  destruct (detectAndFixGroup fuel false g) as [[flag g1]|] eqn:Hrun; [|done].
  assert (flag = false ∧ g1 = g) as [-> ->].
  { destruct (detectCircular fuel g) as [[]|] eqn:Hdet.
    - apply detectCircular_sound in Hdet; [|done].
      by rewrite detectAndFixGroup_diverges in Hrun.
    - unfold detectAndFixGroup in Hrun. rewrite Hdet in Hrun.
      by injection Hrun as <- <-.
    - unfold detectAndFixGroup in Hrun. by rewrite Hdet in Hrun. }
  destruct (detectAndFixGroups fuel false r) as [[b0 r0]|] eqn:Hrest; [|done].
  intros [= <- <-]. destruct (IH b0 r0) as [-> ->]; [|done..].
  intros key0 g0 Hin. eapply Hnd. by right.
Qed.

(** ** The resolver on a detected cycle *)


(** C1. The claim expects a fixed mapping and a flag.  When the detection
    finds a cycle in some group, the call of
    [detectAndFixCircularReplacements] has no result, whatever the fuel: it
    returns no mapping and no flag, and the effect that called it never
    reaches [setAutoFixed]. *)
Theorem resolver_diverges_on_detected_cycle
    (r : groups) (key : string) (g : group) (n fuel : nat) :
  (∀ key' g', (key', g') ∈ r → NoDup g'.*1) →
  (key, g) ∈ r →
  detectCircular n g = Some true →
  detectAndFixCircularReplacements fuel r = None ∧
  ∀ st, groupReplacements st = r → validateReplacements fuel st = None.
Proof.
  intros Hnd Hin Hdet.
  assert (Hrun : detectAndFixCircularReplacements fuel r = None).
  { apply detectAndFixGroups_diverges; [done|].
    exists key, g. split; [done|]. eapply detectCircular_sound; [|done].
    by eapply Hnd. }
  split; [done|]. intros st <-. unfold validateReplacements. by rewrite Hrun.
Qed.

Lemma resolver_diverges_on_detected_cycle_witness :
  detectAndFixCircularReplacements 50 [("1,2,3", [(1%N, "2"); (2%N, "3"); (3%N, "1")])] = None ∧
  ∀ st, groupReplacements st = [("1,2,3", [(1%N, "2"); (2%N, "3"); (3%N, "1")])] →
        validateReplacements 50 st = None.
Proof.
  apply (resolver_diverges_on_detected_cycle _ "1,2,3"
           [(1%N, "2"); (2%N, "3"); (3%N, "1")] 4 50).
  - intros key' g' [= -> ->]%list_elem_of_singleton. compute_done.
  - left.
  - vm_compute. reflexivity.
Defined.

(** C2. The claim expects a fixed mapping for [{1: 2, 2: 1}].  On that
    mapping the resolver has no result, whatever the fuel: there is no
    resolved mapping to apply to a text, once or twice. *)
Theorem resolver_diverges_on_two_cycle (fuel : nat) :
  detectAndFixCircularReplacements fuel twoCycle = None.
Proof.
  apply detectAndFixGroups_diverges.
  - intros key g [= -> ->]%list_elem_of_singleton. compute_done.
  - eexists _, _. split; [left|].
    apply (detectCircular_sound _ 3); [compute_done|]. vm_compute. reflexivity.
Qed.

(** ** Validation on save *)

(** An entry that is the empty string, or that [Number] reads as [NaN],
    rejects the save: [onSave] is not called and the table is as before. *)
Lemma handleSave_rejects_invalid (st : ModalState) key g k newValue :
  (key, g) ∈ groupReplacements st → (k, newValue) ∈ g →
  invalidValue newValue = true →
  handleSave st = SaveRejected InvalidValue.
Proof.
  intros Hg Hk Hinv. unfold handleSave, allValid.
  destruct (forallb _ _) eqn:Hall; [|done].
  rewrite forallb_forall in Hall. apply list_elem_of_In, Hall in Hg.
  rewrite forallb_forall in Hg. apply list_elem_of_In, Hg in Hk.
  by rewrite Hinv in Hk.
Qed.

Lemma saveClick_rejected fuel t app st errorMsg :
  handleSave st = SaveRejected errorMsg →
  ∃ st', saveClick fuel t app st = Some (t, app, st') ∧ errorMessage st' = errorMsg.
Proof. intros Hs. unfold saveClick. rewrite Hs. eauto. Qed.

Example handleSave_rejects_empty_and_letters :
  invalidValue "" = true ∧ invalidValue "abc" = true ∧ invalidValue "1x" = true.
Proof. vm_compute. auto. Qed.

(** Values that are numbers without being token values pass as well. *)
Example handleSave_accepts_other_numbers :
  invalidValue "1.5" = false ∧ Number "1.5" = Frac 15 1 ∧
  invalidValue "-1" = false ∧ Number "-1" = Int (-1) ∧
  invalidValue "Infinity" = false ∧ Number "Infinity" = Infinity false ∧
  applyReplacements [(1%N, Frac 15 1)] "{1}" = "{1.5}".
Proof. vm_compute. repeat split. Qed.

(** C4. The claim expects every entry without a number in it to reject the
    save.  A replacement that is a single space passes the validation of
    [handleSave]: [Number(" ")] is [0], so the save goes through with the
    value zero and the text of field [B] is rewritten from [{1}{3}] to
    [{1}{0}]. *)
Theorem handleSave_accepts_blank_as_zero :
  invalidValue " " = false ∧
  handleSave blankModal
  = SaveCall "r1" [("A", [(1%N, Int 1); (2%N, Int 2)]);
                   ("B", [(1%N, Int 1); (3%N, Int 0)])] ∧
  ∃ t' app', saveClick 5 exampleTable exampleApp blankModal = Some (t', app', blankModal) ∧
    (λ r, cellText (fields r !! "fB")) <$> tableRecords t' = [Some "{1}{0}"].
Proof.
  split; [by vm_compute|]. split; [by vm_compute|].
  eexists _, _. split; [by vm_compute|]. by vm_compute.
Qed.

(** ** Strings and the two scanners *)

Section strings.

#[local] Arguments String.append !_ _ / : simpl nomatch.

Lemma append_assoc (a b c : string) : (a +:+ b) +:+ c = a +:+ b +:+ c.
Proof. induction a as [|x a IH]; simpl; [done|]. by f_equal. Qed.

Lemma append_nil_r (a : string) : a +:+ "" = a.
Proof. induction a as [|x a IH]; simpl; [done|]. by f_equal. Qed.

Lemma length_append (a b : string) :
  String.length (a +:+ b) = (String.length a + String.length b)%nat.
Proof. induction a as [|x a IH]; simpl; [done|]. by f_equal. Qed.

Lemma stripPrefix_Some p s rest : stripPrefix p s = Some rest ↔ s = p +:+ rest.
Proof.
  revert s. induction p as [|a p IH]; intros s; simpl.
  - split; [by intros [= ->]|by intros ->].
  - destruct s as [|b s]; [done|]. case_bool_decide as E.
    + subst. rewrite IH. split; [by intros ->|by intros [= ->]].
    + split; [done|]. intros [= Hab _]. by destruct E.
Qed.

Lemma stripPrefix_length p s rest :
  p ≠ "" → stripPrefix p s = Some rest → (String.length rest < String.length s)%nat.
Proof.
  intros Hp ->%stripPrefix_Some. rewrite length_append.
  destruct p; [done|]. simpl. lia.
Qed.

Lemma span_append p s : (span p s).1 +:+ (span p s).2 = s.
Proof.
  induction s as [|c s IH]; simpl; [done|].
  destruct (p c); [|done]. destruct (span p s). simpl in *. by rewrite IH.
Qed.

Lemma span_allDigits s : allDigits (span isDigit s).1 = true.
Proof.
  induction s as [|c s IH]; simpl; [done|].
  destruct (isDigit c) eqn:E; [|done]. destruct (span isDigit s). simpl in *.
  by rewrite E, IH.
Qed.

Lemma span_digits_stop ds c rest :
  allDigits ds = true → isDigit c = false →
  span isDigit (ds +:+ String c rest) = (ds, String c rest).
Proof.
  intros Hds Hc. induction ds as [|d ds IH]; simpl in *.
  - by rewrite Hc.
  - apply andb_true_iff in Hds as [-> Hds]. by rewrite IH.
Qed.

Lemma span_rest_head s c rest : (span isDigit s).2 = String c rest → isDigit c = false.
Proof.
  induction s as [|d s IH]; simpl; [done|].
  destruct (isDigit d) eqn:E.
  - destruct (span isDigit s). simpl in *. auto.
  - simpl. by intros [= <- _].
Qed.

(** What a match of the token pattern at the head of [s] is. *)
Lemma matchToken_Some s ds rest :
  matchToken s = Some (ds, rest) ↔
  s = "{" +:+ ds +:+ "}" +:+ rest ∧ ds ≠ "" ∧ allDigits ds = true.
Proof.
  unfold matchToken. split.
  - destruct s as [|c s]; [done|].
    destruct (decide (c = "{"%char)) as [->|Hc]; cycle 1.
    { by destruct c as [[] [] [] [] [] [] [] []]. }
    pose proof (span_append isDigit s) as Happ.
    pose proof (span_allDigits s) as Hd.
    destruct (span isDigit s) as [[|d a] b]; [done|]. simpl in *.
    destruct b as [|c b]; [done|].
    destruct (decide (c = "}"%char)) as [->|Hc]; cycle 1.
    { by destruct c as [[] [] [] [] [] [] [] []]. }
    intros [= <- <-]. by rewrite <-Happ.
  - intros (-> & Hne & Hd). simpl.
    rewrite span_digits_stop by done. by destruct ds.
Qed.

Lemma matchToken_length s ds rest :
  matchToken s = Some (ds, rest) → (String.length rest < String.length s)%nat.
Proof.
  intros (-> & _ & _)%matchToken_Some. simpl. rewrite length_append. simpl. lia.
Qed.

(** The fuel of the scanners is the length of the text: more changes
    nothing. *)
Lemma piecesFrom_fuel n : ∀ m s,
  (String.length s ≤ n)%nat → (String.length s ≤ m)%nat →
  piecesFrom n s = piecesFrom m s.
Proof.
  induction n as [|n IH]; intros m s Hn Hm.
  { destruct s; [|simpl in Hn; lia]. by destruct m. }
  destruct m as [|m]; [destruct s; [done|simpl in Hm; lia]|].
  destruct s as [|c s]; [done|]. cbn [piecesFrom].
  destruct (matchToken (String c s)) as [[ds rest]|] eqn:E.
  - apply matchToken_length in E. f_equal. apply IH; simpl in *; lia.
  - f_equal. apply IH; simpl in *; lia.
Qed.

Lemma pieces_nil : pieces "" = [].
Proof. done. Qed.

Lemma pieces_token s ds rest :
  matchToken s = Some (ds, rest) → pieces s = Tok ds :: pieces rest.
Proof.
  intros E. unfold pieces. destruct s as [|c s]; [done|].
  cbn [String.length piecesFrom]. rewrite E. f_equal.
  apply matchToken_length in E. apply piecesFrom_fuel; simpl in *; lia.
Qed.

Lemma pieces_char c s :
  matchToken (String c s) = None → pieces (String c s) = Chr c :: pieces s.
Proof. intros E. unfold pieces. cbn [String.length piecesFrom]. by rewrite E. Qed.

Lemma matchTokensFrom_pieces fuel : ∀ s,
  matchTokensFrom fuel s
  = omap (λ p, match p with Tok ds => Some ("{" +:+ ds +:+ "}") | Chr _ => None end)
         (piecesFrom fuel s).
Proof.
  induction fuel as [|fuel IH]; intros s; [done|].
  destruct s as [|c s]; [done|]. cbn [matchTokensFrom piecesFrom].
  destruct (matchToken (String c s)) as [[ds rest]|]; csimpl; by rewrite IH.
Qed.

Lemma matchTokens_pieces text :
  matchTokens text
  = omap (λ p, match p with Tok ds => Some ("{" +:+ ds +:+ "}") | Chr _ => None end)
         (pieces text).
Proof. apply matchTokensFrom_pieces. Qed.

Lemma replaceAllFrom_fuel pat rep n : ∀ m s,
  pat ≠ "" → (String.length s ≤ n)%nat → (String.length s ≤ m)%nat →
  replaceAllFrom n pat rep s = replaceAllFrom m pat rep s.
Proof.
  induction n as [|n IH]; intros m s Hp Hn Hm.
  { destruct s; [|simpl in Hn; lia]. by destruct m. }
  destruct m as [|m]; [destruct s; [done|simpl in Hm; lia]|].
  destruct s as [|c s]; [done|]. cbn [replaceAllFrom].
  destruct (stripPrefix pat (String c s)) as [rest|] eqn:E.
  - apply stripPrefix_length in E; [|done]. f_equal.
    apply IH; [done|simpl in *; lia..].
  - f_equal. apply IH; [done|simpl in *; lia..].
Qed.

Lemma replaceAll_match pat rep rest :
  pat ≠ "" → replaceAll pat rep (pat +:+ rest) = rep +:+ replaceAll pat rep rest.
Proof.
  intros Hp. unfold replaceAll.
  destruct (pat +:+ rest) as [|c s] eqn:Es; [by destruct pat|].
  cbn [String.length replaceAllFrom].
  assert (E : stripPrefix pat (String c s) = Some rest) by by apply stripPrefix_Some.
  rewrite E. f_equal. apply stripPrefix_length in E; [|done].
  apply replaceAllFrom_fuel; simpl in *; [done|lia..].
Qed.

Lemma replaceAll_char pat rep c s :
  stripPrefix pat (String c s) = None →
  replaceAll pat rep (String c s) = String c (replaceAll pat rep s).
Proof. intros E. unfold replaceAll. cbn [String.length replaceAllFrom]. by rewrite E. Qed.


Lemma isDigit_not_brace c : isDigit c = true → c ≠ "{"%char ∧ c ≠ "}"%char.
Proof. intros H. split; intros ->; by vm_compute in H. Qed.

Lemma digits_stop_inj a b c d x y :
  allDigits a = true → allDigits b = true →
  isDigit c = false → isDigit d = false →
  a +:+ String c x = b +:+ String d y → a = b ∧ c = d ∧ x = y.
Proof.
  intros Ha Hb Hc Hd. revert b Hb.
  induction a as [|a0 a IH]; intros [|b0 b] Hb; simpl in *.
  - by intros [= -> ->].
  - intros [= -> _]. apply andb_true_iff in Hb as [Hb _]. congruence.
  - intros [= -> _]. apply andb_true_iff in Ha as [Ha _]. congruence.
  - intros [= -> Heq]. apply andb_true_iff in Ha as [_ Ha].
    apply andb_true_iff in Hb as [_ Hb].
    destruct (IH Ha b Hb Heq) as (-> & -> & ->). done.
Qed.

Lemma stripPrefix_token_None s ds rest o :
  matchToken s = Some (ds, rest) → ds ≠ o → allDigits o = true →
  stripPrefix ("{" +:+ o +:+ "}") s = None.
Proof.
  intros (-> & _ & Hds)%matchToken_Some Hne Ho.
  destruct (stripPrefix _ _) as [r|] eqn:E; [|done].
  apply stripPrefix_Some in E. simpl in E. injection E as E.
  rewrite append_assoc in E. simpl in E.
  apply digits_stop_inj in E as (-> & _ & _); done.
Qed.

Lemma stripPrefix_noToken_None s o :
  matchToken s = None → o ≠ "" → allDigits o = true →
  stripPrefix ("{" +:+ o +:+ "}") s = None.
Proof.
  intros Hm Hne Ho. destruct (stripPrefix _ _) as [r|] eqn:E; [|done].
  apply stripPrefix_Some in E. rewrite append_assoc in E.
  assert (matchToken s = Some (o, r)) by (apply matchToken_Some; by rewrite append_assoc in E).
  congruence.
Qed.

(** Inside a token that is not the one sought, nothing matches. *)
Lemma replaceAll_inside_token p rep ds rest :
  allDigits ds = true →
  replaceAll (String "{" p) rep (ds +:+ String "}" rest)
  = ds +:+ String "}" (replaceAll (String "{" p) rep rest).
Proof.
  intros Hds. induction ds as [|d ds IH]; simpl in *.
  - by rewrite replaceAll_char.
  - apply andb_true_iff in Hds as [Hd Hds].
    rewrite replaceAll_char, IH; [done..|].
    simpl. apply isDigit_not_brace in Hd as [Hd _].
    by rewrite bool_decide_eq_false_2.
Qed.

Lemma token_text ds rest :
  String "{" (ds +:+ String "}" rest) = ("{" +:+ ds +:+ "}") +:+ rest.
Proof. simpl. f_equal. by rewrite append_assoc. Qed.

(** The literal pattern [\{o\}] finds the tokens [{o}] and nothing else:
    replacing its matches is replacing those tokens. *)
Lemma replaceAll_substituteToken o rep text :
  o ≠ "" → allDigits o = true →
  replaceAll ("{" +:+ o +:+ "}") rep text = substituteToken o rep text.
Proof.
  intros Hne Ho. unfold substituteToken.
  remember (String.length text) as n eqn:Hn. revert text Hn.
  induction (lt_wf n) as [n _ IH]. intros text ->.
  destruct text as [|c s]; [done|].
  destruct (matchToken (String c s)) as [[ds rest]|] eqn:E.
  - pose proof (matchToken_length _ _ _ E) as Hlen.
    pose proof E as (Hs & Hds & Hd)%matchToken_Some.
    rewrite (pieces_token _ _ _ E), fmap_cons.
    cbn [concatStrings renderWith pieceText]. case_bool_decide as Heq.
    + subst ds. rewrite Hs, <-!append_assoc, replaceAll_match by done.
      f_equal. by eapply IH.
    + rewrite replaceAll_char by by apply stripPrefix_token_None with ds rest.
      simpl in Hs. injection Hs as -> ->.
      change ("{" +:+ o +:+ "}") with (String "{" (o +:+ "}")) at 1.
      rewrite replaceAll_inside_token by done.
      rewrite <-token_text. do 3 f_equal. by eapply IH.
  - rewrite (pieces_char _ _ E), fmap_cons. cbn [concatStrings renderWith pieceText].
    rewrite replaceAll_char by by apply stripPrefix_noToken_None.
    simpl. f_equal. eapply IH; [|done]. simpl. lia.
Qed.


Lemma span_allDigits_all ds : allDigits ds = true → span isDigit ds = (ds, "").
Proof.
  induction ds as [|d ds IH]; simpl; [done|].
  intros [-> Hds]%andb_true_iff. by rewrite IH.
Qed.

(** *** The decimal representation of a token value *)

Lemma allDigits_append a b :
  allDigits (a +:+ b) = allDigits a && allDigits b.
Proof.
  induction a as [|c a IH]; simpl; [done|]. by rewrite IH, andb_assoc.
Qed.

Lemma pretty_N_char_digit x : isDigit (pretty_N_char x) = true.
Proof. unfold pretty_N_char. by repeat case_match. Qed.

Lemma digitsValue_append radix a b : ∀ acc,
  digitsValue radix acc (a +:+ b)
  = match digitsValue radix acc a with
    | Some acc' => digitsValue radix acc' b
    | None => None
    end.
Proof.
  induction a as [|c a IH]; intros acc; simpl; [done|].
  destruct (digitValue radix c); [apply IH|done].
Qed.

Lemma digitValue_pretty_N_char y :
  (y < 10)%N → digitValue 10 (pretty_N_char y) = Some y.
Proof.
  intros Hy.
  assert (y = 0 ∨ y = 1 ∨ y = 2 ∨ y = 3 ∨ y = 4 ∨ y = 5 ∨ y = 6 ∨ y = 7 ∨
          y = 8 ∨ y = 9)%N as Hcases by lia.
  destruct_or!; by subst.
Qed.

(** The digits that [pretty] writes for [x]: decimal digits, whose value is
    [x], at most [k] of them when [x] is below [10^k]. *)
Lemma pretty_N_go_digits x : ∀ s,
  ∃ d, pretty_N_go x s = d +:+ s ∧ allDigits d = true ∧ ((0 < x)%N → d ≠ "") ∧
       (∀ acc, digitsValue 10 acc d
               = Some (acc * 10 ^ N.of_nat (String.length d) + x)%N) ∧
       (∀ k, (x < 10 ^ k)%N → (N.of_nat (String.length d) ≤ k)%N).
Proof.
  induction (N.lt_wf_0 x) as [x _ IH]. intros s.
  destruct (decide (x = 0%N)) as [->|Hx].
  { exists "". rewrite pretty_N_go_0. split_and!.
    - done.
    - done.
    - lia.
    - intros acc. simpl. f_equal. lia.
    - intros k _. simpl. lia. }
  rewrite pretty_N_go_step by lia.
  destruct (IH (x `div` 10)%N) with (s := String (pretty_N_char (x `mod` 10)) s)
    as (d & -> & Hd & _ & Hval & Hlen).
  { apply N.div_lt; lia. }
  exists (d +:+ String (pretty_N_char (x `mod` 10)) "").
  rewrite append_assoc. split_and!; [done| |by destruct d| |].
  - rewrite allDigits_append, Hd. simpl. by rewrite pretty_N_char_digit.
  - intros acc. rewrite digitsValue_append, Hval. simpl.
    rewrite digitValue_pretty_N_char by (apply N.mod_lt; lia). f_equal.
    rewrite length_append. simpl.
    replace (N.of_nat (String.length d + 1)) with (N.succ (N.of_nat (String.length d))) by lia.
    rewrite N.pow_succ_r'. pose proof (N.div_mod x 10). lia.
  - intros k Hk. rewrite length_append. simpl.
    destruct (decide (k = 0%N)) as [->|Hk0]; [simpl in Hk; lia|].
    replace k with (N.succ (N.pred k)) in Hk by lia.
    rewrite N.pow_succ_r' in Hk.
    assert (N.of_nat (String.length d) ≤ N.pred k)%N; [|lia].
    apply Hlen. apply N.Div0.div_lt_upper_bound. lia.
Qed.

Lemma tokenString_digits n : tokenString n ≠ "" ∧ allDigits (tokenString n) = true.
Proof.
  unfold tokenString, pretty, pretty_N. case_decide; [done|].
  destruct (pretty_N_go_digits n "") as (d & -> & Hd & Hne & _).
  rewrite append_nil_r. split; [apply Hne; lia|done].
Qed.

(** Reading the digits of a token value gives the value back. *)
Lemma digitsValue_tokenString n : digitsValue 10 0 (tokenString n) = Some n.
Proof.
  unfold tokenString, pretty, pretty_N. case_decide as Hn; [by subst|].
  destruct (pretty_N_go_digits n "") as (d & -> & _ & _ & Hval & _).
  rewrite append_nil_r, Hval. f_equal; lia.
Qed.

Lemma length_tokenString n k :
  (0 < k)%N → (n < 10 ^ k)%N → (N.of_nat (String.length (tokenString n)) ≤ k)%N.
Proof.
  intros Hk Hn. unfold tokenString, pretty, pretty_N. case_decide; [simpl; lia|].
  destruct (pretty_N_go_digits n "") as (d & -> & _ & _ & _ & Hlen).
  rewrite append_nil_r. by apply Hlen.
Qed.

(** The pieces of a text are a decomposition of it. *)
Lemma pieces_text text : concatStrings (pieceText <$> pieces text) = text.
Proof.
  remember (String.length text) as n eqn:Hn. revert text Hn.
  induction (lt_wf n) as [n _ IH]. intros text ->.
  destruct text as [|c s]; [done|].
  destruct (matchToken (String c s)) as [[ds rest]|] eqn:E.
  - pose proof (matchToken_length _ _ _ E) as Hlen.
    pose proof E as (Hs & Hds & Hd)%matchToken_Some.
    rewrite (pieces_token _ _ _ E), fmap_cons. cbn [concatStrings pieceText].
    rewrite (IH _ Hlen rest eq_refl), Hs. by rewrite !append_assoc.
  - rewrite (pieces_char _ _ E), fmap_cons. cbn [concatStrings pieceText].
    simpl. f_equal. eapply IH; [|done]. simpl. lia.
Qed.

(** Every token of the text is a piece, and every token piece is a token of
    the text. *)
Lemma pieces_occurs text ds : Tok ds ∈ pieces text ↔ occursToken text ds.
Proof.
  split.
  - remember (String.length text) as n eqn:Hn. revert text Hn.
    induction (lt_wf n) as [n _ IH]. intros text ->.
    destruct text as [|c s]; [by intros ?%elem_of_nil|].
    destruct (matchToken (String c s)) as [[ds' rest]|] eqn:E.
    + pose proof (matchToken_length _ _ _ E) as Hlen.
      pose proof E as (Hs & Hds & Hd)%matchToken_Some.
      rewrite (pieces_token _ _ _ E). intros [[= ->]|Hin]%elem_of_cons.
      * split_and!; [done..|]. exists "", rest. by rewrite Hs.
      * destruct (IH _ Hlen rest eq_refl Hin) as (? & ? & before & after & ->).
        split_and!; [done..|].
        exists ("{" +:+ ds' +:+ "}" +:+ before), after.
        rewrite Hs. by rewrite !append_assoc.
    + rewrite (pieces_char _ _ E). intros [[=]|Hin]%elem_of_cons.
      destruct (IH (String.length s)) with (text := s)
        as (? & ? & before & after & ->); [simpl; lia|done..|].
      split_and!; [done..|]. by exists (String c before), after.
  - intros (Hne & Hd & before & after & ->).
    remember (String.length before) as n eqn:Hn. revert before Hn.
    induction (lt_wf n) as [n _ IH]. intros before ->.
    destruct before as [|c before].
    { erewrite pieces_token; [left|]. by apply matchToken_Some. }
    destruct (matchToken (String c before +:+ "{" +:+ ds +:+ "}" +:+ after))
      as [[ds' rest]|] eqn:E.
    + rewrite (pieces_token _ _ _ E). right.
      apply matchToken_Some in E as (Hs & Hds' & Hd').
      simpl in Hs. injection Hs as -> Hs.
      assert (∃ before', before = ds' +:+ String "}" before' ∧
                rest = before' +:+ "{" +:+ ds +:+ "}" +:+ after)
        as (before' & -> & ->).
      { clear IH Hds'. revert before Hs.
        induction ds' as [|d ds' IHd]; intros [|b before]; simpl in *.
        - done.
        - intros [= -> <-]. by eexists.
        - intros [= <- _]. by apply andb_true_iff in Hd' as [? _].
        - intros [= -> Hs]. apply andb_true_iff in Hd' as [_ Hd'].
          destruct (IHd Hd' before Hs) as (b' & -> & ->). by eexists. }
      eapply IH; [|done]. simpl. rewrite length_append. simpl. lia.
    + assert (Hp : pieces (String c before +:+ "{" +:+ ds +:+ "}" +:+ after)
                   = Chr c :: pieces (before +:+ "{" +:+ ds +:+ "}" +:+ after))
        by exact (pieces_char _ _ E).
      rewrite Hp. right. eapply IH; [|done]. simpl. lia.
Qed.

(** *** The tokens of a text after a substitution *)

(** Whether a character opens a token depends on the characters up to the
    next token only; renaming tokens does not change it. *)
Lemma matchToken_None_iff c s :
  matchToken (String c s) = None ↔
  c ≠ "{"%char ∨ (span isDigit s).1 = "" ∨ closes (span isDigit s).2 = false.
Proof.
  unfold matchToken. destruct (decide (c = "{"%char)) as [->|Hc]; cycle 1.
  { split; [auto|]. intros _. by destruct c as [[] [] [] [] [] [] [] []]. }
  destruct (span isDigit s) as [[|d a] b]; simpl.
  - split; [auto|done].
  - destruct b as [|x b]; simpl; [split; [auto|done]|].
    destruct (decide (x = "}"%char)) as [->|Hx]; simpl.
    + split; [done|]. by intros [|[|]].
    + split; [intros _|intros _]; by destruct x as [[] [] [] [] [] [] [] []]; auto.
Qed.

Lemma span_rename_pieces o n (ps : list piece) :
  (span isDigit (concatStrings (pieceText <$> (renameToken o n <$> ps)))).1
  = (span isDigit (concatStrings (pieceText <$> ps))).1 ∧
  closes (span isDigit (concatStrings (pieceText <$> (renameToken o n <$> ps)))).2
  = closes (span isDigit (concatStrings (pieceText <$> ps))).2.
Proof.
  induction ps as [|[ds|c] ps [IH1 IH2]]; [done| |].
  - rewrite !fmap_cons. cbn [concatStrings renameToken].
    by case_bool_decide.
  - rewrite !fmap_cons. cbn [concatStrings renameToken pieceText]. simpl.
    destruct (isDigit c); [|done].
    destruct (span isDigit (concatStrings (pieceText <$> (renameToken o n <$> ps)))),
             (span isDigit (concatStrings (pieceText <$> ps))).
    simpl in *. by subst.
Qed.

Lemma renderWith_rename o n p :
  renderWith o ("{" +:+ n +:+ "}") p = pieceText (renameToken o n p).
Proof. destruct p as [ds|c]; simpl; [by case_bool_decide|done]. Qed.

(** After the substitution of [{n}] for [{o}] the text has the same pieces,
    with the tokens [{o}] renamed. *)
Lemma pieces_substituteToken o n text :
  n ≠ "" → allDigits n = true →
  pieces (substituteToken o ("{" +:+ n +:+ "}") text)
  = renameToken o n <$> pieces text.
Proof.
  intros Hn Hdn. unfold substituteToken.
  rewrite (list_fmap_ext _ (pieceText ∘ renameToken o n) (pieces text))
    by (intros; apply renderWith_rename).
  rewrite list_fmap_compose.
  remember (String.length text) as k eqn:Hk. revert text Hk.
  induction (lt_wf k) as [k _ IH]. intros text ->.
  destruct text as [|c s]; [done|].
  destruct (matchToken (String c s)) as [[ds rest]|] eqn:E.
  - pose proof (matchToken_length _ _ _ E) as Hlen.
    pose proof E as (Hs & Hds & Hd)%matchToken_Some.
    rewrite (pieces_token _ _ _ E), !fmap_cons. cbn [concatStrings].
    rewrite <-(IH _ Hlen rest eq_refl) at 2.
    assert (∃ ds', renameToken o n (Tok ds) = Tok ds' ∧ ds' ≠ "" ∧ allDigits ds' = true)
      as (ds' & -> & Hne' & Hd').
    { simpl. case_bool_decide; eauto. }
    apply pieces_token, matchToken_Some. cbn [pieceText].
    by rewrite !append_assoc.
  - rewrite (pieces_char _ _ E), !fmap_cons. cbn [concatStrings renameToken pieceText].
    simpl. rewrite pieces_char.
    + f_equal. eapply IH; [|done]. simpl. lia.
    + apply matchToken_None_iff. apply matchToken_None_iff in E.
      rewrite <-(pieces_text s) in E.
      destruct (span_rename_pieces o n (pieces s)) as [-> ->]. done.
Qed.

End strings.

(** ** Token values and their strings *)

Section tokenStrings.

#[local] Arguments String.append !_ _ / : simpl nomatch.

Lemma isDigit_plain c :
  isDigit c = true →
  isWhiteSpace c = false ∧
  c ≠ "+"%char ∧ c ≠ "-"%char ∧ c ≠ "."%char ∧ c ≠ "I"%char ∧
  c ≠ "e"%char ∧ c ≠ "E"%char ∧
  c ≠ "x"%char ∧ c ≠ "X"%char ∧ c ≠ "o"%char ∧ c ≠ "O"%char ∧
  c ≠ "b"%char ∧ c ≠ "B"%char.
Proof.
  destruct c as [[] [] [] [] [] [] [] []]; vm_compute; intros H;
    try discriminate H; by repeat split.
Qed.

Lemma trimEnd_digits s : allDigits s = true → trimEnd s = s.
Proof.
  induction s as [|c s IH]; simpl; [done|].
  intros [Hc Hs]%andb_true_iff. apply isDigit_plain in Hc as [-> _].
  simpl. by rewrite IH.
Qed.

(** [Number(original)] for a property name [original] is its token value. *)
Lemma Number_tokenString n : Number (tokenString n) = ofN n.
Proof.
  destruct (tokenString_digits n) as [Hne Hd].
  pose proof (digitsValue_tokenString n) as Hval.
  destruct (tokenString n) as [|c s] eqn:Es; [done|].
  pose proof Hd as [Hc Hs]%andb_true_iff.
  pose proof (isDigit_plain c Hc)
    as (Hws & Hplus & Hminus & Hdot & HI & _).
  unfold Number. cbn [trimStart]. rewrite Hws, trimEnd_digits by done.
  assert (nonDecimalRadix (String c s) = None) as ->.
  { unfold nonDecimalRadix. destruct s as [|c' s]; [by repeat case_match|].
    apply andb_true_iff in Hs as [Hc' _].
    pose proof (isDigit_plain c' Hc') as (_ & _ & _ & _ & _ & _ & _ & ? & ? & ? & ? & ? & ?).
    repeat (rewrite bool_decide_eq_false_2 by done). simpl. by repeat case_match. }
  unfold strDecimalLiteral.
  assert (signOf (String c s) = (1, String c s)) as ->.
  { unfold signOf. by repeat case_match. }
  rewrite bool_decide_eq_false_2 by (intros [= -> _]; done).
  unfold unsignedDecimal. rewrite span_allDigits_all by done.
  rewrite append_nil_r, Hval. simpl.
  unfold mkFinite, ofN. simpl. f_equal. lia.
Qed.

Lemma zeros_allZeros s : stripZeros s = "" → zeros (String.length s) = s.
Proof.
  induction s as [|c s IH]; simpl; [done|].
  case_bool_decide as Hc; simpl; [|done]. subst.
  case_bool_decide as Ht; simpl; [|done]. intros _. by rewrite IH.
Qed.

Lemma stripZeros_zeros s :
  stripZeros s +:+ zeros (String.length s - String.length (stripZeros s)) = s.
Proof.
  induction s as [|c s IH]; simpl; [done|].
  destruct (bool_decide (c = "0"%char) && bool_decide (stripZeros s = "")) eqn:E.
  - apply andb_true_iff in E as [->%bool_decide_eq_true Ht%bool_decide_eq_true].
    simpl. by rewrite zeros_allZeros.
  - simpl. by rewrite IH.
Qed.

Lemma length_stripZeros s : (String.length (stripZeros s) ≤ String.length s)%nat.
Proof.
  induction s as [|c s IH]; simpl; [done|].
  destruct (_ && _); simpl; lia.
Qed.

(** [toString()] on a token value below [10^21] writes its digits. *)
Lemma toString_ofN n : (n < 10 ^ 21)%N → toString (ofN n) = tokenString n.
Proof.
  intros Hn. unfold toString, ofN.
  destruct (Z.eqb_spec (Z.of_N n) 0) as [Hz|Hz].
  { by replace n with 0%N by lia. }
  assert (pretty (Z.abs (Z.of_N n)) = tokenString n) as ->.
  { rewrite Z.abs_eq by lia. by destruct n. }
  destruct (Z.ltb_spec (Z.of_N n) 0) as [|_]; [lia|]. simpl.
  pose proof (length_tokenString n 21 eq_refl Hn) as Hlen.
  pose proof (length_stripZeros (tokenString n)) as Hk.
  unfold printDigits.
  rewrite (proj2 (Z.leb_le _ _)) by lia.
  rewrite (proj2 (Z.leb_le _ _)) by lia. simpl.
  replace (Z.to_nat _) with
    (String.length (tokenString n) - String.length (stripZeros (tokenString n)))%nat
    by lia.
  apply stripZeros_zeros.
Qed.

End tokenStrings.

(** ** Sorting *)

Section sorting.

Context {A : Type} (key : A → N).

Lemma insertBy_perm x l : insertBy key x l ≡ₚ x :: l.
Proof.
  induction l as [|y l IH]; simpl; [done|].
  destruct (key x <=? key y)%N; [done|]. by rewrite IH, Permutation_swap.
Qed.

Lemma sortBy_perm l : sortBy key l ≡ₚ l.
Proof.
  induction l as [|x l IH]; simpl; [done|].
  unfold sortBy in *. simpl. by rewrite insertBy_perm, IH.
Qed.

Lemma insertBy_sorted x l : Sorted (keyLe key) l → Sorted (keyLe key) (insertBy key x l).
Proof.
  induction 1 as [|y l Hs IH Hhd]; simpl.
  { by repeat constructor. }
  destruct (N.leb_spec (key x) (key y)) as [Hle|Hlt].
  - by repeat constructor.
  - constructor; [done|]. destruct Hhd as [|z l Hz]; simpl.
    + constructor. unfold keyLe. lia.
    + destruct (key x <=? key z)%N; constructor; unfold keyLe in *; lia.
Qed.

Lemma sortBy_sorted l : Sorted (keyLe key) (sortBy key l).
Proof.
  induction l as [|x l IH]; [constructor|]. by apply insertBy_sorted.
Qed.

End sorting.

Lemma sortNumbers_sorted l : Sorted N.le (sortNumbers l).
Proof. apply (sortBy_sorted id). Qed.

Lemma sortNumbers_perm l : sortNumbers l ≡ₚ l.
Proof. apply sortBy_perm. Qed.

(** Sorting forgets the order of the input. *)
Lemma sortNumbers_proper l1 l2 : l1 ≡ₚ l2 → sortNumbers l1 = sortNumbers l2.
Proof.
  intros Hp. apply (Sorted_unique N.le); [apply sortNumbers_sorted..|].
  by rewrite !sortNumbers_perm.
Qed.

Lemma sortNumbers_eq_perm l1 l2 : sortNumbers l1 = sortNumbers l2 ↔ l1 ≡ₚ l2.
Proof.
  split; [|apply sortNumbers_proper].
  intros Heq. by rewrite <-(sortNumbers_perm l1), Heq, sortNumbers_perm.
Qed.

(** ** The token extractor *)

Section extractor.

#[local] Arguments String.append !_ _ / : simpl nomatch.

Lemma removeBraces_digits ds :
  allDigits ds = true → removeBraces (ds +:+ "}") = ds.
Proof.
  induction ds as [|d ds IH]; simpl; [done|].
  intros [Hd Hds]%andb_true_iff. apply isDigit_not_brace in Hd as [H1 H2].
  rewrite !bool_decide_eq_false_2 by done. simpl. by rewrite IH.
Qed.

Lemma parseInt_match ds :
  allDigits ds = true → parseInt (removeBraces ("{" +:+ ds +:+ "}")) = digitsToN ds.
Proof.
  intros Hds. simpl. rewrite removeBraces_digits by done.
  unfold parseInt, digitsToN. by rewrite span_allDigits_all.
Qed.

Lemma matches_values text :
  (λ m, parseInt (removeBraces m)) <$> matchTokens text = tokenValues text.
Proof.
  rewrite matchTokens_pieces. unfold tokenValues.
  assert (Hd : ∀ ds, Tok ds ∈ pieces text → allDigits ds = true).
  { by intros ds (_ & ? & _)%pieces_occurs. }
  induction (pieces text) as [|[ds|c] ps IH]; [done| |].
  - csimpl. f_equal; [apply parseInt_match, Hd; left|].
    apply IH. intros ds' Hin. apply Hd. by right.
  - csimpl. apply IH. intros ds' Hin. apply Hd. by right.
Qed.

Lemma extractNumbers_values text :
  extractNumbers text
  = match tokenValues text with
    | [] => None
    | values => Some (sortNumbers values)
    end.
Proof.
  unfold extractNumbers. rewrite <-matches_values.
  by destruct (matchTokens text).
Qed.

Lemma tokenValues_occurs text n :
  n ∈ tokenValues text ↔ ∃ ds, occursToken text ds ∧ n = digitsToN ds.
Proof.
  unfold tokenValues. rewrite list_elem_of_omap. split.
  - intros ([ds|c] & Hin & [= <-]). exists ds. split; [|done].
    by apply pieces_occurs.
  - intros (ds & Hocc & ->). exists (Tok ds). split; [|done].
    by apply pieces_occurs.
Qed.

End extractor.

(** ** The apply step *)

Lemma applyReplacements_fold (paramReplacements : numericGroup) (text : string) :
  applyReplacements paramReplacements text
  = foldl (λ newText '(original, newValue),
             if bool_decide (ofN original ≠ newValue) then
               substituteToken (tokenString original)
                               ("{" +:+ toString newValue +:+ "}") newText
             else newText) text paramReplacements.
Proof.
  unfold applyReplacements. revert text.
  induction paramReplacements as [|[o n] m IH]; intros text; [done|].
  cbn [foldl]. rewrite IH. f_equal.
  destruct (strict_neq (ofN o) n) eqn:E.
  - apply strict_neq_ofN_l in E. rewrite bool_decide_eq_true_2 by done.
    destruct (tokenString_digits o). by apply replaceAll_substituteToken.
  - rewrite bool_decide_eq_false_2; [done|].
    intros Hne%strict_neq_ofN_l. congruence.
Qed.

(** ** The comparator *)

Section comparator.

#[local] Arguments String.append !_ _ / : simpl nomatch.

(** [JSON.stringify] tells two arrays of token values apart. *)
Lemma join_cons_tail s l :
  ∃ c r, isDigit c = false ∧
    joinStrings "," (s :: l) +:+ "]" = s +:+ String c r ∧
    match l with
    | [] => c = "]"%char ∧ r = ""
    | _ => c = ","%char ∧ r = joinStrings "," l +:+ "]"
    end.
Proof.
  destruct l as [|s' l].
  - exists "]"%char, "". by split_and!.
  - exists ","%char, (joinStrings "," (s' :: l) +:+ "]"). split_and!; [done| |done..].
    cbn [joinStrings]. by rewrite !append_assoc.
Qed.

Lemma joinStrings_inj l1 : ∀ l2,
  joinStrings "," (tokenString <$> l1) +:+ "]"
  = joinStrings "," (tokenString <$> l2) +:+ "]" → l1 = l2.
Proof.
  induction l1 as [|x l1 IH]; intros [|y l2]; [done| | |].
  - rewrite fmap_cons.
    destruct (join_cons_tail (tokenString y) (tokenString <$> l2)) as (c & r & _ & -> & _).
    destruct (tokenString_digits y) as [Hne Hd].
    destruct (tokenString y) as [|d ds]; [done|]. simpl in *.
    intros [= <-]. by apply andb_true_iff in Hd as [? _].
  - rewrite fmap_cons.
    destruct (join_cons_tail (tokenString x) (tokenString <$> l1)) as (c & r & _ & -> & _).
    destruct (tokenString_digits x) as [Hne Hd].
    destruct (tokenString x) as [|d ds]; [done|]. simpl in *.
    intros [= ->]. by apply andb_true_iff in Hd as [? _].
  - rewrite !fmap_cons.
    destruct (join_cons_tail (tokenString x) (tokenString <$> l1))
      as (c & r & Hc & -> & Hl1).
    destruct (join_cons_tail (tokenString y) (tokenString <$> l2))
      as (c' & r' & Hc' & -> & Hl2).
    intros (Hxy & <- & <-)%digits_stop_inj;
      [|apply tokenString_digits..|done|done].
    apply (inj pretty) in Hxy as <-. f_equal.
    destruct l1 as [|x1 l1], l2 as [|y1 l2]; [done| | |].
    + destruct Hl1 as [-> _], Hl2 as [[=] _].
    + destruct Hl1 as [-> _], Hl2 as [[=] _].
    + apply IH. destruct Hl1 as [_ ->], Hl2 as [_ Heq]. by rewrite !fmap_cons.
Qed.

Lemma JSON_stringify_inj l1 l2 : JSON_stringify l1 = JSON_stringify l2 → l1 = l2.
Proof. unfold JSON_stringify. simpl. intros [= H]. by apply joinStrings_inj. Qed.

Lemma differs_spec base current :
  differs base current = true ↔ ¬ current ≡ₚ base.
Proof.
  unfold differs. rewrite negb_true_iff, String.eqb_neq, <-sortNumbers_eq_perm.
  split.
  - intros Hne Heq. by rewrite Heq in Hne.
  - intros Hne Heq%JSON_stringify_inj. by rewrite Heq in Hne.
Qed.

Lemma includes_spec sel id : includes sel id = true ↔ id ∈ sel.
Proof. apply bool_decide_eq_true. Qed.

Lemma discrepancy_Some sel base p :
  is_Some (discrepancy sel base p) ↔ fieldId p ∈ sel ∧ ¬ parameters p ≡ₚ base.
Proof.
  unfold discrepancy. rewrite <-includes_spec, <-differs_spec.
  destruct (includes sel (fieldId p)), (differs base (parameters p)); simpl;
    split; (intros [] || intros [? ?]); done || eauto.
Qed.

Lemma findDifferences_nonempty sel params :
  (0 < length (findDifferences sel params))%nat ↔ inconsistent sel params.
Proof.
  unfold inconsistent. destruct params as [|base others]; simpl.
  { split; [lia|]. by intros (? & ? & ? & ? & _). }
  split.
  - intros Hlen.
    destruct (omap _ others) as [|d ds] eqn:E; [simpl in Hlen; lia|].
    assert (d ∈ omap (discrepancy sel (parameters base)) others) as
      (p & Hp & Hd)%list_elem_of_omap by (rewrite E; left).
    exists base, others, p. split_and!; [done..| |];
      by apply (discrepancy_Some sel (parameters base) p).
  - intros (? & ? & p & [= <- <-] & Hp & Hsel & Hperm).
    destruct (discrepancy_Some sel (parameters base) p) as [_ [d Hd]]; [done|].
    assert (d ∈ omap (discrepancy sel (parameters base)) others)
      by (apply list_elem_of_omap; eauto).
    destruct (omap _ others); [by apply elem_of_nil in H|simpl; lia].
Qed.

(** What one record contributes to the result. *)
Lemma compareRecord_report sel fl m0 metas r :
  let params := extractParametersFromRecord r fl (m0 :: metas) in
  ∃ o, compareRecord sel fl (m0 :: metas) r = Ok o ∧
    ∀ c, o = Some c ↔
      (2 ≤ length params)%nat ∧ inconsistent sel params ∧
      c = {| cmp_recordId := recordId r;
             cmp_recordName := recordNameOf m0 r;
             differences := allFieldParams sel params |}.
Proof.
  intros params. unfold compareRecord. fold params.
  destruct (Nat.ltb_spec (length params) 2) as [Hlt|Hge].
  { exists None. split; [done|]. intros c. split; [done|]. lia. }
  pose proof (findDifferences_nonempty sel params) as Hd.
  destruct (Nat.ltb_spec 0 (length (findDifferences sel params))) as [Hpos|Hzero].
  - eexists. split; [done|]. intros c. split.
    + intros [= <-]. split_and!; [done|by apply Hd|done].
    + by intros (_ & _ & ->).
  - exists None. split; [done|]. intros c. split; [done|].
    intros (_ & Hinc%Hd & _). lia.
Qed.

Lemma compareRecords_found sel fl m0 metas total : ∀ rs n comps log,
  ∃ found log',
    compareRecords sel fl (m0 :: metas) total rs n comps log
    = (Ok (comps ++ found), log') ∧
    ∀ c, c ∈ found ↔
      ∃ r, r ∈ rs ∧ compareRecord sel fl (m0 :: metas) r = Ok (Some c).
Proof.
  induction rs as [|r rs IH]; intros n comps log.
  { exists [], log. rewrite app_nil_r. split; [done|]. intros c.
    split; [by intros ?%elem_of_nil|]. by intros (r & ?%elem_of_nil & _). }
  cbn [compareRecords].
  destruct (compareRecord_report sel fl m0 metas r) as (o & Ho & _).
  rewrite Ho. destruct o as [c0|].
  - edestruct IH as (found & log' & -> & Hfound).
    exists (c0 :: found), log'. rewrite <-app_assoc. split; [done|].
    intros c. rewrite elem_of_cons, Hfound. split.
    + intros [->|(r' & Hr' & Hc)]; [exists r; split; [left|done]|].
      exists r'. split; [by right|done].
    + intros (r' & [->|Hr']%elem_of_cons & Hc); [left; congruence|].
      right. eauto.
  - edestruct IH as (found & log' & -> & Hfound).
    exists found, log'. split; [done|].
    intros c. rewrite Hfound. split.
    + intros (r' & Hr' & Hc). exists r'. split; [by right|done].
    + intros (r' & [->|Hr']%elem_of_cons & Hc); [congruence|eauto].
Qed.

(** C8. A field past the first whose tokens are a reordering of the first
    field's is no discrepancy: the loop pushes nothing for it, and no entry
    of [differences] carries its tokens. *)
Theorem permuted_field_is_no_discrepancy
    (selected : list string) (base : ParameterInfo)
    (others : list ParameterInfo) (p : ParameterInfo) :
  p ∈ others → parameters p ≡ₚ parameters base →
  discrepancy selected (parameters base) p = None ∧
  ∀ d, d ∈ findDifferences selected (base :: others) → actual d ≠ parameters p.
Proof.
  intros Hp Hperm. split.
  - destruct (discrepancy _ _ p) eqn:E; [|done].
    by destruct (discrepancy_Some selected (parameters base) p) as [[_ []] _].
  - intros d (p' & _ & Hd)%list_elem_of_omap Heq.
    destruct (discrepancy_Some selected (parameters base) p') as [[_ Hne] _]; [by eexists|].
    unfold discrepancy in Hd. case_match; [|done]. injection Hd as <-.
    simpl in Heq. apply Hne. by rewrite Heq.
Qed.

Lemma permuted_field_is_no_discrepancy_witness :
  let A := {| fieldName := "A"; fieldId := "fA"; parameters := [1; 2]%N; order := 1 |} in
  let B := {| fieldName := "B"; fieldId := "fB"; parameters := [2; 1]%N; order := 2 |} in
  discrepancy ["fA"; "fB"] (parameters A) B = None ∧
  ∀ d, d ∈ findDifferences ["fA"; "fB"] [A; B] → actual d ≠ parameters B.
Proof.
  intros A B. apply (permuted_field_is_no_discrepancy ["fA"; "fB"] A [B] B).
  - left.
  - apply Permutation_swap.
Defined.

Lemma findDifferences_empty_selection params : findDifferences [] params = [].
Proof.
  destruct params as [|base others]; [done|]. simpl.
  induction others as [|q others IH]; [done|]. by csimpl.
Qed.

Lemma compareRecords_empty_selection fl ml total : ∀ rs n comps log,
  ∃ log', compareRecords [] fl ml total rs n comps log = (Ok comps, log').
Proof.
  induction rs as [|r rs IH]; intros n comps log; [by eexists|].
  cbn [compareRecords].
  assert (compareRecord [] fl ml r = Ok None) as ->; [|apply IH].
  unfold compareRecord. rewrite findDifferences_empty_selection.
  by case_match.
Qed.

(** C10. With no field selected, a run over a non-empty list of records
    that the host delivers publishes the empty list. *)
Theorem empty_selection_reports_nothing
    (fuel : nat) (host : Host) (st : AppState) (u v : unit)
    (fieldList : list IField) (metas : list FieldMeta)
    (allRecords : list IRecord) (log : list message) :
  selectedFields st = [] →
  getActiveTable host = Ok u → getActiveView host = Ok v →
  getFieldList host = Ok fieldList → getFieldMetaList host = Ok metas →
  fetchRecords fuel host None [] (floatingMessages st ++ [MsgStart])
    = Some (Ok allRecords, log) →
  allRecords ≠ [] →
  ∃ st', compareAllRecords fuel host st = Some st' ∧
         comparisons st' = [] ∧
         last (floatingMessages st') = Some (MsgDone 0).
Proof.
  intros Hsel Ht Hv Hf Hm Hfetch Hne.
  unfold compareAllRecords, compareAllRecordsBody.
  rewrite Hsel, Ht, Hv, Hf, Hm, Hfetch.
  destruct (compareRecords_empty_selection fieldList metas (length allRecords)
              allRecords 0 [] (log ++ [MsgFetched (length allRecords)]))
    as (log' & Hrun).
  destruct allRecords as [|r rs]; [done|]. rewrite Hrun.
  eexists. split; [done|]. split; [done|]. simpl. by rewrite last_snoc.
Qed.

Lemma empty_selection_reports_nothing_witness :
  ∃ st', compareAllRecords 3 (tableHost exampleTable)
           {| comparisons := []; isComparing := false;
              selectedFields := []; floatingMessages := [] |} = Some st' ∧
         comparisons st' = [] ∧
         last (floatingMessages st') = Some (MsgDone 0).
Proof.
  by eapply (empty_selection_reports_nothing 3 (tableHost exampleTable) _ tt tt);
    [reflexivity..|vm_compute; reflexivity|].
Defined.

End comparator.

(** ** Runs of the batch *)

(** A run on a host that answers publishes what the loop over the records
    found. *)
Lemma compareAllRecords_publishes_found
    (fuel : nat) (host : Host) (st : AppState) (u v : unit)
    (fieldList : list IField) (metas : list FieldMeta)
    (allRecords : list IRecord) (log log' : list message)
    (found : list RecordComparison) :
  getActiveTable host = Ok u → getActiveView host = Ok v →
  getFieldList host = Ok fieldList → getFieldMetaList host = Ok metas →
  fetchRecords fuel host None [] (floatingMessages st ++ [MsgStart])
    = Some (Ok allRecords, log) →
  allRecords ≠ [] →
  compareRecords (selectedFields st) fieldList metas (length allRecords)
    allRecords 0 [] (log ++ [MsgFetched (length allRecords)]) = (Ok found, log') →
  compareAllRecords fuel host st
  = Some {| comparisons := found;
            isComparing := false;
            selectedFields := selectedFields st;
            floatingMessages := log' ++ [MsgDone (length found)] |}.
Proof.
  intros Ht Hv Hf Hm Hfetch Hne Hrun.
  unfold compareAllRecords, compareAllRecordsBody.
  rewrite Ht, Hv, Hf, Hm, Hfetch.
  destruct allRecords as [|r rs]; [done|]. by rewrite Hrun.
Qed.

Example compareAllRecords_example :
  comparisons <$> compareAllRecords 2 (tableHost
    {| tableFields := exampleFields;
       tableMetas := exampleMetas;
       tableRecords := [ exampleRecord "r1" "row 1" "no token" "{1}";
                         exampleRecord "r2" "row 2" "{1}{2}" "{2}{1}";
                         exampleRecord "r3" "row 3" "{1}{2}" "{1}{3}" ] |})
    exampleApp
  = Some [ {| cmp_recordId := "r3";
              cmp_recordName := IndexText "row 3";
              differences := [("A", [1; 2]%N); ("B", [1; 3]%N)] |} ].
Proof. by vm_compute. Qed.

(** ** Failures of the host *)

Lemma fetchRecords_fails host e token :
  pagesFail host token e →
  ∃ n, ∀ fuel, (n ≤ fuel)%nat → ∀ allRecords log,
    ∃ log', fetchRecords fuel host token allRecords log = Some (Throw e, log').
Proof.
  induction 1 as [token e Hget|token response e Hget Hnext _ (n & IH)].
  - exists 1%nat. intros [|fuel] Hfuel allRecords log; [lia|].
    simpl. rewrite Hget. by eexists.
  - exists (S n). intros [|fuel] Hfuel allRecords log; [lia|].
    simpl. rewrite Hget, Hnext. apply IH. lia.
Qed.

(** Whatever happens, the published result is the one of before the run or
    the complete result of a run without an exception. *)
Lemma compareAllRecords_publishes fuel host st st' :
  compareAllRecords fuel host st = Some st' →
  comparisons st' = comparisons st ∨
  ∃ found log,
    compareAllRecordsBody fuel host (selectedFields st) (floatingMessages st)
      = Some (Ok (Some found), log) ∧ comparisons st' = found.
Proof.
  unfold compareAllRecords.
  destruct (compareAllRecordsBody _ _ _ _) as [[[[found|]|e] log]|]; [..|done];
    intros [= <-]; simpl; eauto.
Qed.

(** C9. When a call of the host fails during a run, the run ends (given
    fuel for the pages fetched before the failure) with the comparisons
    published before it untouched, [isComparing] reset and the error as its
    last message. *)
Theorem host_failure_keeps_published_result (host : Host) (e : string) :
  hostFails host e →
  ∃ n, ∀ fuel st, (n ≤ fuel)%nat →
    ∃ log, compareAllRecords fuel host st
           = Some {| comparisons := comparisons st;
                     isComparing := false;
                     selectedFields := selectedFields st;
                     floatingMessages := log ++ [MsgError e] |}.
Proof.
  intros Hfail. unfold compareAllRecords, compareAllRecordsBody.
  destruct Hfail as [e Ht|u e Ht Hv|u v e Ht Hv Hf|u v fl e Ht Hv Hf Hm
                    |u v fl ml e Ht Hv Hf Hm Hp].
  - exists 0%nat. intros fuel st _. rewrite Ht. by eexists.
  - exists 0%nat. intros fuel st _. rewrite Ht, Hv. by eexists.
  - exists 0%nat. intros fuel st _. rewrite Ht, Hv, Hf. by eexists.
  - exists 0%nat. intros fuel st _. rewrite Ht, Hv, Hf, Hm. by eexists.
  - destruct (fetchRecords_fails _ _ _ Hp) as (n & Hn).
    exists n. intros fuel st Hfuel. rewrite Ht, Hv, Hf, Hm.
    destruct (Hn fuel Hfuel [] (floatingMessages st ++ [MsgStart])) as (log' & ->).
    by eexists.
Qed.

Lemma host_failure_keeps_published_result_witness :
  ∃ n, ∀ fuel st, (n ≤ fuel)%nat →
    ∃ log, compareAllRecords fuel failingHost st
           = Some {| comparisons := comparisons st;
                     isComparing := false;
                     selectedFields := selectedFields st;
                     floatingMessages := log ++ [MsgError "rate limit"] |}.
Proof.
  apply (host_failure_keeps_published_result failingHost "rate limit").
  eapply fails_records; [reflexivity..|].
  eapply page_next; [reflexivity..|]. by apply page_fails.
Defined.

(** * The extractor and the comparator on the fields of a record *)

Section records.

Lemma safeText_tokenValues text :
  safeText text ↔ Forall (λ n, (n ≤ MAX_SAFE_INTEGER)%N) (tokenValues text).
Proof.
  unfold safeText. rewrite Forall_forall. split.
  - intros Hsafe n (ds & Hocc & ->)%tokenValues_occurs. eauto.
  - intros Hall ds Hocc. apply Hall, tokenValues_occurs. eauto.
Qed.

Lemma tokenValues_nil text :
  tokenValues text = [] ↔ ∀ ds, ¬ occursToken text ds.
Proof.
  split.
  - intros E ds Hocc.
    assert (Hin : digitsToN ds ∈ tokenValues text) by (apply tokenValues_occurs; eauto).
    rewrite E in Hin. by apply elem_of_nil in Hin.
  - intros Hno. destruct (tokenValues text) as [|n l] eqn:E; [done|].
    assert (n ∈ tokenValues text) as (ds & Hocc & _)%tokenValues_occurs
      by (rewrite E; left).
    by destruct (Hno ds).
Qed.

Lemma extractNumbers_Some text numbers :
  extractNumbers text = Some numbers ↔
  (∃ ds, occursToken text ds) ∧ numbers = sortNumbers (tokenValues text).
Proof.
  rewrite extractNumbers_values.
  destruct (tokenValues text) as [|n l] eqn:E.
  - split; [done|]. intros [[ds Hocc] _].
    by destruct (proj1 (tokenValues_nil text) E ds).
  - split.
    + intros [= <-]. split; [|done].
      assert (n ∈ tokenValues text) as (ds & Hocc & _)%tokenValues_occurs
        by (rewrite E; left).
      eauto.
    + by intros [_ ->].
Qed.

Lemma extractNumbers_None text :
  extractNumbers text = None ↔ ∀ ds, ¬ occursToken text ds.
Proof.
  rewrite <-tokenValues_nil, extractNumbers_values.
  by destruct (tokenValues text).
Qed.

(** A sorted list is determined by its elements. *)
Lemma sorted_perm_sortNumbers (numbers l : list N) :
  Sorted N.le numbers ∧ numbers ≡ₚ l ↔ numbers = sortNumbers l.
Proof.
  split.
  - intros [Hs Hp]. apply (Sorted_unique N.le); [done|apply sortNumbers_sorted|].
    by rewrite Hp, sortNumbers_perm.
  - intros ->. split; [apply sortNumbers_sorted|apply sortNumbers_perm].
Qed.

Lemma cellText_textCell record id text :
  cellText (fields record !! id) = Some text ↔ textCell record id text.
Proof.
  unfold textCell, cellText.
  destruct (fields record !! id) as [[[|[t|] rest]|]|]; split;
    try done; try (by intros [? [=]]).
  - intros [= ->]. by exists rest.
  - by intros [? [= -> _]].
Qed.

Lemma textCell_functional record id t1 t2 :
  textCell record id t1 → textCell record id t2 → t1 = t2.
Proof. intros [r1 H1] [r2 H2]. rewrite H1 in H2. by injection H2. Qed.

Lemma findMeta_viewPlace id metas i :
  findMeta id metas i
  = (λ '(j, meta), ((i + N.of_nat j)%N, meta)) <$> viewPlace metas id.
Proof.
  unfold viewPlace. revert i. induction metas as [|f metas IH]; intros i; [done|].
  cbn [findMeta list_find]. case_bool_decide as Hid.
  - rewrite decide_True by done. simpl. do 2 f_equal. lia.
  - rewrite decide_False by done. rewrite IH.
    destruct (list_find _ metas) as [[j meta]|]; [|done].
    simpl. do 2 f_equal. lia.
Qed.

(** What the loop of lines 522-544 pushes for a field. *)
Lemma extractField_spec record metas field p :
  extractField record metas field = Some p ↔
  ∃ text, bearsTokens record field text ∧
    p = {| fieldName := viewName metas (field_id field);
           fieldId := field_id field;
           parameters := sortNumbers (tokenValues text);
           order := viewOrder metas (field_id field) |}.
Proof.
  unfold extractField, bearsTokens, viewName, viewOrder.
  rewrite findMeta_viewPlace.
  destruct (cellText _) as [text|] eqn:Hcell.
  - apply cellText_textCell in Hcell.
    destruct (extractNumbers text) as [numbers|] eqn:Hnum.
    + apply extractNumbers_Some in Hnum as [Hocc ->]. split.
      * intros [= <-]. exists text. split; [done|].
        destruct (viewPlace metas (field_id field)) as [[j meta]|]; simpl; [|done].
        f_equal.
      * intros (text' & [Hcell' _] & ->).
        rewrite (textCell_functional _ _ _ _ Hcell Hcell').
        destruct (viewPlace metas (field_id field)) as [[j meta]|]; simpl; [|done].
        do 2 f_equal.
    + split; [done|]. intros (text' & [Hcell' [ds Hocc]] & _).
      rewrite (textCell_functional _ _ _ _ Hcell Hcell') in Hnum.
      by destruct (proj1 (extractNumbers_None text') Hnum ds).
  - split; [done|]. intros (text & [Hcell' _] & _).
    apply cellText_textCell in Hcell'. congruence.
Qed.

Lemma elem_of_extractParameters record fieldList metas p :
  p ∈ extractParametersFromRecord record fieldList metas ↔
  ∃ field, field ∈ fieldList ∧ extractField record metas field = Some p.
Proof.
  unfold extractParametersFromRecord. rewrite sortBy_perm.
  apply list_elem_of_omap.
Qed.

End records.

(** C7. On a text whose tokens have values of at most [2^53 - 1] (those that
    [parseInt] reads exactly), the extractor returns the values of the
    tokens [{digits}] that occur in the text, every occurrence once, in
    ascending order; no token, no result.  Two texts whose tokens are a
    reordering of each other give the same result, and ["{3}{1}{2}"] gives
    [1, 2, 3].  This is what [extractParametersFromRecord] records as the
    [parameters] of a field whose cell starts with this text, and all it
    records comes from such a cell. *)
Theorem extractNumbers_sorted_tokens (text : string) :
  safeText text →
  (extractNumbers text = None ↔ ∀ ds, ¬ occursToken text ds) ∧
  (∀ numbers, extractNumbers text = Some numbers →
     Sorted N.le numbers ∧ numbers ≡ₚ tokenValues text) ∧
  (∀ n, n ∈ tokenValues text ↔ ∃ ds, occursToken text ds ∧ n = digitsToN ds) ∧
  (∀ text', safeText text' → tokenValues text ≡ₚ tokenValues text' →
     extractNumbers text = extractNumbers text') ∧
  (∀ record fieldList metas field,
     field ∈ fieldList → textCell record (field_id field) text →
     parameters <$> extractField record metas field = extractNumbers text ∧
     ∀ numbers, extractNumbers text = Some numbers →
       ∃ p, p ∈ extractParametersFromRecord record fieldList metas ∧
            fieldId p = field_id field ∧ parameters p = numbers) ∧
  (∀ record fieldList metas p,
     p ∈ extractParametersFromRecord record fieldList metas →
     ∃ field text', field ∈ fieldList ∧ bearsTokens record field text' ∧
       fieldId p = field_id field ∧ extractNumbers text' = Some (parameters p)) ∧
  extractNumbers "{3}{1}{2}" = Some [1; 2; 3]%N.
Proof.
  intros _. split_and!.
  - apply extractNumbers_None.
  - intros numbers [_ ->]%extractNumbers_Some. by apply sorted_perm_sortNumbers.
  - apply tokenValues_occurs.
  - intros text' _ Hp. rewrite !extractNumbers_values.
    pose proof (sortNumbers_proper _ _ Hp) as Hs.
    destruct (tokenValues text) as [|n l], (tokenValues text') as [|n' l']; try done.
    + by apply Permutation_nil_cons in Hp.
    + symmetry in Hp. by apply Permutation_nil_cons in Hp.
    + by rewrite Hs.
  - intros record fieldList metas field Hin Hcell.
    assert (Hfield : ∀ numbers, extractNumbers text = Some numbers →
              ∃ p, extractField record metas field = Some p ∧
                fieldId p = field_id field ∧ parameters p = numbers).
    { intros numbers [Hocc ->]%extractNumbers_Some. eexists.
      split; [apply extractField_spec; exists text; by split|done]. }
    split.
    + destruct (extractNumbers text) as [numbers|] eqn:Hnum.
      * destruct (Hfield numbers eq_refl) as (p & -> & _ & <-). done.
      * destruct (extractField record metas field) as [p|] eqn:Hp; [|done].
        apply extractField_spec in Hp as (text' & [Hcell' [ds Hocc]] & _).
        rewrite (textCell_functional _ _ _ _ Hcell' Hcell) in Hocc.
        by destruct (proj1 (extractNumbers_None text) Hnum ds).
    + intros numbers (p & Hp & Hid & Hnum)%Hfield. exists p.
      split; [|done]. apply elem_of_extractParameters. eauto.
  - intros record fieldList metas p (field & Hin & Hp)%elem_of_extractParameters.
    apply extractField_spec in Hp as (text' & Hbears & ->).
    exists field, text'. split_and!; [done..|].
    apply extractNumbers_Some. split; [apply Hbears|done].
  - by vm_compute.
Qed.

Lemma extractNumbers_sorted_tokens_witness :
  Sorted N.le [1; 2; 3]%N ∧ [1; 2; 3]%N ≡ₚ tokenValues "{3}{1}{2}".
Proof.
  assert (Hsafe : safeText "{3}{1}{2}").
  { apply safeText_tokenValues.
    assert (tokenValues "{3}{1}{2}" = [3; 1; 2]%N) as -> by (by vm_compute).
    unfold MAX_SAFE_INTEGER. repeat constructor; lia. }
  apply (extractNumbers_sorted_tokens "{3}{1}{2}" Hsafe). by vm_compute.
Defined.

(** * The apply step on a mapping of token values *)

Section renaming.

Lemma safe_toString n :
  (n ≤ MAX_SAFE_INTEGER)%N → toString (ofN n) = tokenString n.
Proof. intros Hn. apply toString_ofN. unfold MAX_SAFE_INTEGER in Hn. lia. Qed.

#[local] Instance tokenString_inj : Inj (=) (=) tokenString.
Proof. intros x y. unfold tokenString. apply (inj pretty). Qed.

(** One turn of the loop of lines 833-839. *)
Lemma pieces_applyEntry (o n : N) (text : string) :
  (n ≤ MAX_SAFE_INTEGER)%N →
  pieces (applyReplacements [(o, ofN n)] text)
  = (λ p, if bool_decide (o ≠ n)
          then renameToken (tokenString o) (tokenString n) p else p) <$> pieces text.
Proof.
  intros Hn. rewrite applyReplacements_fold. cbn [foldl].
  destruct (decide (o = n)) as [->|Hne].
  - rewrite (bool_decide_eq_false_2 (ofN n ≠ ofN n)) by (intros Hneq; by apply Hneq).
    rewrite (bool_decide_eq_false_2 (n ≠ n)) by (intros Hneq; by apply Hneq).
    by rewrite list_fmap_id.
  - rewrite (bool_decide_eq_true_2 (ofN o ≠ ofN n)) by (intros ?%(inj ofN); done).
    rewrite (bool_decide_eq_true_2 (o ≠ n)) by done.
    rewrite safe_toString by done.
    destruct (tokenString_digits n). by apply pieces_substituteToken.
Qed.

Lemma applyReplacements_cons o v rest text :
  applyReplacements ((o, v) :: rest) text
  = applyReplacements rest (applyReplacements [(o, v)] text).
Proof. done. Qed.

Lemma pieces_applyReplacements (m : list (N * N)) :
  safeMapping m → ∀ text,
  pieces (applyReplacements (tokenMapping m) text) = renameSeq m <$> pieces text.
Proof.
  induction 1 as [|[o n] m [_ Hn] _ IH]; intros text.
  - by rewrite list_fmap_id.
  - unfold tokenMapping. rewrite fmap_cons. fold (tokenMapping m).
    cbn [fst snd]. rewrite applyReplacements_cons, IH, pieces_applyEntry by done.
    rewrite <-list_fmap_compose. done.
Qed.

Lemma renameSeq_cons o n m p :
  renameSeq ((o, n) :: m) p
  = renameSeq m (if bool_decide (o ≠ n)
                 then renameToken (tokenString o) (tokenString n) p else p).
Proof. done. Qed.

Lemma renameSeq_Chr m c : renameSeq m (Chr c) = Chr c.
Proof.
  induction m as [|[o n] m IH]; [done|].
  rewrite renameSeq_cons. by destruct (bool_decide _).
Qed.

Lemma newName_fresh m ds :
  (∀ o n, (o, n) ∈ m → o ≠ n → ds ≠ tokenString o) → newName m ds = ds.
Proof.
  induction m as [|[o n] m IH]; intros Hfresh; [done|]. simpl.
  case_bool_decide as Hne; simpl.
  - rewrite bool_decide_eq_false_2 by (apply (Hfresh o n); [left|done]).
    apply IH. intros o' n' Hin. apply Hfresh. by right.
  - apply IH. intros o' n' Hin. apply Hfresh. by right.
Qed.

Lemma newName_entry m o n :
  NoDup m.*1 → (o, n) ∈ m → o ≠ n → newName m (tokenString o) = tokenString n.
Proof.
  induction m as [|[o' n'] m IH]; intros Hnd Hin Hne.
  - by apply elem_of_nil in Hin.
  - rewrite fmap_cons in Hnd. apply NoDup_cons in Hnd as [Ho' Hnd].
    apply elem_of_cons in Hin as [[= <- <-]|Hin]; simpl.
    + by rewrite !bool_decide_eq_true_2.
    + assert (o ≠ o').
      { intros <-. apply Ho', list_elem_of_fmap. by exists (o, n). }
      rewrite (bool_decide_eq_false_2 (tokenString o = tokenString o'))
        by (intros ?%(inj tokenString); done).
      rewrite andb_false_r. by apply IH.
Qed.

(** On a resolved mapping the entries taken in turn act as taken at once. *)
Lemma renameSeq_noChain m :
  noChain m → ∀ p, renameSeq m p = renameAll m p.
Proof.
  induction m as [|[o n] m IH]; intros Hm p; [by destruct p|].
  destruct Hm as [Hn Hm]. destruct p as [ds|c]; [|apply renameSeq_Chr].
  rewrite renameSeq_cons, IH by done. cbn [renameAll newName renameToken].
  destruct (decide (o = n)) as [->|Hne].
  - by rewrite (bool_decide_eq_false_2 (n ≠ n)) by (intros Hneq; by apply Hneq).
  - rewrite (bool_decide_eq_true_2 (o ≠ n)) by done. cbn [andb].
    case_bool_decide as Hds; [|done]. cbn [renameAll]. f_equal.
    apply newName_fresh. intros o' n' Hin Hne' ?%(inj tokenString).
    by apply (Hn Hne o' n').
Qed.

End renaming.

(** C5. For a mapping of token values (keys and new values of at most
    [2^53 - 1], keys distinct), the apply step produces the text in which
    the entries have renamed the tokens one after the other, each entry
    whose new value differs from its key renaming every token [{original}]
    of the text so far to [{newValue}]; a token is a literal occurrence of
    [{digits}] and the pieces make up the text.  On a resolved mapping,
    where no new value is the key of a later entry that changes its token,
    this is the replacement of all entries at once: every token
    [{original}] of the text becomes [{newValue}], and every other piece,
    [{12}] when [{1}] is replaced, stays as it is.  When a new value is
    such a key, the later entry renames it again: [{1: 2, 2: 3}] makes
    [{3}{3}] of [{1}{2}].  The text it is given is a value; the result is a
    new one. *)
Theorem applyReplacements_exact_tokens (m : list (N * N)) (text : string) :
  NoDup m.*1 → safeMapping m →
  let newText := applyReplacements (tokenMapping m) text in
  (∀ s, concatStrings (pieceText <$> pieces s) = s ∧
        ∀ ds, Tok ds ∈ pieces s ↔ occursToken s ds) ∧
  pieces newText = renameSeq m <$> pieces text ∧
  (noChain m →
     pieces newText = renameAll m <$> pieces text ∧
     (∀ o n, (o, n) ∈ m → o ≠ n →
        renameAll m (Tok (tokenString o)) = Tok (tokenString n)) ∧
     (∀ p, (∀ o n, (o, n) ∈ m → o ≠ n → p ≠ Tok (tokenString o)) →
        renameAll m p = p)) ∧
  applyReplacements [(1%N, Int 5)] "{1}, {12}, {21} and {1}"
  = "{5}, {12}, {21} and {5}" ∧
  applyReplacements [(1%N, Int 2); (2%N, Int 3)] "{1}{2}" = "{3}{3}".
Proof.
  intros Hnd Hsafe newText. split_and!.
  - intros s. split; [apply pieces_text|apply pieces_occurs].
  - by apply pieces_applyReplacements.
  - intros Hm. split_and!.
    + subst newText. rewrite pieces_applyReplacements by done.
      apply list_fmap_ext. intros _ p _. by apply renameSeq_noChain.
    + intros o n Hin Hne. simpl. f_equal. by apply newName_entry.
    + intros [ds|c] Hp; [|done]. simpl. f_equal. apply newName_fresh.
      intros o n Hin Hne ->. by apply (Hp o n).
  - by vm_compute.
  - by vm_compute.
Qed.

Lemma applyReplacements_exact_tokens_witness :
  pieces (applyReplacements (tokenMapping [(1, 5)]%N) "{1}, {12}, {21} and {1}")
  = renameAll [(1, 5)]%N <$> pieces "{1}, {12}, {21} and {1}".
Proof.
  apply (applyReplacements_exact_tokens [(1, 5)]%N "{1}, {12}, {21} and {1}").
  - apply NoDup_singleton.
  - unfold safeMapping, MAX_SAFE_INTEGER.
    constructor; [split; simpl; lia|constructor].
  - split; [|done]. by intros _ o' n' ?%elem_of_nil.
Defined.

(** * The baseline of a record *)

Section first_least.
Context {A : Type} (key : A → N).

Lemma insertBy_least x l :
  Sorted (keyLe key) l → (∀ y, y ∈ l → (key x ≤ key y)%N) →
  insertBy key x l = x :: l.
Proof.
  intros _ Hle. destruct l as [|y l]; [done|]. simpl.
  destruct (N.leb_spec (key x) (key y)) as [|Hlt]; [done|].
  specialize (Hle y (list_elem_of_here _ _)). lia.
Qed.

(** A stable sort puts first the first of the least elements. *)
Lemma sortBy_first_least l1 x l2 :
  (∀ y, y ∈ l1 → (key x < key y)%N) →
  (∀ y, y ∈ l2 → (key x ≤ key y)%N) →
  sortBy key (l1 ++ x :: l2) = x :: sortBy key (l1 ++ l2).
Proof.
  intros H1 H2. induction l1 as [|y l1 IH].
  - simpl. change (foldr (insertBy key) [] l2) with (sortBy key l2).
    apply insertBy_least; [apply sortBy_sorted|].
    intros y Hy. rewrite sortBy_perm in Hy. by apply H2.
  - simpl. change (foldr (insertBy key) [] (l1 ++ x :: l2))
      with (sortBy key (l1 ++ x :: l2)).
    rewrite IH by (intros z Hz; apply H1; by right). simpl.
    destruct (N.leb_spec (key y) (key x)) as [Hle|]; [|done].
    specialize (H1 y (list_elem_of_here _ _)). lia.
Qed.

Lemma first_least_exists l :
  l ≠ [] →
  ∃ l1 x l2, l = l1 ++ x :: l2 ∧
    (∀ y, y ∈ l1 → (key x < key y)%N) ∧
    (∀ y, y ∈ l2 → (key x ≤ key y)%N).
Proof.
  induction l as [|a l IH]; [done|]. intros _.
  destruct l as [|b l].
  { exists [], a, []. split_and!; [done|..]; by intros y ?%elem_of_nil. }
  destruct IH as (l1 & x & l2 & Heq & H1 & H2); [done|].
  destruct (N.leb_spec (key a) (key x)) as [Hle|Hlt].
  - exists [], a, (b :: l). split_and!; [done|by intros y ?%elem_of_nil|].
    intros y Hy. rewrite Heq in Hy.
    apply elem_of_app in Hy as [Hy|[->|Hy]%elem_of_cons].
    + specialize (H1 y Hy). lia.
    + done.
    + specialize (H2 y Hy). lia.
  - exists (a :: l1), x, l2. rewrite Heq. split_and!; [done| |done].
    intros y [->|Hy]%elem_of_cons; [done|by apply H1].
Qed.
End first_least.

Lemma omap_split {A B} (f : A → option B) (l : list A) l1 x l2 :
  omap f l = l1 ++ x :: l2 →
  ∃ before b after, l = before ++ b :: after ∧
    omap f before = l1 ∧ f b = Some x ∧ omap f after = l2.
Proof.
  revert l1. induction l as [|a l IH]; intros l1 Heq.
  - by destruct l1.
  - cbn [omap list_omap] in Heq. destruct (f a) as [y|] eqn:Hfa.
    + destruct l1 as [|z l1].
      * injection Heq as -> Heq. exists [], a, l. by split_and!.
      * injection Heq as -> Heq.
        destruct (IH l1 Heq) as (before & b & after & -> & Hb & Hfb & Ha).
        exists (a :: before), b, after. split_and!; [done| |done..].
        cbn [omap list_omap]. by rewrite Hfa, Hb.
    + destruct (IH l1 Heq) as (before & b & after & -> & Hb & Hfb & Ha).
      exists (a :: before), b, after. split_and!; [done| |done..].
      cbn [omap list_omap]. by rewrite Hfa.
Qed.

Section baseline.
Context (selected : list string) (fieldList : list IField)
        (metas : list FieldMeta) (record : IRecord).

Lemma bearsTokens_functional field t1 t2 :
  bearsTokens record field t1 → bearsTokens record field t2 → t1 = t2.
Proof. intros [H1 _] [H2 _]. by eapply textCell_functional. Qed.

(** The list that the extractor returns starts with the baseline. *)
Lemma extractParameters_baseline before base after text :
  baseline metas record fieldList before base after text →
  extractParametersFromRecord record fieldList metas
  = fieldInfo metas base text
    :: sortBy order (omap (extractField record metas) (before ++ after)).
Proof.
  intros (-> & Hbase & Hbefore & Hafter).
  unfold extractParametersFromRecord.
  rewrite omap_app. cbn [omap list_omap].
  assert (Hb : extractField record metas base = Some (fieldInfo metas base text))
    by (apply extractField_spec; eauto).
  rewrite Hb, omap_app. apply sortBy_first_least.
  - intros p (g & Hg & (t & Ht & ->)%extractField_spec)%list_elem_of_omap.
    simpl. by eapply Hbefore.
  - intros p (g & Hg & (t & Ht & ->)%extractField_spec)%list_elem_of_omap.
    simpl. by eapply Hafter.
Qed.

Lemma baseline_exists p :
  p ∈ extractParametersFromRecord record fieldList metas →
  ∃ before base after text, baseline metas record fieldList before base after text.
Proof.
  intros (f & Hf & Hp)%elem_of_extractParameters.
  destruct (first_least_exists order (omap (extractField record metas) fieldList))
    as (l1 & x & l2 & Heq & H1 & H2).
  { intros Hnil.
    assert (Hin : p ∈ omap (extractField record metas) fieldList)
      by (apply list_elem_of_omap; eauto).
    rewrite Hnil in Hin. by apply elem_of_nil in Hin. }
  apply omap_split in Heq as (before & b & after & -> & <- & Hb & <-).
  apply extractField_spec in Hb as (text & Hbears & ->).
  exists before, b, after, text. split_and!; [done..| |].
  - intros g t Hg Ht.
    apply (H1 (fieldInfo metas g t)). apply list_elem_of_omap. exists g. split; [done|].
    apply extractField_spec. eauto.
  - intros g t Hg Ht.
    apply (H2 (fieldInfo metas g t)). apply list_elem_of_omap. exists g. split; [done|].
    apply extractField_spec. eauto.
Qed.

Lemma baseline_unique b1 f1 a1 t1 b2 f2 a2 t2 :
  baseline metas record fieldList b1 f1 a1 t1 →
  baseline metas record fieldList b2 f2 a2 t2 →
  b1 = b2 ∧ f1 = f2 ∧ a1 = a2 ∧ t1 = t2.
Proof.
  intros H1 H2.
  pose proof (extractParameters_baseline _ _ _ _ H1) as E1.
  pose proof (extractParameters_baseline _ _ _ _ H2) as E2.
  destruct H1 as (Heq1 & Hb1 & Hlt1 & Hle1), H2 as (Heq2 & Hb2 & Hlt2 & Hle2).
  assert (b1 = b2 ∧ f1 :: a1 = f2 :: a2) as [-> [= -> ->]].
  { rewrite Heq1 in Heq2. clear E1 E2 Heq1.
    revert b2 Heq2 Hlt2. induction b1 as [|g b1 IH]; intros [|g' b2] Heq Hlt2.
    - done.
    - simpl in Heq. injection Heq as -> Heq.
      specialize (Hlt2 g' t1 (list_elem_of_here _ _) Hb1).
      assert (f2 ∈ a1) as Hin by (rewrite Heq; set_solver).
      specialize (Hle1 f2 t2 Hin Hb2). lia.
    - simpl in Heq. injection Heq as -> Heq.
      specialize (Hlt1 f2 t2 (list_elem_of_here _ _) Hb2).
      assert (f1 ∈ a2) as Hin by (rewrite <-Heq; set_solver).
      specialize (Hle2 f1 t1 Hin Hb1). lia.
    - simpl in Heq. injection Heq as -> Heq.
      destruct (IH (λ g t Hg, Hlt1 g t (list_elem_of_further _ _ _ Hg)) b2 Heq)
        as [-> ->].
      { intros g t Hg. apply Hlt2. by right. }
      done. }
  split_and!; [done..|]. by eapply bearsTokens_functional.
Qed.

(** The test of the comparator, read on the fields of the record. *)
Lemma inconsistent_record :
  inconsistent selected (extractParametersFromRecord record fieldList metas) ↔
  inconsistentRecord selected fieldList metas record.
Proof.
  unfold inconsistent, inconsistentRecord. split.
  - intros (pb & others & p & Heq & Hp & Hsel & Hperm).
    destruct (baseline_exists pb) as (before & base & after & text & Hbase).
    { rewrite Heq. left. }
    rewrite (extractParameters_baseline _ _ _ _ Hbase) in Heq.
    injection Heq as <- <-.
    rewrite sortBy_perm in Hp.
    apply list_elem_of_omap in Hp as (f & Hf & (t & Ht & ->)%extractField_spec).
    exists before, base, after, text, f, t. split_and!; [done..|].
    simpl in Hperm. by rewrite !sortNumbers_perm in Hperm.
  - intros (before & base & after & text & f & t & Hbase & Hf & Ht & Hsel & Hperm).
    rewrite (extractParameters_baseline _ _ _ _ Hbase).
    eexists _, _, (fieldInfo metas f t). split_and!; [done| |done|].
    + rewrite sortBy_perm. apply list_elem_of_omap. exists f. split; [done|].
      apply extractField_spec. eauto.
    + simpl. by rewrite !sortNumbers_perm.
Qed.

Lemma inconsistent_two_fields :
  inconsistent selected (extractParametersFromRecord record fieldList metas) →
  (2 ≤ length (extractParametersFromRecord record fieldList metas))%nat.
Proof.
  intros (pb & others & p & -> & Hp & _). destruct others; [|simpl; lia].
  by apply elem_of_nil in Hp.
Qed.

(** What the entry of the record lists. *)
Lemma allFieldParams_entry name numbers :
  (name, numbers) ∈ allFieldParams selected
                      (extractParametersFromRecord record fieldList metas) ↔
  ∃ field text, field ∈ fieldList ∧ bearsTokens record field text ∧
    field_id field ∈ selected ∧
    name = viewName metas (field_id field) ∧
    Sorted N.le numbers ∧ numbers ≡ₚ tokenValues text.
Proof.
  unfold allFieldParams. rewrite list_elem_of_fmap. split.
  - intros (p & [= -> ->] & [Hsel Hp]%list_elem_of_filter).
    apply includes_spec in Hsel.
    apply elem_of_extractParameters in Hp
      as (f & Hf & (t & Ht & ->)%extractField_spec).
    exists f, t. split_and!; [done..|apply sortNumbers_sorted|apply sortNumbers_perm].
  - intros (f & t & Hf & Ht & Hsel & -> & Hnum%sorted_perm_sortNumbers).
    exists (fieldInfo metas f t). split; [by rewrite Hnum|].
    apply list_elem_of_filter. split; [by apply includes_spec|].
    apply elem_of_extractParameters. exists f. split; [done|].
    apply extractField_spec. eauto.
Qed.
End baseline.

(** C6. With an index column in the view and tokens of at most [2^53 - 1],
    the loop over the records ends without an exception, and the array it
    hands to [setComparisons] holds an entry for a record exactly when the
    record is inconsistent: among its fields that bear tokens (a text cell
    in which a token occurs) the baseline is the one that comes first in the
    view, and some selected field other than the baseline bears tokens that
    are not a reordering of the baseline's, so at least two fields bear
    tokens.  The entry carries the id of the record and lists, under the
    name the view gives the field, the tokens in ascending order of every
    selected field that bears tokens, the consistent ones too, and nothing
    else. *)
Theorem compareRecords_reports_inconsistent
    (selected : list string) (fieldList : list IField)
    (indexFieldMeta : FieldMeta) (metas : list FieldMeta)
    (records : list IRecord) (log : list message) :
  (∀ record field text, record ∈ records → field ∈ fieldList →
     bearsTokens record field text → safeText text) →
  ∃ found log',
    compareRecords selected fieldList (indexFieldMeta :: metas) (length records)
                   records 0 [] log = (Ok found, log') ∧
    (∀ c, c ∈ found →
       ∃ record, record ∈ records ∧
         inconsistentRecord selected fieldList (indexFieldMeta :: metas) record ∧
         entryOf selected fieldList (indexFieldMeta :: metas) record c) ∧
    (∀ record, record ∈ records →
       inconsistentRecord selected fieldList (indexFieldMeta :: metas) record →
       ∃ c, c ∈ found ∧
         entryOf selected fieldList (indexFieldMeta :: metas) record c).
Proof.
  intros _.
  destruct (compareRecords_found selected fieldList indexFieldMeta metas
              (length records) records 0 [] log) as (found & log' & Hrun & Hfound).
  exists found, log'. split; [done|].
  assert (Hentry : ∀ record,
    entryOf selected fieldList (indexFieldMeta :: metas) record
      {| cmp_recordId := recordId record;
         cmp_recordName := recordNameOf indexFieldMeta record;
         differences := allFieldParams selected
           (extractParametersFromRecord record fieldList (indexFieldMeta :: metas)) |}).
  { intros record. split; [done|]. intros name numbers.
    apply allFieldParams_entry. }
  split.
  - intros c (record & Hin & Hc)%Hfound. exists record. split; [done|].
    destruct (compareRecord_report selected fieldList indexFieldMeta metas record)
      as (o & Ho & Hspec). cbv zeta in Hspec.
    rewrite Ho in Hc. injection Hc as ->.
    destruct (proj1 (Hspec c) eq_refl) as (_ & Hinc & ->).
    split; [by apply (inconsistent_record selected fieldList _ record)|apply Hentry].
  - intros record Hin Hinc. apply (inconsistent_record selected fieldList _ record) in Hinc.
    eexists. split; [|apply Hentry]. apply Hfound. exists record. split; [done|].
    destruct (compareRecord_report selected fieldList indexFieldMeta metas record)
      as (o & Ho & Hspec). cbv zeta in Hspec.
    rewrite Ho. do 2 f_equal. apply Hspec. split_and!; [|done..].
    by apply (inconsistent_two_fields selected).
Qed.

Lemma compareRecords_reports_inconsistent_witness :
  ∃ found log',
    compareRecords ["fA"; "fB"] exampleFields exampleMetas 1
                   [exampleRecord "r1" "row 1" "{1}{2}" "{1}{3}"] 0 [] []
    = (Ok found, log') ∧
    (∀ c, c ∈ found →
       ∃ record, record ∈ [exampleRecord "r1" "row 1" "{1}{2}" "{1}{3}"] ∧
         inconsistentRecord ["fA"; "fB"] exampleFields exampleMetas record ∧
         entryOf ["fA"; "fB"] exampleFields exampleMetas record c) ∧
    (∀ record, record ∈ [exampleRecord "r1" "row 1" "{1}{2}" "{1}{3}"] →
       inconsistentRecord ["fA"; "fB"] exampleFields exampleMetas record →
       ∃ c, c ∈ found ∧ entryOf ["fA"; "fB"] exampleFields exampleMetas record c).
Proof.
  apply (compareRecords_reports_inconsistent ["fA"; "fB"] exampleFields
           {| meta_id := "f0"; meta_name := "Index" |}
           [ {| meta_id := "fA"; meta_name := "A" |};
             {| meta_id := "fB"; meta_name := "B" |} ]
           [exampleRecord "r1" "row 1" "{1}{2}" "{1}{3}"] []).
  intros record field text ->%list_elem_of_singleton Hfield [Hcell _].
  apply cellText_textCell in Hcell.
  apply safeText_tokenValues. unfold MAX_SAFE_INTEGER.
  repeat (apply elem_of_cons in Hfield as [->|Hfield]);
    [..|by apply elem_of_nil in Hfield];
    vm_compute in Hcell; injection Hcell as <-.
  - assert (tokenValues "{1}{3}" = [1; 3]%N) as -> by (by vm_compute).
    repeat constructor; lia.
  - assert (tokenValues "{1}{2}" = [1; 2]%N) as -> by (by vm_compute).
    repeat constructor; lia.
  - assert (tokenValues "row 1" = []) as -> by (by vm_compute).
    constructor.
Defined.

Example compareRecords_example :
  compareRecords ["fA"; "fB"] exampleFields exampleMetas 1
                 [exampleRecord "r1" "row 1" "{1}{2}" "{1}{3}"] 0 [] []
  = (Ok [ {| cmp_recordId := "r1";
             cmp_recordName := IndexText "row 1";
             differences := [("A", [1; 2]%N); ("B", [1; 3]%N)] |} ], []).
Proof. by vm_compute. Qed.

(** * Further properties of the code *)

(** ** The validation effect *)

(** X1. The validation effect of the dialog completes exactly on
    replacements without a cycle, and then it only clears the message and
    the auto-fix flag: the branch that announces a repaired cycle is never
    taken, and the replacements are never rewritten. *)
Theorem validateReplacements_only_clears (fuel : nat) (st : ModalState) :
  (∀ key g, (key, g) ∈ groupReplacements st →
     NoDup g.*1 ∧ (length g < fuel)%nat) →
  ((∀ key g, (key, g) ∈ groupReplacements st → ¬ cyclic g) →
     validateReplacements fuel st = Some (settled st)) ∧
  (∀ st', validateReplacements fuel st = Some st' →
     st' = settled st ∧
     ∀ key g, (key, g) ∈ groupReplacements st → ¬ cyclic g).
Proof.
  intros Hr. split.
  - intros Hac. unfold validateReplacements, detectAndFixCircularReplacements.
    rewrite (detectAndFixGroups_acyclic fuel (groupReplacements st)); [done|].
    intros key g Hg. destruct (Hr key g Hg). naive_solver.
  - intros st'. unfold validateReplacements, detectAndFixCircularReplacements.
    destruct (detectAndFixGroups fuel false (groupReplacements st))
      as [[b r']|] eqn:Hd; [|done].
    assert (Hnd : ∀ key g, (key, g) ∈ groupReplacements st → NoDup g.*1)
      by (intros key g Hg; by destruct (Hr key g Hg)).
    destruct (detectAndFixGroups_returns _ _ _ _ Hnd Hd) as [-> ->].
    intros [= <-]. split; [done|]. intros key g Hg Hc.
    rewrite (detectAndFixGroups_diverges fuel (groupReplacements st) false) in Hd;
      [done|done|eauto].
Qed.

Lemma validateReplacements_only_clears_witness :
  ((∀ key g, (key, g) ∈ groupReplacements blankModal → ¬ cyclic g) →
     validateReplacements 5 blankModal = Some (settled blankModal)) ∧
  (∀ st', validateReplacements 5 blankModal = Some st' →
     st' = settled blankModal ∧
     ∀ key g, (key, g) ∈ groupReplacements blankModal → ¬ cyclic g).
Proof.
  apply (validateReplacements_only_clears 5 blankModal).
  intros key g Hg. simpl in Hg.
  apply elem_of_cons in Hg as [[= -> ->]|Hg];
    [|apply list_elem_of_singleton in Hg as [= -> ->]];
    (split; [compute_done|simpl; lia]).
Defined.

(** ** Writes on objects *)

Section objects.
Context {K V : Type} `{EqDecision K}.
Implicit Types (o : list (K * V)).

Lemma overwrite_keys k v o : (overwrite k v o).*1 = o.*1.
Proof.
  unfold overwrite. induction o as [|[k' v'] o IH]; [done|].
  rewrite !fmap_cons. f_equal; [|done]. by case_bool_decide.
Qed.

Lemma elem_of_overwrite k v o k' v' :
  (k', v') ∈ overwrite k v o ↔
  (k' = k ∧ v' = v ∧ k ∈ o.*1) ∨ (k' ≠ k ∧ (k', v') ∈ o).
Proof.
  unfold overwrite. rewrite list_elem_of_fmap. split.
  - intros ([k1 v1] & Heq & Hin). case_bool_decide; simplify_eq.
    + left. split_and!; [done..|]. apply list_elem_of_fmap. by exists (k, v1).
    + by right.
  - intros [(-> & -> & Hin)|[Hne Hin]].
    + apply list_elem_of_fmap in Hin as ([k1 v1] & -> & Hin).
      exists (k1, v1). split; [|done]. simpl. by rewrite bool_decide_true.
    + exists (k', v'). split; [|done]. by rewrite bool_decide_false.
Qed.
End objects.

Lemma insertNumeric_perm {V} (k : N) (v : V) o : insertNumeric k v o ≡ₚ (k, v) :: o.
Proof.
  induction o as [|[k' v'] o IH]; [done|]. simpl.
  destruct (k <? k')%N; [done|]. rewrite IH. apply Permutation_swap.
Qed.

Lemma insertIndex_perm {V} n (k : string) (v : V) o :
  insertIndex n k v o ≡ₚ (k, v) :: o.
Proof.
  induction o as [|[k' v'] o IH]; [done|]. simpl.
  destruct (arrayIndex k') as [n'|]; [|done].
  destruct (n <? n')%N; [done|]. rewrite IH. apply Permutation_swap.
Qed.

Lemma numSet_overwrite {V} (k : N) (v : V) o :
  k ∈ o.*1 → numSet k v o = overwrite k v o.
Proof. intros Hk. unfold numSet. by rewrite bool_decide_true. Qed.

Lemma numSet_fresh {V} (k : N) (v : V) o :
  k ∉ o.*1 → numSet k v o ≡ₚ (k, v) :: o.
Proof.
  intros Hk. unfold numSet. rewrite bool_decide_false by done.
  apply insertNumeric_perm.
Qed.

Lemma propSet_overwrite {V} (k : string) (v : V) o :
  k ∈ o.*1 → propSet k v o = overwrite k v o.
Proof. intros Hk. unfold propSet. by rewrite bool_decide_true. Qed.

Lemma propSet_fresh {V} (k : string) (v : V) o :
  k ∉ o.*1 → propSet k v o ≡ₚ (k, v) :: o.
Proof.
  intros Hk. unfold propSet. rewrite bool_decide_false by done.
  destruct (arrayIndex k); [apply insertIndex_perm|].
  by rewrite <-Permutation_cons_append.
Qed.

Lemma elem_of_numSet {V} (k : N) (v : V) o k' v' :
  (k', v') ∈ numSet k v o ↔ (k' = k ∧ v' = v) ∨ (k' ≠ k ∧ (k', v') ∈ o).
Proof.
  destruct (decide (k ∈ o.*1)) as [Hk|Hk].
  - rewrite numSet_overwrite, elem_of_overwrite by done. naive_solver.
  - rewrite (numSet_fresh k v o Hk), elem_of_cons. split.
    + intros [[= -> ->]|Hin]; [by left|]. right. split; [|done].
      intros ->. apply Hk, list_elem_of_fmap. by exists (k, v').
    + intros [[-> ->]|[_ Hin]]; [by left|by right].
Qed.

Lemma numSet_keys {V} (k : N) (v : V) o k' :
  k' ∈ (numSet k v o).*1 ↔ k' = k ∨ k' ∈ o.*1.
Proof.
  destruct (decide (k ∈ o.*1)) as [Hk|Hk].
  - rewrite numSet_overwrite, overwrite_keys by done. naive_solver.
  - rewrite (numSet_fresh k v o Hk). rewrite fmap_cons, elem_of_cons. done.
Qed.

Lemma NoDup_numSet {V} (k : N) (v : V) o :
  NoDup o.*1 → NoDup (numSet k v o).*1.
Proof.
  intros Hnd. destruct (decide (k ∈ o.*1)) as [Hk|Hk].
  - by rewrite numSet_overwrite, overwrite_keys.
  - rewrite (numSet_fresh k v o Hk), fmap_cons. by constructor.
Qed.

Lemma elem_of_propSet {V} (k : string) (v : V) o k' v' :
  (k', v') ∈ propSet k v o ↔ (k' = k ∧ v' = v) ∨ (k' ≠ k ∧ (k', v') ∈ o).
Proof.
  destruct (decide (k ∈ o.*1)) as [Hk|Hk].
  - rewrite propSet_overwrite, elem_of_overwrite by done. naive_solver.
  - rewrite (propSet_fresh k v o Hk), elem_of_cons. split.
    + intros [[= -> ->]|Hin]; [by left|]. right. split; [|done].
      intros ->. apply Hk, list_elem_of_fmap. by exists (k, v').
    + intros [[-> ->]|[_ Hin]]; [by left|by right].
Qed.

Lemma propSet_keys {V} (k : string) (v : V) o k' :
  k' ∈ (propSet k v o).*1 ↔ k' = k ∨ k' ∈ o.*1.
Proof.
  destruct (decide (k ∈ o.*1)) as [Hk|Hk].
  - rewrite propSet_overwrite, overwrite_keys by done. naive_solver.
  - rewrite (propSet_fresh k v o Hk). rewrite fmap_cons, elem_of_cons. done.
Qed.

Lemma NoDup_propSet {V} (k : string) (v : V) o :
  NoDup o.*1 → NoDup (propSet k v o).*1.
Proof.
  intros Hnd. destruct (decide (k ∈ o.*1)) as [Hk|Hk].
  - by rewrite propSet_overwrite, overwrite_keys.
  - rewrite (propSet_fresh k v o Hk), fmap_cons. by constructor.
Qed.

(** A lookup finds the entry of a key. *)
Lemma lookupGroup_Some (paramKey : string) (r : groups) g :
  NoDup r.*1 → lookupGroup paramKey r = Some g ↔ (paramKey, g) ∈ r.
Proof.
  induction r as [|[k g'] r IH]; intros Hnd.
  - simpl. split; [done|]. by intros ?%elem_of_nil.
  - rewrite fmap_cons in Hnd. apply NoDup_cons in Hnd as [Hk Hnd].
    simpl. case_bool_decide as Hkk; simplify_eq/=.
    + rewrite elem_of_cons. split; [intros [= ->]; by left|].
      intros [[= ->]|Hin]; [done|]. destruct Hk.
      apply list_elem_of_fmap. by exists (paramKey, g).
    + rewrite IH, elem_of_cons by done. naive_solver.
Qed.

Lemma lookupGroup_None (paramKey : string) (r : groups) :
  lookupGroup paramKey r = None ↔ paramKey ∉ r.*1.
Proof.
  induction r as [|[k g'] r IH]; simpl.
  - split; [|done]. by intros _ ?%elem_of_nil.
  - rewrite elem_of_cons. case_bool_decide; simplify_eq/=; naive_solver.
Qed.

(** ** Saving *)

Lemma invalidValue_spec newValue :
  invalidValue newValue = true ↔ newValue = "" ∨ isNaN (Number newValue) = true.
Proof.
  unfold invalidValue. rewrite orb_true_iff, bool_decide_eq_true. done.
Qed.

Lemma forallb_false {A} (f : A → bool) (l : list A) :
  forallb f l = false ↔ ∃ x, x ∈ l ∧ f x = false.
Proof.
  induction l as [|a l IH]; simpl.
  - split; [done|]. by intros (x & ?%elem_of_nil & _).
  - rewrite andb_false_iff, IH. setoid_rewrite elem_of_cons. naive_solver.
Qed.

Lemma allValid_false (r : groups) :
  allValid r = false ↔
  ∃ key g k newValue, (key, g) ∈ r ∧ (k, newValue) ∈ g ∧
    invalidValue newValue = true.
Proof.
  unfold allValid. rewrite forallb_false. split.
  - intros ([key g] & Hg & Hf). apply forallb_false in Hf as ([k v] & Hk & Hv).
    apply negb_false_iff in Hv. by exists key, g, k, v.
  - intros (key & g & k & v & Hg & Hk & Hv). exists (key, g). split; [done|].
    apply forallb_false. exists (k, v). split; [done|]. by rewrite Hv.
Qed.

(** X2. The save button rejects exactly the dialogs in which some box is
    empty or holds a text that [Number] reads as [NaN]; a rejected save
    shows the message and changes neither the table, nor the state of the
    application, nor what was typed. *)
Theorem handleSave_rejects_exactly (st : ModalState) :
  (handleSave st = SaveRejected InvalidValue ↔
   ∃ key g k newValue, (key, g) ∈ groupReplacements st ∧ (k, newValue) ∈ g ∧
     (newValue = "" ∨ isNaN (Number newValue) = true)) ∧
  (∀ fuel t app, handleSave st = SaveRejected InvalidValue →
     ∃ st', saveClick fuel t app st = Some (t, app, st') ∧
       errorMessage st' = InvalidValue ∧
       groupReplacements st' = groupReplacements st ∧
       parameterGroups st' = parameterGroups st).
Proof.
  split.
  - setoid_rewrite <-invalidValue_spec. rewrite <-allValid_false.
    unfold handleSave. destruct (allValid _); [|done].
    split; [|done]. by destruct (fieldReplacementsOf _ _ _).
  - intros fuel t app Hs. unfold saveClick. rewrite Hs. eauto.
Qed.

(** The object built by lines 233-236 has the names of the group's object
    and, under each name, the number read in its box. *)
Lemma numericReplacements_foldl (g : group) (o : numericGroup) :
  let res := foldl (λ o '(key, value), numSet key (Number value) o) o g in
  NoDup g.*1 → NoDup o.*1 →
  NoDup res.*1 ∧
  ∀ k x, (k, x) ∈ res ↔
    (∃ v, (k, v) ∈ g ∧ x = Number v) ∨ ((k ∉ g.*1) ∧ (k, x) ∈ o).
Proof.
  revert o. induction g as [|[k0 v0] g IH]; intros o res Hg Ho.
  - split; [done|]. intros k x. subst res. simpl. split.
    + intros Hin. right. split; [|done]. by intros ?%elem_of_nil.
    + intros [(v & ?%elem_of_nil & _)|[_ ?]]; done.
  - rewrite fmap_cons in Hg. apply NoDup_cons in Hg as [Hk0 Hg].
    destruct (IH (numSet k0 (Number v0) o) Hg (NoDup_numSet _ _ _ Ho))
      as [Hnd Hel].
    split; [done|]. intros k x. subst res. cbn [foldl]. rewrite Hel.
    rewrite elem_of_numSet. rewrite fmap_cons. setoid_rewrite elem_of_cons.
    split.
    + intros [(v & Hin & ->)|[Hk [[-> ->]|[Hne Hin]]]].
      * left. eauto.
      * left. eauto.
      * right. split; [|done]. simpl. naive_solver.
    + intros [(v & [[= -> ->]|Hin] & ->)|[Hk Hin]].
      * right. split; [done|]. by left.
      * left. eauto.
      * right. split; [naive_solver|]. right. split; [|done]. naive_solver.
Qed.

Lemma numericReplacements_spec (g : group) :
  NoDup g.*1 →
  NoDup (numericReplacements g).*1 ∧
  ∀ k x, (k, x) ∈ numericReplacements g ↔ ∃ v, (k, v) ∈ g ∧ x = Number v.
Proof.
  intros Hg. destruct (numericReplacements_foldl g [] Hg (NoDup_nil_2)) as [Hnd Hel].
  split; [done|]. intros k x. unfold numericReplacements. rewrite Hel.
  split; [|by left]. intros [?|[_ ?%elem_of_nil]]; done.
Qed.

Lemma foldl_propSet_spec {V} (v : V) (fieldNames : list string) acc :
  let res := foldl (λ a fieldName, propSet fieldName v a) acc fieldNames in
  NoDup acc.*1 →
  NoDup res.*1 ∧
  (∀ f, f ∈ res.*1 ↔ f ∈ fieldNames ∨ f ∈ acc.*1) ∧
  (∀ f x, (f, x) ∈ res ↔ (f ∈ fieldNames ∧ x = v) ∨ ((f ∉ fieldNames) ∧ (f, x) ∈ acc)).
Proof.
  revert acc. induction fieldNames as [|f0 l IH]; intros acc res Hacc.
  - subst res. simpl. split_and!; [done|..].
    + intros f. split; [by right|]. by intros [?%elem_of_nil|?].
    + intros f x. split.
      * intros ?. right. split; [|done]. by intros ?%elem_of_nil.
      * by intros [[?%elem_of_nil _]|[_ ?]].
  - destruct (IH (propSet f0 v acc) (NoDup_propSet _ _ _ Hacc)) as (Hnd & Hk & Hel).
    subst res. cbn [foldl]. split_and!; [done|..].
    + intros f. rewrite Hk, propSet_keys, elem_of_cons. tauto.
    + intros f x. rewrite Hel, elem_of_propSet, elem_of_cons.
      destruct (decide (f = f0)) as [->|Hne]; [|tauto].
      destruct (decide (f0 ∈ l)); tauto.
Qed.

Lemma fieldReplacementsOf_spec (r : groups) pg acc fr :
  NoDup acc.*1 →
  fieldReplacementsOf r pg acc = Some fr →
  NoDup fr.*1 ∧
  (∀ f, f ∈ fr.*1 ↔
     f ∈ acc.*1 ∨ ∃ paramKey fieldNames, (paramKey, fieldNames) ∈ pg ∧ f ∈ fieldNames) ∧
  (∀ f ng, (f, ng) ∈ fr →
     (f, ng) ∈ acc ∨
     ∃ paramKey fieldNames g, (paramKey, fieldNames) ∈ pg ∧ f ∈ fieldNames ∧
       lookupGroup paramKey r = Some g ∧ ng = numericReplacements g).
Proof.
  revert acc. induction pg as [|[paramKey fieldNames] pg IH]; intros acc Hacc.
  - simpl. intros [= <-]. split_and!; [done|..].
    + intros f. split; [by left|]. intros [?|(? & ? & ?%elem_of_nil & _)]; done.
    + intros f ng ?. by left.
  - simpl. destruct fieldNames as [|f0 l].
    + intros Hfr. destruct (IH acc Hacc Hfr) as (Hnd & Hk & Hel).
      split_and!; [done|..].
      * intros f. rewrite Hk. setoid_rewrite elem_of_cons. split.
        -- intros [?|(k & fs & Hin & Hf)]; [by left|right]. eauto.
        -- intros [?|(k & fs & [[= -> ->]|Hin] & Hf)]; [by left|..].
           ++ by apply elem_of_nil in Hf.
           ++ right. eauto.
      * intros f ng Hin. destruct (Hel f ng Hin) as [?|(k & fs & g & Hpg & ?)];
          [by left|right]. exists k, fs, g. rewrite elem_of_cons. naive_solver.
    + destruct (lookupGroup paramKey r) as [g|] eqn:Hlook; [|done].
      intros Hfr.
      destruct (foldl_propSet_spec (numericReplacements g) (f0 :: l) acc Hacc)
        as (Hnd1 & Hk1 & Hel1).
      destruct (IH _ Hnd1 Hfr) as (Hnd & Hk & Hel).
      split_and!; [done|..].
      * intros f. rewrite Hk, Hk1. setoid_rewrite (elem_of_cons pg). split.
        -- intros [[?|?]|(k & fs & Hin & Hf)]; [right|by left|right]; eauto 6.
        -- intros [?|(k & fs & [[= -> ->]|Hin] & Hf)]; [left; by right|..].
           ++ left. by left.
           ++ right. eauto.
      * intros f ng Hin. setoid_rewrite (elem_of_cons pg).
        destruct (Hel f ng Hin) as [Hin1|(k & fs & g' & Hpg & ?)].
        -- apply Hel1 in Hin1 as [[Hf ->]|[_ ?]]; [right|by left].
           exists paramKey, (f0 :: l), g. eauto.
        -- right. exists k, fs, g'. naive_solver.
Qed.

(** X3. A save that goes through hands [onSave] the id of the record and
    one mapping for every field listed in a group: the mapping of a group
    that lists the field, holding under each token of that group the number
    read in its box. *)
Theorem handleSave_passes_group_mappings (st : ModalState) id fieldReplacements :
  handleSave st = SaveCall id fieldReplacements →
  id = modal_recordId st ∧
  NoDup fieldReplacements.*1 ∧
  (∀ fieldName, fieldName ∈ fieldReplacements.*1 ↔
     ∃ paramKey fieldNames,
       (paramKey, fieldNames) ∈ parameterGroups st ∧ fieldName ∈ fieldNames) ∧
  (∀ fieldName ng, (fieldName, ng) ∈ fieldReplacements →
     ∃ paramKey fieldNames g,
       (paramKey, fieldNames) ∈ parameterGroups st ∧ fieldName ∈ fieldNames ∧
       lookupGroup paramKey (groupReplacements st) = Some g ∧
       ng = numericReplacements g ∧
       (NoDup g.*1 →
        ∀ k x, (k, x) ∈ ng ↔ ∃ newValue, (k, newValue) ∈ g ∧ x = Number newValue)).
Proof.
  unfold handleSave. destruct (allValid _); [|done].
  destruct (fieldReplacementsOf _ _ _) as [fr|] eqn:Hfr; [|done].
  intros [= <- <-].
  destruct (fieldReplacementsOf_spec _ _ [] fr (NoDup_nil_2) Hfr) as (Hnd & Hk & Hel).
  split_and!; [done..| |].
  - intros f. rewrite Hk. split; [|by right].
    intros [?%elem_of_nil|?]; done.
  - intros f ng Hin. destruct (Hel f ng Hin) as [?%elem_of_nil|(k & fs & g & ? & ? & ? & ->)];
      [done|].
    exists k, fs, g. split_and!; [done..|]. intros Hg.
    by apply numericReplacements_spec.
Qed.

Lemma handleSave_passes_group_mappings_witness :
  ∃ fieldReplacements,
  "r1" = modal_recordId blankModal ∧
  NoDup fieldReplacements.*1 ∧
  (∀ fieldName, fieldName ∈ fieldReplacements.*1 ↔
     ∃ paramKey fieldNames,
       (paramKey, fieldNames) ∈ parameterGroups blankModal ∧ fieldName ∈ fieldNames) ∧
  (∀ fieldName ng, (fieldName, ng) ∈ fieldReplacements →
     ∃ paramKey fieldNames g,
       (paramKey, fieldNames) ∈ parameterGroups blankModal ∧ fieldName ∈ fieldNames ∧
       lookupGroup paramKey (groupReplacements blankModal) = Some g ∧
       ng = numericReplacements g ∧
       (NoDup g.*1 →
        ∀ k x, (k, x) ∈ ng ↔ ∃ newValue, (k, newValue) ∈ g ∧ x = Number newValue)).
Proof.
  eexists. apply (handleSave_passes_group_mappings blankModal "r1").
  vm_compute. reflexivity.
Defined.

(** ** The pages of a run *)

Lemma fetchRecords_pages host token pages :
  pagesChain host token pages →
  ∀ fuel allRecords log,
    (length pages ≤ fuel)%nat →
    ∃ log', fetchRecords fuel host token allRecords log
            = Some (Ok (allRecords ++ concat pages), log').
Proof.
  induction 1 as [token page Hget Hlast|token page rest Hget Hnext _ IH];
    intros [|fuel] allRecords log Hfuel; simpl in Hfuel; try lia.
  - simpl. rewrite Hget, Hlast, app_nil_r. by eexists.
  - simpl. rewrite Hget, Hnext.
    destruct (IH fuel (allRecords ++ records page)
                (log ++ [MsgFetching (length (allRecords ++ records page))]))
      as [log' ->]; [lia|].
    rewrite <-app_assoc. by eexists.
Qed.

Lemma fetchRecords_short host token pages :
  pagesChain host token pages →
  ∀ fuel allRecords log,
    (fuel < length pages)%nat →
    fetchRecords fuel host token allRecords log = None.
Proof.
  induction 1 as [token page Hget Hlast|token page rest Hget Hnext _ IH];
    intros [|fuel] allRecords log Hfuel; simpl in Hfuel; try lia; try done.
  simpl. rewrite Hget, Hnext. apply IH. lia.
Qed.

(** X4. The fetch loop asks for the pages one after the other, each with
    the token of the page before, until a page comes without a token, and
    returns the records of all the pages in the order of the pages; it
    takes one turn per page. *)
Theorem fetchRecords_concatenates_pages host token pages :
  pagesChain host token pages →
  ∀ fuel allRecords log,
    ((length pages ≤ fuel)%nat →
     ∃ log', fetchRecords fuel host token allRecords log
             = Some (Ok (allRecords ++ concat pages), log')) ∧
    ((fuel < length pages)%nat →
     fetchRecords fuel host token allRecords log = None).
Proof.
  intros Hpages fuel allRecords log. split.
  - by apply fetchRecords_pages.
  - by apply fetchRecords_short.
Qed.

Lemma fetchRecords_concatenates_pages_witness :
  ∃ log', fetchRecords 1 (tableHost exampleTable) None [] []
          = Some (Ok ([] ++ concat [tableRecords exampleTable]), log').
Proof.
  apply (fetchRecords_concatenates_pages (tableHost exampleTable) None
           [tableRecords exampleTable]).
  - by apply (chain_last _ None
                {| records := tableRecords exampleTable; pageToken := None |}).
  - simpl. lia.
Defined.

Lemma fetchRecords_endless host :
  (∀ token, ∃ page, getRecords host token = Ok page ∧
                    truthy (pageToken page) = true) →
  ∀ fuel token allRecords log, fetchRecords fuel host token allRecords log = None.
Proof.
  intros Hhost. induction fuel as [|fuel IH]; intros token allRecords log; [done|].
  simpl. destruct (Hhost token) as (page & -> & ->). apply IH.
Qed.

(** X5. The fetch loop has no bound of its own: on a host that names a
    next page after every page it never returns, and neither does the run
    that called it, which stays in the state [isComparing]. *)
Theorem fetchRecords_has_no_page_limit host :
  (∀ token, ∃ page, getRecords host token = Ok page ∧
                    truthy (pageToken page) = true) →
  (∀ fuel token allRecords log,
     fetchRecords fuel host token allRecords log = None) ∧
  (∀ fuel st u v fieldList metas,
     getActiveTable host = Ok u → getActiveView host = Ok v →
     getFieldList host = Ok fieldList → getFieldMetaList host = Ok metas →
     compareAllRecords fuel host st = None).
Proof.
  intros Hhost. split; [by apply fetchRecords_endless|].
  intros fuel st u v fieldList metas Ht Hv Hf Hm.
  unfold compareAllRecords, compareAllRecordsBody. rewrite Ht, Hv, Hf, Hm.
  by rewrite fetchRecords_endless.
Qed.

Lemma fetchRecords_has_no_page_limit_witness :
  (∀ fuel token allRecords log,
     fetchRecords fuel endlessHost token allRecords log = None) ∧
  (∀ fuel st u v fieldList metas,
     getActiveTable endlessHost = Ok u → getActiveView endlessHost = Ok v →
     getFieldList endlessHost = Ok fieldList →
     getFieldMetaList endlessHost = Ok metas →
     compareAllRecords fuel endlessHost st = None).
Proof.
  apply (fetchRecords_has_no_page_limit endlessHost).
  intros token. eexists. split; reflexivity.
Defined.

(** X6. A run on a table without records returns early: the comparisons
    published by an earlier run stay as they are, and the last message says
    that there is nothing to compare. *)
Theorem compareAllRecords_keeps_result_on_empty_table
    fuel host st u v fieldList metas pages :
  getActiveTable host = Ok u → getActiveView host = Ok v →
  getFieldList host = Ok fieldList → getFieldMetaList host = Ok metas →
  pagesChain host None pages → concat pages = [] →
  (length pages ≤ fuel)%nat →
  ∃ log, compareAllRecords fuel host st
         = Some {| comparisons := comparisons st;
                   isComparing := false;
                   selectedFields := selectedFields st;
                   floatingMessages := log ++ [MsgNoRecords] |}.
Proof.
  intros Ht Hv Hf Hm Hpages Hempty Hfuel.
  unfold compareAllRecords, compareAllRecordsBody. rewrite Ht, Hv, Hf, Hm.
  destruct (fetchRecords_pages host None pages Hpages fuel []
              (floatingMessages st ++ [MsgStart]) Hfuel) as [log' ->].
  rewrite Hempty. simpl. by eexists.
Qed.

Lemma compareAllRecords_keeps_result_on_empty_table_witness :
  ∃ log, compareAllRecords 1 (tableHost emptyTable) exampleApp
         = Some {| comparisons := comparisons exampleApp;
                   isComparing := false;
                   selectedFields := selectedFields exampleApp;
                   floatingMessages := log ++ [MsgNoRecords] |}.
Proof.
  apply (compareAllRecords_keeps_result_on_empty_table 1 (tableHost emptyTable)
           exampleApp tt tt exampleFields exampleMetas [[]]
           eq_refl eq_refl eq_refl eq_refl
           (chain_last (tableHost emptyTable) None
              {| records := []; pageToken := None |} eq_refl eq_refl)
           eq_refl).
  simpl. lia.
Defined.

(** ** Texts that the apply step leaves alone *)

Lemma substituteToken_absent o rep text :
  Tok o ∉ pieces text → substituteToken o rep text = text.
Proof.
  intros Habs. unfold substituteToken. rewrite <-(pieces_text text) at 2.
  f_equal. apply list_fmap_ext. intros i p Hp.
  destruct p as [ds|c]; [|done]. simpl.
  rewrite bool_decide_eq_false_2; [done|]. intros ->.
  apply Habs. by eapply list_elem_of_lookup_2.
Qed.

Lemma applyReplacements_absent (paramReplacements : numericGroup) (text : string) :
  (∀ original newValue, (original, newValue) ∈ paramReplacements →
     ofN original ≠ newValue → ¬ occursToken text (tokenString original)) →
  applyReplacements paramReplacements text = text.
Proof.
  rewrite applyReplacements_fold.
  induction paramReplacements as [|[o v] m IH]; intros Hm; [done|].
  cbn [foldl]. case_bool_decide as Hne.
  - rewrite substituteToken_absent.
    + apply IH. intros o' v' Hin. apply Hm. by right.
    + rewrite pieces_occurs. apply (Hm o v); [left|done].
  - apply IH. intros o' v' Hin. apply Hm. by right.
Qed.



(** ** What a save writes *)

Lemma findMetaByName_Some name metas fieldMeta :
  findMetaByName name metas = Some fieldMeta →
  fieldMeta ∈ metas ∧ meta_name fieldMeta = name.
Proof.
  induction metas as [|f metas IH]; [done|]. simpl.
  case_bool_decide as Hname.
  - intros [= <-]. split; [left|done].
  - intros [Hin Hn]%IH. split; [by right|done].
Qed.

(** X8. The cells that [replaceParameters] hands to [setRecord] are those
    of the fields named in the replacements that the view lists and whose
    cell of the record is a text cell; each is written as one text segment
    holding the text of the first segment of the cell with the mapping of
    that field applied, so that further segments of the cell are not
    written back; a field is written even when its text does not change. *)
Theorem fieldsToUpdateOf_writes_first_segment
    (metas : list FieldMeta) (record : IRecord)
    (replacements : list (string * numericGroup)) :
  (∀ id v, (id, v) ∈ fieldsToUpdateOf metas record replacements →
     ∃ fieldName paramReplacements fieldMeta text,
       (fieldName, paramReplacements) ∈ replacements ∧
       findMetaByName fieldName metas = Some fieldMeta ∧
       meta_id fieldMeta = id ∧ textCell record id text ∧
       v = CellArray [TextSegment (applyReplacements paramReplacements text)]) ∧
  (∀ fieldName paramReplacements fieldMeta text,
     (fieldName, paramReplacements) ∈ replacements →
     findMetaByName fieldName metas = Some fieldMeta →
     textCell record (meta_id fieldMeta) text →
     meta_id fieldMeta ∈ (fieldsToUpdateOf metas record replacements).*1) ∧
  NoDup (fieldsToUpdateOf metas record replacements).*1.
Proof.
  unfold fieldsToUpdateOf.
  cut (∀ acc : list (string * cellValue), NoDup acc.*1 →
    let res := foldl (updateField metas record) acc replacements in
    (∀ id v, (id, v) ∈ res → (id, v) ∈ acc ∨
       ∃ fieldName paramReplacements fieldMeta text,
         (fieldName, paramReplacements) ∈ replacements ∧
         findMetaByName fieldName metas = Some fieldMeta ∧
         meta_id fieldMeta = id ∧ textCell record id text ∧
         v = CellArray [TextSegment (applyReplacements paramReplacements text)]) ∧
    (∀ id, id ∈ acc.*1 → id ∈ res.*1) ∧
    (∀ fieldName paramReplacements fieldMeta text,
       (fieldName, paramReplacements) ∈ replacements →
       findMetaByName fieldName metas = Some fieldMeta →
       textCell record (meta_id fieldMeta) text →
       meta_id fieldMeta ∈ res.*1) ∧
    NoDup res.*1).
  { intros Hcut. destruct (Hcut [] (NoDup_nil_2)) as (H1 & _ & H3 & H4).
    split_and!; [|done..]. intros id v Hin.
    destruct (H1 id v Hin) as [?%elem_of_nil|?]; done. }
  induction replacements as [|[name ng] repl IH]; intros acc Hacc res.
  { subst res. simpl. split_and!; [by left|done| |done].
    by intros ? ? ? ? ?%elem_of_nil. }
  subst res. cbn [foldl].
  assert (Hstep : NoDup (updateField metas record acc (name, ng)).*1 ∧
            (∀ id, id ∈ acc.*1 → id ∈ (updateField metas record acc (name, ng)).*1) ∧
            (∀ id v, (id, v) ∈ updateField metas record acc (name, ng) →
               (id, v) ∈ acc ∨
               ∃ fieldMeta text, findMetaByName name metas = Some fieldMeta ∧
                 meta_id fieldMeta = id ∧ textCell record id text ∧
                 v = CellArray [TextSegment (applyReplacements ng text)]) ∧
            (∀ fieldMeta text, findMetaByName name metas = Some fieldMeta →
               textCell record (meta_id fieldMeta) text →
               meta_id fieldMeta ∈ (updateField metas record acc (name, ng)).*1)).
  { unfold updateField. cbn [fst snd].
    destruct (findMetaByName name metas) as [fieldMeta|]; [|by split_and!; auto].
    destruct (cellText _) as [text|] eqn:Hcell.
    - apply cellText_textCell in Hcell. split_and!.
      + by apply NoDup_propSet.
      + intros id Hid. apply propSet_keys. by right.
      + intros id v [[-> ->]|[_ Hin]]%elem_of_propSet; [right|by left].
        by exists fieldMeta, text.
      + intros ? text' [= <-] _. apply propSet_keys. by left.
    - split_and!; [done|done|by left|].
      intros ? text' [= <-] Hcell'%cellText_textCell. congruence. }
  destruct Hstep as (Hnd & Hkeep & Hfrom & Hto).
  destruct (IH _ Hnd) as (H1 & H2 & H3 & H4). split_and!; [| | |done].
  - intros id v Hin. destruct (H1 id v Hin) as [Hin'|Hex].
    + destruct (Hfrom id v Hin') as [?|(fieldMeta & text & ?)]; [by left|right].
      exists name, ng, fieldMeta, text. split; [left|done].
    + right. destruct Hex as (n' & ng' & fm & text & Hin' & ?).
      exists n', ng', fm, text. split; [by right|done].
  - intros id Hid. by apply H2, Hkeep.
  - intros n' ng' fm text [[= -> ->]|Hin]%elem_of_cons Hfind Hcell.
    + apply H2. by eapply Hto.
    + by eapply H3.
Qed.

(** ** The edit button *)

(** X9. The edit button of a reported record is enabled exactly when all
    the fields listed for the record have the same number of tokens. *)
Theorem hasConsistentParameterCount_iff (record : RecordComparison) :
  hasConsistentParameterCount record = true ↔
  ∀ d1 d2, d1 ∈ differences record → d2 ∈ differences record →
    length d1.2 = length d2.2.
Proof.
  unfold hasConsistentParameterCount.
  destruct (differences record) as [|first rest] eqn:Hd.
  { simpl. split; [|done]. by intros _ d1 d2 ?%elem_of_nil. }
  destruct (Nat.leb_spec (length (first :: rest)) 1) as [Hlen|Hlen].
  { destruct rest; [|simpl in Hlen; lia]. split; [|done].
    by intros _ d1 d2 ->%list_elem_of_singleton ->%list_elem_of_singleton. }
  rewrite forallb_forall. split.
  - intros Hall d1 d2 H1%list_elem_of_In H2%list_elem_of_In.
    apply Hall, Nat.eqb_eq in H1. apply Hall, Nat.eqb_eq in H2. congruence.
  - intros Hall d Hin%list_elem_of_In. apply Nat.eqb_eq. apply Hall; [done|left].
Qed.

(** ** The selection of the fields *)

Lemma setSelected_id b opt : option_id (setSelected b opt) = option_id opt.
Proof. done. Qed.

Lemma selectAllFields_consistent s : selectionConsistent (selectAllFields s).
Proof.
  split; simpl.
  - intros opt (opt' & -> & Hin)%list_elem_of_fmap. simpl. split; [|done].
    intros _. apply list_elem_of_fmap. by exists opt'.
  - intros id (opt & -> & Hin)%list_elem_of_fmap.
    exists (setSelected true opt). split; [|done].
    apply list_elem_of_fmap. by exists opt.
Qed.

Lemma deselectAllFields_consistent s : selectionConsistent (deselectAllFields s).
Proof.
  split; simpl.
  - intros opt (opt' & -> & Hin)%list_elem_of_fmap. simpl. split; [done|].
    by intros ?%elem_of_nil.
  - by intros id ?%elem_of_nil.
Qed.

Lemma handleFieldSelectionChange_consistent fieldId s :
  selectionConsistent s →
  (∃ opt, opt ∈ fieldOptions s ∧ option_id opt = fieldId) →
  selectionConsistent (handleFieldSelectionChange fieldId s).
Proof.
  intros [Hticked Hlisted] (opt0 & Hopt0 & Hid0).
  assert (Hmem : ∀ id, id ∈ sel_selectedFields (handleFieldSelectionChange fieldId s) ↔
            if decide (id = fieldId) then fieldId ∉ sel_selectedFields s
            else id ∈ sel_selectedFields s).
  { intros id. simpl. unfold includes. case_bool_decide as Hin.
    - rewrite list_elem_of_filter. destruct (decide (id = fieldId)) as [->|]; tauto.
    - rewrite elem_of_app, list_elem_of_singleton.
      destruct (decide (id = fieldId)) as [->|]; tauto. }
  split.
  - intros opt (opt' & -> & Hin)%list_elem_of_fmap. rewrite Hmem.
    specialize (Hticked opt' Hin).
    case_bool_decide as Hid.
    + simpl. rewrite decide_True by done. rewrite <-Hid, <-Hticked.
      destruct (option_selected opt'); simpl; split; congruence.
    + by rewrite decide_False.
  - intros id Hin%Hmem. destruct (decide (id = fieldId)) as [->|Hne].
    + exists (setSelected (negb (option_selected opt0)) opt0). split; [|done].
      apply list_elem_of_fmap. exists opt0. by rewrite bool_decide_eq_true_2.
    + destruct (Hlisted id Hin) as (opt & Hopt & <-).
      exists opt. split; [|done]. apply list_elem_of_fmap. exists opt.
      by rewrite bool_decide_eq_false_2.
Qed.

(** X10. The ticks of the options and the list of selected fields stay in
    step: after "select all" and after "deselect all" an option is ticked
    exactly when its field is selected and only fields with an option are
    selected, and a click on an option keeps it so. *)
Theorem selection_handlers_keep_in_step (s : Selection) :
  selectionConsistent s →
  selectionConsistent (selectAllFields s) ∧
  selectionConsistent (deselectAllFields s) ∧
  ∀ opt, opt ∈ fieldOptions s →
    selectionConsistent (handleFieldSelectionChange (option_id opt) s).
Proof.
  intros Hs. split_and!.
  - apply selectAllFields_consistent.
  - apply deselectAllFields_consistent.
  - intros opt Hopt. apply handleFieldSelectionChange_consistent; eauto.
Qed.

Lemma exampleSelection_consistent : selectionConsistent exampleSelection.
Proof.
  split; simpl.
  - intros opt [->|[->|[]%elem_of_nil]%elem_of_cons]%elem_of_cons; simpl.
    + split; [intros _; left|done].
    + split; [done|]. by intros [=]%list_elem_of_singleton.
  - intros id ->%list_elem_of_singleton. eexists. split; [left|done].
Qed.

Lemma selection_handlers_keep_in_step_witness :
  selectionConsistent (selectAllFields exampleSelection) ∧
  selectionConsistent (deselectAllFields exampleSelection) ∧
  ∀ opt, opt ∈ fieldOptions exampleSelection →
    selectionConsistent (handleFieldSelectionChange (option_id opt) exampleSelection).
Proof.
  apply (selection_handlers_keep_in_step exampleSelection).
  apply exampleSelection_consistent.
Defined.

(** X11. Two clicks on the same option undo each other: the options are
    as before, and the same fields are selected (the field clicked now
    comes last in the list). *)
Theorem handleFieldSelectionChange_twice (fieldId : string) (s : Selection) :
  let s' := handleFieldSelectionChange fieldId (handleFieldSelectionChange fieldId s) in
  fieldOptions s' = fieldOptions s ∧
  ∀ id, id ∈ sel_selectedFields s' ↔ id ∈ sel_selectedFields s.
Proof.
  split.
  - simpl. rewrite <-list_fmap_compose.
    transitivity (id <$> fieldOptions s); [|apply list_fmap_id].
    apply list_fmap_ext. intros _ [id name b] _. cbn [compose option_id].
    destruct (decide (id = fieldId)) as [Hid|Hid].
    + rewrite (bool_decide_eq_true_2 _ Hid). cbn [setSelected option_id].
      rewrite (bool_decide_eq_true_2 _ Hid). unfold setSelected. simpl.
      by rewrite negb_involutive.
    + rewrite (bool_decide_eq_false_2 _ Hid). cbn [option_id].
      by rewrite (bool_decide_eq_false_2 _ Hid).
  - intros id. simpl. unfold includes.
    destruct (decide (fieldId ∈ sel_selectedFields s)) as [Hin|Hout].
    + rewrite (bool_decide_eq_true_2 _ Hin).
      rewrite bool_decide_eq_false_2
        by (rewrite list_elem_of_filter; tauto).
      rewrite elem_of_app, list_elem_of_filter, list_elem_of_singleton.
      destruct (decide (id = fieldId)) as [->|]; tauto.
    + rewrite (bool_decide_eq_false_2 _ Hout).
      rewrite bool_decide_eq_true_2
        by (rewrite elem_of_app, list_elem_of_singleton; tauto).
      rewrite list_elem_of_filter, elem_of_app, list_elem_of_singleton.
      destruct (decide (id = fieldId)) as [->|]; tauto.
Qed.

(** X12. When its calls of the host succeed, the initialisation offers
    the fields of the view that are visible, the first one (the index
    column) apart, and selects them all; when field ids are distinct the
    index column is therefore never selected.  When a call fails, options
    and selection stay as they were. *)
Theorem initializeFieldOptions_offers_visible_fields
    (host : Host) (getVisibleFieldIdList : result (list string)) (s : Selection) :
  let s' := initializeFieldOptions host getVisibleFieldIdList s in
  (∀ u v indexFieldMeta metas visibleFields,
     getActiveTable host = Ok u → getActiveView host = Ok v →
     getFieldMetaList host = Ok (indexFieldMeta :: metas) →
     getVisibleFieldIdList = Ok visibleFields →
     selectionConsistent s' ∧
     sel_selectedFields s' = option_id <$> fieldOptions s' ∧
     (∀ opt, opt ∈ fieldOptions s' ↔
        ∃ meta, meta ∈ metas ∧ meta_id meta ∈ visibleFields ∧
          opt = {| option_id := meta_id meta; option_name := meta_name meta;
                   option_selected := true |}) ∧
     (NoDup (meta_id <$> indexFieldMeta :: metas) →
      meta_id indexFieldMeta ∉ sel_selectedFields s')) ∧
  (∀ u v visibleFields,
     getActiveTable host = Ok u → getActiveView host = Ok v →
     getFieldMetaList host = Ok [] →
     getVisibleFieldIdList = Ok visibleFields →
     fieldOptions s' = [] ∧ sel_selectedFields s' = []) ∧
  (∀ e, getActiveTable host = Throw e ∨ getActiveView host = Throw e ∨
        getFieldMetaList host = Throw e ∨ getVisibleFieldIdList = Throw e →
     s' = s).
Proof.
  intros s'. split_and!.
  - intros u v m0 metas vis Ht Hv Hm Hvis. subst s'.
    unfold initializeFieldOptions. rewrite Ht, Hv, Hm, Hvis. cbn [drop]. rewrite drop_0.
    set (mk := λ meta, {| option_id := meta_id meta; option_name := meta_name meta;
                          option_selected := true |}).
    assert (Hopts : ∀ opt, opt ∈ mk <$> filter (λ meta, includes vis (meta_id meta) = true) metas ↔
              ∃ meta, meta ∈ metas ∧ meta_id meta ∈ vis ∧ opt = mk meta).
    { intros opt. rewrite list_elem_of_fmap. split.
      - intros (meta & -> & [Hinc%includes_spec Hin]%list_elem_of_filter). eauto.
      - intros (meta & Hin & Hinc & ->). exists meta. split; [done|].
        apply list_elem_of_filter. split; [by apply includes_spec|done]. }
    split_and!; [|done|exact Hopts|].
    + split; simpl.
      * intros opt (meta & Hin & Hinc & ->)%Hopts. simpl. split; [|done]. intros _.
        apply list_elem_of_fmap. exists (mk meta). split; [done|].
        apply Hopts. eauto.
      * intros id (opt & -> & Hin)%list_elem_of_fmap. eauto.
    + intros Hnd. simpl. rewrite fmap_cons in Hnd. apply NoDup_cons in Hnd as [Hnot _].
      intros (opt & Hid & (meta & Hin & _ & ->)%Hopts)%list_elem_of_fmap.
      apply Hnot. apply list_elem_of_fmap. exists meta. split; [|done].
      by rewrite Hid.
  - intros u v vis Ht Hv Hm Hvis. subst s'.
    unfold initializeFieldOptions. by rewrite Ht, Hv, Hm, Hvis.
  - intros e Hfail. subst s'. unfold initializeFieldOptions.
    destruct Hfail as [Hf|[Hf|[Hf|Hf]]]; rewrite Hf; [done|..];
      destruct (getActiveTable host); try done;
      destruct (getActiveView host); try done;
      destruct (getFieldMetaList host); done.
Qed.

(** ** Typing in a box of the dialog *)

Section lookups.
Context {V : Type}.
Implicit Types (o : list (string * V)).

Lemma lookupProp_overwrite k v o key :
  lookupProp key (overwrite k v o)
  = if bool_decide (key = k) then (λ _, v) <$> lookupProp key o
    else lookupProp key o.
Proof.
  unfold overwrite. induction o as [|[k' v'] o IH]; [by case_bool_decide|].
  rewrite fmap_cons. cbn [lookupProp].
  destruct (decide (k' = k)) as [->|Hk].
  - rewrite (bool_decide_eq_true_2 (k = k)) by done. cbn [lookupProp].
    destruct (decide (k = key)) as [->|Hne].
    + by rewrite !bool_decide_eq_true_2.
    + rewrite (bool_decide_eq_false_2 (k = key)) by done.
      rewrite IH. by rewrite (bool_decide_eq_false_2 (key = k)).
  - rewrite (bool_decide_eq_false_2 (k' = k)) by done. cbn [lookupProp].
    rewrite IH. destruct (decide (k' = key)) as [->|Hkk].
    + rewrite (bool_decide_eq_true_2 (key = key)) by done.
      by rewrite (bool_decide_eq_false_2 (key = k)).
    + by rewrite (bool_decide_eq_false_2 (k' = key)).
Qed.

Lemma lookupProp_head k v o key :
  lookupProp key ((k, v) :: o)
  = if bool_decide (key = k) then Some v else lookupProp key o.
Proof.
  cbn [lookupProp]. destruct (decide (k = key)) as [->|].
  - by rewrite !bool_decide_eq_true_2.
  - by rewrite (bool_decide_eq_false_2 (k = key)),
               (bool_decide_eq_false_2 (key = k)).
Qed.

Lemma lookupProp_insertIndex n k v o key :
  k ∉ o.*1 →
  lookupProp key (insertIndex n k v o)
  = if bool_decide (key = k) then Some v else lookupProp key o.
Proof.
  induction o as [|[k' v'] o IH]; intros Hfresh; [apply lookupProp_head|].
  rewrite fmap_cons, not_elem_of_cons in Hfresh. destruct Hfresh as [Hk Hfresh].
  cbn [insertIndex].
  destruct (arrayIndex k') as [n'|]; [|apply lookupProp_head].
  destruct (n <? n')%N; [apply lookupProp_head|].
  cbn [lookupProp]. rewrite IH by done.
  case_bool_decide as Hkk; [|done]. subst.
  by rewrite bool_decide_eq_false_2.
Qed.

Lemma lookupProp_app_fresh k v o key :
  k ∉ o.*1 →
  lookupProp key (o ++ [(k, v)])
  = if bool_decide (key = k) then Some v else lookupProp key o.
Proof.
  induction o as [|[k' v'] o IH]; intros Hfresh; [apply lookupProp_head|].
  rewrite fmap_cons, not_elem_of_cons in Hfresh. destruct Hfresh as [Hk Hfresh].
  simpl. rewrite IH by done. case_bool_decide as Hkk; [|done]. subst.
  by rewrite bool_decide_eq_false_2.
Qed.

Lemma lookupProp_None k o : lookupProp k o = None ↔ k ∉ o.*1.
Proof.
  induction o as [|[k' v'] o IH]; simpl.
  - split; [|done]. by intros _ ?%elem_of_nil.
  - rewrite elem_of_cons. case_bool_decide; simplify_eq/=; naive_solver.
Qed.

Lemma lookupProp_Some k v o :
  NoDup o.*1 → lookupProp k o = Some v ↔ (k, v) ∈ o.
Proof.
  induction o as [|[k' v'] o IH]; intros Hnd.
  - simpl. split; [done|]. by intros ?%elem_of_nil.
  - rewrite fmap_cons in Hnd. apply NoDup_cons in Hnd as [Hk Hnd].
    simpl. case_bool_decide as Hkk; simplify_eq/=.
    + rewrite elem_of_cons. split; [intros [= ->]; by left|].
      intros [[= ->]|Hin]; [done|]. destruct Hk.
      apply list_elem_of_fmap. by exists (k, v).
    + rewrite IH, elem_of_cons by done. naive_solver.
Qed.

(** Reading a property after a write. *)
Lemma lookupProp_propSet k v o key :
  lookupProp key (propSet k v o)
  = if bool_decide (key = k) then Some v else lookupProp key o.
Proof.
  unfold propSet. case_bool_decide as Hin.
  - fold (overwrite k v o). rewrite lookupProp_overwrite.
    case_bool_decide as Hk; [|done]. subst.
    destruct (lookupProp k o) eqn:E; [done|].
    by apply lookupProp_None in E.
  - destruct (arrayIndex k).
    + by apply lookupProp_insertIndex.
    + by apply lookupProp_app_fresh.
Qed.

End lookups.

Lemma lookupGroup_lookupProp key (r : groups) :
  lookupGroup key r = lookupProp key r.
Proof. induction r as [|[k g] r IH]; [done|]. simpl. by rewrite IH. Qed.

Lemma lookupGroup_propSet paramKey g (r : groups) key :
  lookupGroup key (propSet paramKey g r)
  = if bool_decide (key = paramKey) then Some g else lookupGroup key r.
Proof. rewrite !lookupGroup_lookupProp. apply lookupProp_propSet. Qed.

(** X13. Typing in a box changes that box and nothing else: afterwards the
    group of the box holds the typed text under the token of the box and its
    other boxes are as before, every other group is as before, and no group
    or box is added when the group and the box exist. *)
Theorem handleReplacementChange_sets_one_box
    (paramKey : string) (originalParam : N) (newValue : string) (r : groups) :
  let r' := handleReplacementChange paramKey originalParam newValue r in
  let g := default [] (lookupGroup paramKey r) in
  (∃ g', lookupGroup paramKey r' = Some g' ∧
     (∀ k v, (k, v) ∈ g' ↔
        (k = originalParam ∧ v = newValue) ∨ (k ≠ originalParam ∧ (k, v) ∈ g)) ∧
     (originalParam ∈ g.*1 → g'.*1 = g.*1)) ∧
  (∀ key, key ≠ paramKey → lookupGroup key r' = lookupGroup key r) ∧
  (paramKey ∈ r.*1 → r'.*1 = r.*1).
Proof.
  intros r' g. subst r'. unfold handleReplacementChange. fold g. split_and!.
  - exists (numSet originalParam newValue g). split_and!.
    + by rewrite lookupGroup_propSet, bool_decide_eq_true_2.
    + intros k v. apply elem_of_numSet.
    + intros Hin. by rewrite numSet_overwrite, overwrite_keys.
  - intros key Hne. by rewrite lookupGroup_propSet, bool_decide_eq_false_2.
  - intros Hin. by rewrite propSet_overwrite, overwrite_keys.
Qed.

(** ** The order of the result *)

Lemma compareRecords_order sel fl m0 metas total : ∀ rs n comps log,
  ∃ found log',
    compareRecords sel fl (m0 :: metas) total rs n comps log
    = (Ok (comps ++ found), log') ∧
    (cmp_recordId <$> found) `sublist_of` (recordId <$> rs).
Proof.
  induction rs as [|r rs IH]; intros n comps log.
  { exists [], log. rewrite app_nil_r. split; [done|]. simpl. constructor. }
  cbn [compareRecords].
  destruct (compareRecord_report sel fl m0 metas r) as (o & Ho & Hspec).
  cbv zeta in Hspec. rewrite Ho. destruct o as [c0|].
  - edestruct IH as (found & log' & -> & Hsub).
    exists (c0 :: found), log'. rewrite <-app_assoc. split; [done|].
    destruct (proj1 (Hspec c0) eq_refl) as (_ & _ & ->).
    rewrite !fmap_cons. simpl. by apply sublist_skip.
  - edestruct IH as (found & log' & -> & Hsub).
    exists found, log'. split; [done|]. rewrite fmap_cons. by apply sublist_cons.
Qed.

(** X14. The result of a run lists the inconsistent records in the order
    in which the host delivered them, one entry per record at most: the ids
    of the entries are those of the records with some records left out, so a
    run reports no record twice when the ids of the records are distinct,
    and never more entries than records. *)
Theorem compareRecords_keeps_record_order
    (selected : list string) (fieldList : list IField)
    (indexFieldMeta : FieldMeta) (metas : list FieldMeta)
    (records : list IRecord) (log : list message) :
  ∃ found log',
    compareRecords selected fieldList (indexFieldMeta :: metas) (length records)
                   records 0 [] log = (Ok found, log') ∧
    (cmp_recordId <$> found) `sublist_of` (recordId <$> records) ∧
    (length found ≤ length records)%nat ∧
    (NoDup (recordId <$> records) → NoDup (cmp_recordId <$> found)).
Proof.
  destruct (compareRecords_order selected fieldList indexFieldMeta metas
              (length records) records 0 [] log) as (found & log' & Hrun & Hsub).
  exists found, log'. split_and!; [done..| |].
  - apply sublist_length in Hsub. by rewrite !length_fmap in Hsub.
  - intros Hnd. by eapply sublist_NoDup.
Qed.

(** ** Opening the dialog *)

Section dialog.

#[local] Arguments String.append !_ _ / : simpl nomatch.

(** Two lists of tokens make the same key exactly when they are a
    reordering of each other. *)
Lemma paramKeyOf_perm (l1 l2 : list N) :
  paramKeyOf l1 = paramKeyOf l2 ↔ l1 ≡ₚ l2.
Proof.
  rewrite <-sortNumbers_eq_perm. unfold paramKeyOf. split; [|by intros ->].
  intros Heq. apply joinStrings_inj. by rewrite Heq.
Qed.

Lemma namesUnder_snoc key diffs d :
  namesUnder key (diffs ++ [d])
  = namesUnder key diffs ++ (if bool_decide (paramKeyOf d.2 = key) then [d.1] else []).
Proof.
  unfold namesUnder. rewrite filter_app, fmap_app. f_equal.
  rewrite filter_cons, filter_nil. case_bool_decide as Hk.
  - by rewrite decide_True.
  - by rewrite decide_False.
Qed.

Lemma groupFields_lookup (diffs : list (string * list N)) :
  let gs := foldl pushField [] diffs in
  NoDup gs.*1 ∧
  ∀ key, lookupProp key gs
         = match namesUnder key diffs with [] => None | names => Some names end.
Proof.
  induction diffs as [|d diffs IH] using rev_ind; [split; [constructor|done]|].
  destruct IH as [Hnd Hlook]. rewrite foldl_app. cbn [foldl].
  set (gs := foldl pushField [] diffs) in *. unfold pushField. split.
  - by apply NoDup_propSet.
  - intros key. rewrite lookupProp_propSet, namesUnder_snoc, Hlook.
    destruct (decide (key = paramKeyOf d.2)) as [->|Hne].
    + rewrite !bool_decide_eq_true_2 by done.
      destruct (namesUnder (paramKeyOf d.2) diffs) as [|n ns]; [done|].
      by rewrite <-app_comm_cons.
    + rewrite !bool_decide_eq_false_2 by done. by rewrite app_nil_r.
Qed.

Lemma groupFields_spec (record : RecordComparison) :
  NoDup (groupFields record).*1 ∧
  ∀ key names, (key, names) ∈ groupFields record ↔
    names ≠ [] ∧ names = namesUnder key (differences record).
Proof.
  destruct (groupFields_lookup (differences record)) as [Hnd Hlook].
  split; [done|]. intros key names. unfold groupFields.
  rewrite <-lookupProp_Some, Hlook by done.
  destruct (namesUnder key (differences record)) as [|n ns]; split;
    try done; try (by intros [? ?]).
  - by intros [= <-].
  - by intros [_ ->].
Qed.

Lemma namesUnder_elem key diffs name :
  name ∈ namesUnder key diffs ↔
  ∃ parameters, (name, parameters) ∈ diffs ∧ paramKeyOf parameters = key.
Proof.
  unfold namesUnder. rewrite list_elem_of_fmap. split.
  - intros ([n ps] & -> & [Hk Hin]%list_elem_of_filter). eauto.
  - intros (ps & Hin & Hk). exists (name, ps). split; [done|].
    by apply list_elem_of_filter.
Qed.

(** The key read back: [split] and [Number] undo [join] and [toString]. *)
Lemma splitComma_digits s : allDigits s = true → splitComma s = [s].
Proof.
  induction s as [|c s IH]; [done|]. simpl.
  intros [Hc Hs]%andb_true_iff. rewrite IH by done.
  rewrite bool_decide_eq_false_2; [done|]. by intros ->.
Qed.

Lemma splitComma_cons s rest :
  allDigits s = true →
  splitComma (s +:+ String ","%char rest) = s :: splitComma rest.
Proof.
  induction s as [|c s IH]; [done|]. simpl.
  intros [Hc Hs]%andb_true_iff. rewrite IH by done.
  rewrite bool_decide_eq_false_2; [done|]. by intros ->.
Qed.

Lemma splitComma_join (l : list N) :
  l ≠ [] → splitComma (joinStrings "," (tokenString <$> l)) = tokenString <$> l.
Proof.
  induction l as [|n l IH]; [done|]. intros _.
  destruct (tokenString_digits n) as [_ Hd].
  destruct l as [|n' l].
  - simpl. by apply splitComma_digits.
  - rewrite !fmap_cons. cbn [joinStrings].
    change ("," +:+ ?x) with (String ","%char x).
    rewrite splitComma_cons by done.
    f_equal. by apply IH.
Qed.

Lemma initialGroup_fold (ks : list N) (acc : group) :
  Forall (λ k, (k ≤ MAX_SAFE_INTEGER)%N) ks →
  foldl (λ o param, match toKey param with
                    | Some k => numSet k (toString param) o
                    | None => o
                    end) acc (Number <$> (tokenString <$> ks))
  = foldl (λ o k, numSet k (tokenString k) o) acc ks.
Proof.
  intros Hks. revert acc. induction Hks as [|k ks Hk _ IH]; intros acc; [done|].
  rewrite !fmap_cons. cbn [foldl].
  rewrite Number_tokenString, toKey_ofN, safe_toString by done. apply IH.
Qed.

Lemma identity_fold (ks : list N) (acc : group) :
  let res := foldl (λ o k, numSet k (tokenString k) o) acc ks in
  NoDup acc.*1 →
  NoDup res.*1 ∧
  ∀ k v, (k, v) ∈ res ↔
    (k ∈ ks ∧ v = tokenString k) ∨ ((k ∉ ks) ∧ (k, v) ∈ acc).
Proof.
  revert acc. induction ks as [|k0 ks IH]; intros acc res Hacc.
  - split; [done|]. intros k v. subst res. simpl. split.
    + intros Hin. right. split; [|done]. by intros ?%elem_of_nil.
    + by intros [[?%elem_of_nil _]|[_ ?]].
  - destruct (IH (numSet k0 (tokenString k0) acc) (NoDup_numSet _ _ _ Hacc))
      as [Hnd Hel].
    split; [done|]. intros k v. subst res. cbn [foldl].
    rewrite Hel, elem_of_numSet, elem_of_cons.
    destruct (decide (k = k0)) as [->|Hne]; [|tauto].
    destruct (decide (k0 ∈ ks)) as [Hin|Hout]; [tauto|].
    split.
    + intros [[? ?]|[_ [[_ ->]|[? _]]]]; [tauto|by left; split; [left|]|done].
    + intros [[_ ->]|[Hno _]]; [tauto|]. destruct Hno. by left.
Qed.

(** The boxes of a group start with the token they stand for. *)
Lemma initialGroup_identity (parameters : list N) :
  parameters ≠ [] →
  Forall (λ k, (k ≤ MAX_SAFE_INTEGER)%N) parameters →
  NoDup (initialGroup (paramKeyOf parameters)).*1 ∧
  ∀ k v, (k, v) ∈ initialGroup (paramKeyOf parameters) ↔
    k ∈ parameters ∧ v = tokenString k.
Proof.
  intros Hne Hsafe. unfold initialGroup, paramKeyOf.
  assert (Hsorted : sortNumbers parameters ≠ []).
  { intros Hnil. apply Hne, Permutation_nil_r. by rewrite <-Hnil, sortNumbers_perm. }
  rewrite splitComma_join, initialGroup_fold by (done || by rewrite sortNumbers_perm).
  destruct (identity_fold (sortNumbers parameters) [] NoDup_nil_2) as [Hnd Hel].
  split; [done|]. intros k v. rewrite Hel, sortNumbers_perm. split.
  - by intros [?|[_ ?%elem_of_nil]].
  - by left.
Qed.

Lemma initialReplacements_lookup (gs : list (string * list string)) key :
  lookupGroup key (initialReplacements gs)
  = if bool_decide (key ∈ gs.*1) then Some (initialGroup key) else None.
Proof.
  unfold initialReplacements.
  cut (∀ acc : groups,
         lookupGroup key (foldl (λ r e, propSet e.1 (initialGroup e.1) r) acc gs)
         = if bool_decide (key ∈ gs.*1) then Some (initialGroup key)
           else lookupGroup key acc).
  { intros Hcut. by rewrite Hcut. }
  induction gs as [|[k names] gs IH]; intros acc.
  - cbn [foldl]. case_bool_decide as Hin; [by apply elem_of_nil in Hin|done].
  - cbn [foldl]. rewrite IH, fmap_cons. cbn [fst].
    rewrite lookupGroup_propSet.
    destruct (decide (key ∈ gs.*1)) as [Hin|Hout].
    + by rewrite !bool_decide_eq_true_2 by (done || by right).
    + rewrite (bool_decide_eq_false_2 _ Hout).
      destruct (decide (key = k)) as [->|Hne].
      * by rewrite !bool_decide_eq_true_2 by (done || by left).
      * rewrite (bool_decide_eq_false_2 (key = k)) by done.
        rewrite bool_decide_eq_false_2; [done|].
        by intros [?|?]%elem_of_cons.
Qed.

Lemma NoDup_initialReplacements (gs : list (string * list string)) :
  NoDup (initialReplacements gs).*1.
Proof.
  unfold initialReplacements.
  cut (∀ acc : groups, NoDup acc.*1 →
         NoDup (foldl (λ r e, propSet e.1 (initialGroup e.1) r) acc gs).*1).
  { intros Hcut. apply Hcut. constructor. }
  induction gs as [|e gs IH]; intros acc Hacc; [done|].
  cbn [foldl]. apply IH. by apply NoDup_propSet.
Qed.

End dialog.

Lemma groupFields_keys (record : RecordComparison) key :
  key ∈ (groupFields record).*1 ↔
  ∃ d, d ∈ differences record ∧ paramKeyOf d.2 = key.
Proof.
  destruct (groupFields_spec record) as [_ Hspec].
  rewrite list_elem_of_fmap. split.
  - intros ([k names] & -> & [Hne ->]%Hspec). simpl.
    destruct (namesUnder k (differences record)) as [|n ns] eqn:E; [done|].
    assert (n ∈ namesUnder k (differences record)) as (ps & Hin & Hk)%namesUnder_elem
      by (rewrite E; left).
    by exists (n, ps).
  - intros ([n ps] & Hin & Hk). exists (key, namesUnder key (differences record)).
    split; [done|]. apply Hspec. split; [|done].
    assert (Hn : n ∈ namesUnder key (differences record))
      by (apply namesUnder_elem; eauto).
    intros Hnil. rewrite Hnil in Hn. by apply elem_of_nil in Hn.
Qed.

Lemma identity_acyclic (g : group) :
  (∀ k v, (k, v) ∈ g → v = tokenString k) → ¬ cyclic g.
Proof.
  intros Hid [a Hcycle].
  assert (Hedge : ∀ x y, ¬ edge g x y).
  { intros x y [(k & s & Hin & -> & _ & ->) Hne].
    rewrite (Hid k s Hin), Number_tokenString in Hne. done. }
  destruct Hcycle as [x y Hxy|x y z Hxy _]; by apply Hedge in Hxy.
Qed.

Lemma fieldReplacementsOf_total (r : groups) pg acc :
  (∀ key names, (key, names) ∈ pg → is_Some (lookupGroup key r)) →
  is_Some (fieldReplacementsOf r pg acc).
Proof.
  revert acc. induction pg as [|[key names] pg IH]; intros acc Hpg; [by eexists|].
  simpl. destruct names as [|n ns].
  - apply IH. intros k ns Hin. apply (Hpg k ns). by right.
  - destruct (Hpg key (n :: ns)) as [g ->]; [left|].
    apply IH. intros k ns' Hin. apply (Hpg k ns'). by right.
Qed.

Lemma tokenString_valid k : invalidValue (tokenString k) = false.
Proof.
  unfold invalidValue. rewrite Number_tokenString.
  rewrite bool_decide_eq_false_2; [done|]. apply tokenString_digits.
Qed.

(** The state of the dialog when it opens. *)
Lemma openModal_groups (record : RecordComparison) :
  (∀ d, d ∈ differences record →
     d.2 ≠ [] ∧ Forall (λ k, (k ≤ MAX_SAFE_INTEGER)%N) d.2) →
  NoDup (groupReplacements (openModal record)).*1 ∧
  (∀ key, lookupGroup key (groupReplacements (openModal record))
          = if bool_decide (key ∈ (parameterGroups (openModal record)).*1)
            then Some (initialGroup key) else None) ∧
  ∀ key g, (key, g) ∈ groupReplacements (openModal record) →
    ∃ d, d ∈ differences record ∧
      NoDup g.*1 ∧ ∀ k v, (k, v) ∈ g ↔ k ∈ d.2 ∧ v = tokenString k.
Proof.
  intros Hsafe. simpl.
  pose proof (NoDup_initialReplacements (groupFields record)) as Hnd.
  split_and!; [done|apply initialReplacements_lookup|].
  intros key g Hin. apply lookupGroup_Some in Hin; [|done].
  rewrite initialReplacements_lookup in Hin.
  case_bool_decide as Hkey; [|done]. injection Hin as <-.
  apply groupFields_keys in Hkey as (d & Hd & <-).
  destruct (Hsafe d Hd) as [Hne Hs].
  exists d. split; [done|]. by apply initialGroup_identity.
Qed.

(** X15. The dialog groups the fields of the record by their tokens, their
    order apart: every field is listed, in the order of the record, under
    the key made of its sorted tokens, the keys are distinct, and two lists
    of tokens make the same key exactly when one is a reordering of the
    other.  The sort of line 59 works in place, on lists that the extractor
    has left sorted: it changes nothing in the record. *)
Theorem groupFields_groups_by_tokens (record : RecordComparison) :
  (∀ d, d ∈ differences record → Forall (λ k, (k ≤ MAX_SAFE_INTEGER)%N) d.2) →
  NoDup (groupFields record).*1 ∧
  (∀ key names, (key, names) ∈ groupFields record ↔
     names ≠ [] ∧ names = namesUnder key (differences record)) ∧
  (∀ key name, name ∈ namesUnder key (differences record) ↔
     ∃ parameters, (name, parameters) ∈ differences record ∧
       paramKeyOf parameters = key) ∧
  (∀ d1 d2, d1 ∈ differences record → d2 ∈ differences record →
     (paramKeyOf d1.2 = paramKeyOf d2.2 ↔ d1.2 ≡ₚ d2.2)) ∧
  (∀ d, d ∈ differences record → Sorted N.le d.2 → sortNumbers d.2 = d.2).
Proof.
  intros _. destruct (groupFields_spec record) as [Hnd Hspec].
  split_and!; [done|done| | |].
  - intros key name. apply namesUnder_elem.
  - intros d1 d2 _ _. apply paramKeyOf_perm.
  - intros d _ Hsorted. symmetry. by apply sorted_perm_sortNumbers.
Qed.

Lemma groupFields_groups_by_tokens_witness :
  groupFields exampleComparison = [("1,2", ["A"; "C"]); ("1,3", ["B"])] ∧
  (paramKeyOf [1; 2]%N = paramKeyOf [2; 1]%N ↔ [1; 2]%N ≡ₚ [2; 1]%N).
Proof.
  assert (Hsafe : ∀ d, d ∈ differences exampleComparison →
            Forall (λ k, (k ≤ MAX_SAFE_INTEGER)%N) d.2).
  { intros d Hd. simpl in Hd. unfold MAX_SAFE_INTEGER.
    repeat (apply elem_of_cons in Hd as [->|Hd]); [..|by apply elem_of_nil in Hd];
      repeat constructor; simpl; lia. }
  destruct (groupFields_groups_by_tokens exampleComparison Hsafe)
    as (_ & _ & _ & Hperm & _).
  split; [by vm_compute|].
  apply (Hperm ("A", [1; 2]%N) ("C", [2; 1]%N)); simpl.
  - left.
  - right. right. left.
Defined.

(** X16. A dialog opens with every box holding its own token: the
    validation effect finds nothing to repair, and a save without an edit
    is accepted and hands [onSave], for every field of the record, a mapping
    that sends each token of the field's group to itself, which changes no
    text. *)
Theorem openModal_starts_with_identity (record : RecordComparison) :
  (∀ d, d ∈ differences record →
     d.2 ≠ [] ∧ Forall (λ k, (k ≤ MAX_SAFE_INTEGER)%N) d.2) →
  let st := openModal record in
  (∀ key g, (key, g) ∈ groupReplacements st →
     ∃ d, d ∈ differences record ∧ key = paramKeyOf d.2 ∧
       ∀ k v, (k, v) ∈ g ↔ k ∈ d.2 ∧ v = tokenString k) ∧
  (∀ fuel, (∀ key g, (key, g) ∈ groupReplacements st → (length g < fuel)%nat) →
     validateReplacements fuel st = Some st) ∧
  ∃ fieldReplacements,
    handleSave st = SaveCall (cmp_recordId record) fieldReplacements ∧
    (∀ d, d ∈ differences record → d.1 ∈ fieldReplacements.*1) ∧
    (∀ fieldName ng, (fieldName, ng) ∈ fieldReplacements →
       (∃ parameters, (fieldName, parameters) ∈ differences record ∧
          ∀ k x, (k, x) ∈ ng ↔ k ∈ parameters ∧ x = ofN k) ∧
       ∀ text, applyReplacements ng text = text).
Proof.
  intros Hsafe st.
  destruct (openModal_groups record Hsafe) as (Hnd & Hlook & Hgroups).
  fold st in Hnd, Hlook, Hgroups.
  destruct (groupFields_spec record) as [Hgnd Hgspec].
  assert (Hgroup : ∀ key g, (key, g) ∈ groupReplacements st →
            ∃ d, d ∈ differences record ∧ key = paramKeyOf d.2 ∧ g = initialGroup key).
  { intros key g Hin. apply lookupGroup_Some in Hin; [|done].
    rewrite Hlook in Hin. case_bool_decide as Hkey; [|done]. injection Hin as <-.
    apply groupFields_keys in Hkey as (d & Hd & <-). eauto. }
  split_and!.
  - intros key g (d & Hd & -> & ->)%Hgroup. exists d. split_and!; [done..|].
    destruct (Hsafe d Hd) as [Hne Hs]. by apply initialGroup_identity.
  - intros fuel Hfuel. unfold validateReplacements, detectAndFixCircularReplacements.
    rewrite detectAndFixGroups_acyclic; [done|].
    intros key g Hin. destruct (Hgroups key g Hin) as (d & Hd & Hgnd' & Hel).
    split_and!; [done|by eapply Hfuel|].
    apply identity_acyclic. intros k v Hkv. by apply Hel in Hkv as [_ ->].
  - assert (Hvalid : allValid (groupReplacements st) = true).
    { apply not_false_iff_true. intros (key & g & k & v & Hg & Hk & Hinv)%allValid_false.
      destruct (Hgroups key g Hg) as (d & Hd & _ & Hel).
      apply Hel in Hk as [_ ->]. by rewrite tokenString_valid in Hinv. }
    destruct (fieldReplacementsOf_total (groupReplacements st) (parameterGroups st) [])
      as [fr Hfr].
    { intros key names Hin. rewrite Hlook, bool_decide_eq_true_2; [by eexists|].
      apply list_elem_of_fmap. by exists (key, names). }
    exists fr. unfold handleSave. rewrite Hvalid, Hfr. split; [done|].
    destruct (fieldReplacementsOf_spec _ _ [] fr NoDup_nil_2 Hfr) as (_ & Hkeys & Hel).
    split.
    + intros [n ps] Hd. apply Hkeys. right.
      exists (paramKeyOf ps), (namesUnder (paramKeyOf ps) (differences record)).
      assert (Hn : n ∈ namesUnder (paramKeyOf ps) (differences record))
        by (apply namesUnder_elem; eauto).
      split; [|done]. apply Hgspec. split; [|done].
      intros Hnil. rewrite Hnil in Hn. by apply elem_of_nil in Hn.
    + intros f ng Hin.
      destruct (Hel f ng Hin) as [?%elem_of_nil|(key & names & g & Hpg & Hf & Hg & ->)];
        [done|].
      apply Hgspec in Hpg as [_ ->].
      apply namesUnder_elem in Hf as (ps & Hd & <-).
      rewrite Hlook in Hg. case_bool_decide; [|done]. injection Hg as <-.
      destruct (Hsafe (f, ps) Hd) as [Hne Hs]. simpl in Hne, Hs.
      destruct (initialGroup_identity ps Hne Hs) as [Hgnd' Hgel].
      destruct (numericReplacements_spec _ Hgnd') as [_ Hnum].
      assert (Hng : ∀ k x, (k, x) ∈ numericReplacements (initialGroup (paramKeyOf ps)) ↔
                k ∈ ps ∧ x = ofN k).
      { intros k x. rewrite Hnum. split.
        - intros (v & [Hk ->]%Hgel & ->). by rewrite Number_tokenString.
        - intros [Hk ->]. exists (tokenString k).
          split; [by apply Hgel|by rewrite Number_tokenString]. }
      split; [by exists ps|].
      intros text. apply applyReplacements_absent.
      intros o x [_ ->]%Hng Hneq. done.
Qed.

Lemma openModal_starts_with_identity_witness :
  validateReplacements 3 (openModal exampleComparison)
  = Some (openModal exampleComparison).
Proof.
  apply (openModal_starts_with_identity exampleComparison).
  - intros d Hd. simpl in Hd. unfold MAX_SAFE_INTEGER.
    repeat (apply elem_of_cons in Hd as [->|Hd]); [..|by apply elem_of_nil in Hd];
      (split; [done|repeat constructor; simpl; lia]).
  - intros key g Hin.
    assert (Heq : groupReplacements (openModal exampleComparison)
                  = [("1,2", [(1%N, "1"); (2%N, "2")]);
                     ("1,3", [(1%N, "1"); (3%N, "3")])]) by (by vm_compute).
    rewrite Heq in Hin.
    repeat (apply elem_of_cons in Hin as [[= -> ->]|Hin]);
      [..|by apply elem_of_nil in Hin]; simpl; lia.
Defined.
